(** * serverless-compose: the CLI driver [src/index.js]

    A shallow embedding of the variable resolver
    ([resolveConfigurationVariables]), of the command routing and main flow
    ([runComponents]) and of the two process-wide exit listeners, followed by
    the properties established about them.

    JavaScript values are modelled by the tagged type [value]; strings are
    [string]s of 8-bit characters; [process.env] and option objects are finite
    maps; external collaborators (file system, Context, ComponentsService,
    telemetry helpers) are described by a [World] record of their answers. *)

From Stdlib Require Import Ascii String ZArith Lia.
From stdpp Require Import gmap strings list pretty.

Local Open Scope stdpp_scope.
Set Warnings "-register-all".

(** ** JavaScript strings *)

Module JsString.

Definition dquote : string := String "034" "".
Definition newline : string := String "010" "".

Fixpoint drop (n : nat) (s : string) : string :=
  match n, s with
  | S k, String _ s' => drop k s'
  | _, _ => s
  end.

Fixpoint take (n : nat) (s : string) : string :=
  match n, s with
  | S k, String c s' => String c (take k s')
  | _, _ => ""
  end.

(** [s.substring(a, b)] for [a <= b]; [s.slice(a)] is [drop a s]. *)
Definition substring (a b : nat) (s : string) : string :=
  take (b - a) (drop a s).

(** [s.split(sep)] for a one-character separator: never empty. *)
Fixpoint split (sep : ascii) (s : string) : list string :=
  match s with
  | "" => [""]
  | String c s' =>
      if Ascii.eqb c sep then "" :: split sep s'
      else match split sep s' with
           | w :: ws => String c w :: ws
           | [] => [String c ""]
           end
  end.

(** [l.join(sep)] on a list of strings. *)
Fixpoint join (sep : string) (l : list string) : string :=
  match l with
  | [] => ""
  | [x] => x
  | x :: xs => x +:+ sep +:+ join sep xs
  end.

(** [s.includes(c)] for a one-character needle. *)
Fixpoint includes (c : ascii) (s : string) : bool :=
  match s with
  | "" => false
  | String x s' => Ascii.eqb x c || includes c s'
  end.

(** Position of the first occurrence of [pat] in [s], as the text before
    and after it. *)
Fixpoint split_at_first (pat s : string) : option (string * string) :=
  if String.prefix pat s then Some ("", drop (String.length pat) s)
  else match s with
       | "" => None
       | String c s' =>
           match split_at_first pat s' with
           | Some (b, a) => Some (String c b, a)
           | None => None
           end
       end.

(** GetSubstitution of ECMA-262 for a string pattern (no capture groups):
    [$$], [$&], [$`] and [$'] are expanded in the replacement text, every
    other character is copied. *)
Fixpoint get_substitution (matched before after repl : string) : string :=
  match repl with
  | "" => ""
  | String "$" (String "$" r) =>
      String "$" (get_substitution matched before after r)
  | String "$" (String "&" r) =>
      matched +:+ get_substitution matched before after r
  | String "$" (String "`" r) =>
      before +:+ get_substitution matched before after r
  | String "$" (String "'" r) =>
      after +:+ get_substitution matched before after r
  | String c r => String c (get_substitution matched before after r)
  end.

(** [s.replace(pat, repl)] with a string pattern: first occurrence only. *)
Definition replace (s pat repl : string) : string :=
  match split_at_first pat s with
  | None => s
  | Some (before, after) =>
      before +:+ get_substitution pat before after repl +:+ after
  end.

End JsString.

(** ** Regular expressions

    The three patterns of the resolver only need literals and greedy
    repetitions of one character class.  Matching is by backtracking, longest
    repetition first, as the JavaScript engine does.  Capture groups do not
    change what [match] and [test] return and are left out. *)

Module Regex.

Inductive atom :=
| Lit (c : ascii)
| Star (cls : ascii → bool)
| Plus (cls : ascii → bool).

Definition pattern := list atom.

Definition in_range (lo hi c : ascii) : bool :=
  (N_of_ascii lo <=? N_of_ascii c)%N && (N_of_ascii c <=? N_of_ascii hi)%N.

(** [\d] and [\w]. *)
Definition digit (c : ascii) : bool := in_range "0" "9" c.
Definition word (c : ascii) : bool :=
  in_range "a" "z" c || in_range "A" "Z" c || digit c || Ascii.eqb c "_".

(** Greedy repetition of [cls] followed by the continuation [k]: the
    result is the number of characters consumed. *)
Fixpoint greedy (cls : ascii → bool) (k : string → option nat)
    (s : string) : option nat :=
  match s with
  | String c s' =>
      if cls c then
        match greedy cls k s' with
        | Some n => Some (S n)
        | None => k s
        end
      else k s
  | "" => k s
  end.

(** Match [r] at the start of [s]: length of the match. *)
Fixpoint match_here (r : pattern) (s : string) : option nat :=
  match r with
  | [] => Some 0
  | Lit c :: r' =>
      match s with
      | String x s' => if Ascii.eqb x c then S <$> match_here r' s' else None
      | "" => None
      end
  | Star cls :: r' => greedy cls (match_here r') s
  | Plus cls :: r' =>
      match s with
      | String x s' =>
          if cls x then S <$> greedy cls (match_here r') s' else None
      | "" => None
      end
  end.

(** Leftmost match in [s]; [pos] is the index of the start of [s] in the
    whole subject.  Result: start index and length. *)
Fixpoint search (r : pattern) (s : string) (pos : nat) : option (nat * nat) :=
  match match_here r s with
  | Some n => Some (pos, n)
  | None =>
      match s with
      | String _ s' => search r s' (S pos)
      | "" => None
      end
  end.

(** RegExpBuiltinExec of a global pattern from [lastIndex]. *)
Definition exec (r : pattern) (s : string) (lastIndex : nat)
    : option (nat * nat) :=
  if String.length s <? lastIndex then None
  else search r (JsString.drop lastIndex s) lastIndex.

(** [r.test(s)] for a pattern with the [g] flag: the answer and the new
    [lastIndex]. *)
Definition test (r : pattern) (s : string) (lastIndex : nat) : bool * nat :=
  match exec r s lastIndex with
  | Some (i, n) => (true, i + n)
  | None => (false, 0)
  end.

(** All non-overlapping matches, left to right; [skip] characters of the
    previous match are still to be passed over. *)
Fixpoint scan (r : pattern) (skip : nat) (s : string) : list string :=
  match s with
  | "" =>
      match skip, match_here r "" with
      | 0, Some _ => [""]
      | _, _ => []
      end
  | String _ s' =>
      match skip with
      | S k => scan r k s'
      | 0 =>
          match match_here r s with
          | Some n => JsString.take n s :: scan r (pred n) s'
          | None => scan r 0 s'
          end
      end
  end.

(** [s.match(r)] for a pattern with the [g] flag: [null] when there is no
    match. *)
Definition match_all (r : pattern) (s : string) : option (list string) :=
  match scan r 0 s with
  | [] => None
  | ms => Some ms
  end.

End Regex.

(** ** Values, errors and results *)

(** A JavaScript value as the YAML reader and the argument parser produce
    them.  Object fields are kept in [Object.keys] order. *)
Inductive value :=
| VUndefined
| VNull
| VBool (b : bool)
| VNum (n : Z)
| VStr (s : string)
| VArr (items : list value)
| VObj (fields : list (string * value)).

(** [new ServerlessError(message, code)]. *)
Record ServerlessError := mkServerlessError {
  message : string;
  code : string
}.

(** How a pass over the configuration ends: it completes, it throws, or
    it reads from [process.env] a property that the object inherits (see
    [Resolver.object_prototype_names]); from that point on the run is
    not modelled. *)
Inductive result (A : Type) :=
| Ok (a : A)
| Thrown (e : ServerlessError)
| Inherited (name : string).
Arguments Ok {A} a.
Arguments Thrown {A} e.
Arguments Inherited {A} name.

#[global] Instance result_ret : MRet result := λ A a, Ok a.
#[global] Instance result_bind : MBind result := λ A B f m,
  match m with
  | Ok a => f a
  | Thrown e => Thrown e
  | Inherited name => Inherited name
  end.

(** ** The variable resolver *)

Module Resolver.
Import Regex.

Definition lits (s : string) : pattern :=
  (fix go (s : string) : pattern :=
     match s with
     | "" => []
     | String c s' => Lit c :: go s'
     end) s.

(** The class [[\w\d.-]]. *)
Definition path_char (c : ascii) : bool :=
  word c || digit c || Ascii.eqb c "." || Ascii.eqb c "-".

(** The class [[\w.-_]]: after [\w], the characters from [.] to [_]. *)
Definition env_char (c : ascii) : bool :=
  word c || in_range "." "_" c.

(** [/\${(\w*:[\w\d.-]+)}/g] *)
Definition regex : pattern :=
  lits "${" ++ [Star word; Lit ":"; Plus path_char; Lit "}"].

(** [/\${sls:stage}/g] *)
Definition slsStageRegex : pattern := lits "${sls:stage}".

(** [/\${env:(\w*[\w.-_]+)}/g] *)
Definition envRegex : pattern :=
  lits "${env:" ++ [Star word; Plus env_char; Lit "}"].

(** What one pass carries along: [lastIndex] of the two global patterns
    that are used with [test], the flag and the set of sources.  The set
    is a JavaScript [Set]: insertion order, no duplicate. *)
Record pass_state := mkPassState {
  slsLastIndex : nat;
  envLastIndex : nat;
  variableResolved : bool;
  unrecognizedVariableSources : list string
}.

Definition set_add (x : string) (l : list string) : list string :=
  if decide (x ∈ l) then l else l ++ [x].

Definition missing_env_error (name : string) : ServerlessError :=
  mkServerlessError
    ("The environment variable " +:+ JsString.dquote +:+ name +:+
     JsString.dquote +:+ " is referenced but is not defined")
    "CANNOT_FIND_ENVIRONMENT_VARIABLE".

Definition unrecognized_sources_error (l : list string) : ServerlessError :=
  mkServerlessError
    ("Unrecognized configuration variable sources: " +:+ JsString.dquote +:+
     JsString.join (JsString.dquote +:+ ", " +:+ JsString.dquote) l +:+
     JsString.dquote)
    "UNRECOGNIZED_VARIABLE_SOURCES".

(** [process.env] is an object whose own properties are the variables of
    the environment, all strings, and whose prototype is
    [Object.prototype]: for these names [process.env[name]] is a function
    (an object for [__proto__]) even when no variable of that name is
    set. *)
Definition object_prototype_names : list string :=
  ["constructor"; "__defineGetter__"; "__defineSetter__"; "hasOwnProperty";
   "__lookupGetter__"; "__lookupSetter__"; "isPrototypeOf";
   "propertyIsEnumerable"; "toString"; "valueOf"; "__proto__";
   "toLocaleString"].

Definition inherited (name : string) : bool :=
  bool_decide (name ∈ object_prototype_names).

Section Pass.
(** [stage] is the replacement text; [env] holds the variables of the
    environment, the own properties of [process.env]. *)
Variable stage : string.
Variable env : gmap string string.

(** The body of [for (const match of matches)]; [value] is the leaf
    as it was when visited, [newValue] the text built so far. *)
Definition visit_match (value : string)
    (acc : string * pass_state) (match_ : string)
    : result (string * pass_state) :=
  let '(newValue, st) := acc in
  let '(isSls, slsLast) := test slsStageRegex match_ (slsLastIndex st) in
  if isSls then
    Ok (JsString.replace newValue match_ stage,
        mkPassState slsLast (envLastIndex st) true
          (unrecognizedVariableSources st))
  else
    let '(isEnv, envLast) := test envRegex match_ (envLastIndex st) in
    if isEnv then
      let referencedPropertyPath :=
        JsString.split ":"
          (JsString.substring 2 (String.length match_ - 1) match_) in
      let name := nth 1 referencedPropertyPath "undefined" in
      match env !! name with
      | None =>
          (* [process.env[name] == null] holds only when the name is not
             inherited either; an inherited function or object is
             assigned to the node or handed to [replace], which is where
             the model stops. *)
          if inherited name then Inherited name
          else Thrown (missing_env_error name)
      | Some v =>
          Ok (if String.eqb match_ value then v
              else JsString.replace value match_ v,
              mkPassState slsLast envLast true
                (unrecognizedVariableSources st))
      end
    else
      let variableSource :=
        nth 0 (JsString.split ":" (JsString.drop 2 match_)) "" in
      Ok (newValue,
          mkPassState slsLast envLast (variableResolved st)
            (set_add variableSource (unrecognizedVariableSources st))).

Fixpoint visit_matches (value : string) (matches : list string)
    (acc : string * pass_state) : result (string * pass_state) :=
  match matches with
  | [] => Ok acc
  | m :: ms =>
      acc' ← visit_match value acc m; visit_matches value ms acc'
  end.

(** The callback on a string node. *)
Definition visit_string (value : string) (st : pass_state)
    : result (string * pass_state) :=
  match match_all regex value with
  | None => Ok (value, st)
  | Some matches => visit_matches value matches (value, st)
  end.

(** [traverse(configuration).forEach(callback)]: every node in
    pre-order, children in key order; only string nodes are updated. *)
Definition walk_items
    (walk : value → pass_state → result (value * pass_state)) :=
  fix go (l : list value) (st : pass_state)
      : result (list value * pass_state) :=
    match l with
    | [] => Ok ([], st)
    | x :: xs =>
        '(x', st1) ← walk x st;
        '(xs', st2) ← go xs st1;
        Ok (x' :: xs', st2)
    end.

Definition walk_fields
    (walk : value → pass_state → result (value * pass_state)) :=
  fix go (l : list (string * value)) (st : pass_state)
      : result (list (string * value) * pass_state) :=
    match l with
    | [] => Ok ([], st)
    | (k, x) :: xs =>
        '(x', st1) ← walk x st;
        '(xs', st2) ← go xs st1;
        Ok ((k, x') :: xs', st2)
    end.

Fixpoint walk (v : value) (st : pass_state) : result (value * pass_state) :=
  match v with
  | VStr s => '(s', st') ← visit_string s st; Ok (VStr s', st')
  | VArr items =>
      '(items', st') ← walk_items walk items st; Ok (VArr items', st')
  | VObj fields =>
      '(fields', st') ← walk_fields walk fields st; Ok (VObj fields', st')
  | _ => Ok (v, st)
  end.

(** One call of the function up to its recursive call: fresh patterns,
    [variableResolved = false], the set handed over by the caller. *)
Definition resolve_pass (configuration : value)
    (unrecognized : list string) : result (value * pass_state) :=
  walk configuration (mkPassState 0 0 false unrecognized).

End Pass.

(** The outcome of the whole (recursive, asynchronous) function: the
    promise is fulfilled with the configuration, rejected with an error
    of the function, or rejected with the [RangeError] of an exhausted
    call stack; [ReadInherited] is where the model stops (see
    [result]). *)
Inductive outcome :=
| Resolved (configuration : value)
| Failed (e : ServerlessError)
| StackExhausted
| ReadInherited (name : string).

(** Line 174 calls the function again without [await], so the passes nest
    on the call stack: [fuel] is the number of nested calls that the stack
    holds.  The call that does not fit throws [RangeError: Maximum call
    stack size exceeded], which rejects the promise of every enclosing
    call. *)
Fixpoint resolveConfigurationVariables (fuel : nat) (configuration : value)
    (stage : string) (env : gmap string string)
    (unrecognized : list string) : outcome :=
  match fuel with
  | 0 => StackExhausted
  | S fuel' =>
      match resolve_pass stage env configuration unrecognized with
      | Thrown e => Failed e
      | Inherited name => ReadInherited name
      | Ok (resolvedConfiguration, st) =>
          if variableResolved st then
            resolveConfigurationVariables fuel' resolvedConfiguration stage
              env (unrecognizedVariableSources st)
          else
            match unrecognizedVariableSources st with
            | [] => Resolved resolvedConfiguration
            | sources => Failed (unrecognized_sources_error sources)
            end
      end
  end.

End Resolver.

(** ** JavaScript values: coercions and property access *)

Module Js.

(** ToBoolean. *)
Definition truthy (v : value) : bool :=
  match v with
  | VUndefined | VNull => false
  | VBool b => b
  | VNum n => negb (n =? 0)%Z
  | VStr s => negb (String.eqb s "")
  | VArr _ | VObj _ => true
  end.

(** [typeof v === 'object']. *)
Definition typeof_object (v : value) : bool :=
  match v with
  | VNull | VArr _ | VObj _ => true
  | _ => false
  end.

Definition typeof_string (v : value) : bool :=
  match v with
  | VStr _ => true
  | _ => false
  end.

(** ToString; numbers are the integers the argument parser yields. *)
Fixpoint to_string (v : value) : string :=
  match v with
  | VUndefined => "undefined"
  | VNull => "null"
  | VBool true => "true"
  | VBool false => "false"
  | VNum n => pretty n
  | VStr s => s
  | VArr items =>
      JsString.join ","
        ((λ x, match x with
               | VUndefined | VNull => ""
               | _ => to_string x
               end) <$> items)
  | VObj _ => "[object Object]"
  end.

(** [items.join(sep)]. *)
Definition array_join (sep : string) (items : list value) : string :=
  JsString.join sep
    ((λ x, match x with
           | VUndefined | VNull => ""
           | _ => to_string x
           end) <$> items).

Fixpoint assoc (k : string) (fields : list (string * value)) : value :=
  match fields with
  | [] => VUndefined
  | (k', x) :: rest => if String.eqb k' k then x else assoc k rest
  end.

(** [v.k] and [v[k]] for the property names the driver reads; they are
    own properties of objects only. *)
Definition get_prop (v : value) (k : string) : value :=
  match v with
  | VObj fields => assoc k fields
  | _ => VUndefined
  end.

(** [v[i]] on an array. *)
Definition get_index (v : value) (i : nat) : value :=
  match v with
  | VArr items => nth i items VUndefined
  | _ => VUndefined
  end.

Fixpoint remove_key (k : string) (fields : list (string * value))
    : list (string * value) :=
  match fields with
  | [] => []
  | (k', x) :: rest =>
      if String.eqb k' k then remove_key k rest
      else (k', x) :: remove_key k rest
  end.

(** [delete v.k]. *)
Definition delete_prop (v : value) (k : string) : value :=
  match v with
  | VObj fields => VObj (remove_key k fields)
  | _ => v
  end.

(** [v === s] for a string [s]. *)
Definition is_string (v : value) (s : string) : bool :=
  match v with
  | VStr s' => String.eqb s' s
  | _ => false
  end.

End Js.

(** ** The main flow and the exit listeners *)

Module Orchestrator.
Import Js.

Inductive js_error :=
| EServerless (e : ServerlessError)
| ETypeError (message : string)
| ERangeError (message : string)
| EExternal (name : string).

(** Modelled from the spec: the [Context] class ([./Context] is not among
    the sources).  "the run context (working directory, stage — default
    "dev" — verbose flag, state-root path, logger)": a record of the
    configuration it is built from; [context.stage] reads [ctx_stage]. *)
Record Context := mkContext {
  ctx_root : value;
  ctx_stateRoot : value;
  ctx_verbose : value;
  ctx_stage : value;
  ctx_appName : value
}.

(** The module-level variables of [index.js]. *)
Record RunState := mkRunState {
  options : value;
  method : value;
  configurationForTelemetry : value;
  componentName : value;
  context : option Context
}.

Definition initial_state : RunState :=
  mkRunState VUndefined VUndefined VUndefined VUndefined None.

(** The argument of [generateTelemetryPayload]. *)
Record TelemetryInput := mkTelemetryInput {
  t_configuration : value;
  t_options : value;
  t_command : value;
  t_componentName : value;
  t_context : Context;
  t_error : option js_error;
  t_interruptSignal : option string
}.

(** What the process does to the outside, in order. *)
Inductive event :=
| EvRenderHelp
| EvFileExists (path : string) (found : bool)
| EvReadFile (path : string)
| EvNewContext (c : Context)
| EvContextInit
| EvNewService (configuration : value)
| EvServiceInit
| EvInvokeComponent (name method options : value)
| EvInvokeGlobal (method options : value)
| EvStoreTelemetry (payload : TelemetryInput) (stored : bool)
| EvSendTelemetry (c : Context) (sent : bool)
| EvContextShutdown
| EvLog (line : string)
| EvHandleError (e : js_error)
| EvKill (signal : string).

(** The answers of the outside world during one run. *)
Record World := mkWorld {
  cwd : string;
  platform : string;
  env : gmap string string;
  files : gmap string value;
  is_template_path : string → bool;
  context_init_throws : option js_error;
  service_new_throws : option js_error;
  service_init_throws : option js_error;
  invoke_throws : option js_error;
  componentCommandsOutcomes : list (string * string);
  telemetry_store_fails : bool;
  telemetry_send_fails : bool
}.

(** How a piece of code ends: it returns, throws, ends the process with
    [process.exit], or has left what is modelled ([Unfinished]: the
    resolver has read an inherited property of [process.env]). *)
Inductive completion (A : Type) :=
| Normal (a : A)
| Throw (e : js_error)
| Exit (status : Z)
| Unfinished.
Arguments Normal {A} a.
Arguments Throw {A} e.
Arguments Exit {A} status.
Arguments Unfinished {A}.

(** Code that reads and writes the module-level variables and acts on
    the outside. *)
Definition M (A : Type) : Type :=
  RunState → list event * RunState * completion A.

#[global] Instance M_ret : MRet M := λ A a st, ([], st, Normal a).
#[global] Instance M_bind : MBind M := λ A B f m st,
  match m st with
  | (tr, st', Normal a) =>
      let '(tr', st'', c) := f a st' in (tr ++ tr', st'', c)
  | (tr, st', Throw e) => (tr, st', Throw e)
  | (tr, st', Exit n) => (tr, st', Exit n)
  | (tr, st', Unfinished) => (tr, st', Unfinished)
  end.

Definition emit (ev : event) : M unit := λ st, ([ev], st, Normal ()).
Definition throw {A} (e : js_error) : M A := λ st, ([], st, Throw e).
Definition process_exit {A} (status : Z) : M A := λ st, ([], st, Exit status).
Definition unfinished {A} : M A := λ st, ([], st, Unfinished).
Definition get : M RunState := λ st, ([], st, Normal st).
Definition put (st : RunState) : M unit := λ _, ([], st, Normal ()).
Definition raise_if (r : option js_error) : M unit :=
  match r with
  | Some e => throw e
  | None => mret ()
  end.

(** [try { body } catch (e) { handler }]: only a throw is caught. *)
Definition try_catch {A} (body : M A) (handler : js_error → M A) : M A :=
  λ st,
    match body st with
    | (tr, st', Throw e) =>
        let '(tr', st'', c) := handler e st' in (tr ++ tr', st'', c)
    | r => r
    end.

Definition set_options (v : value) : M unit :=
  st ← get;
  put (mkRunState v (method st) (configurationForTelemetry st)
         (componentName st) (context st)).
Definition set_method (v : value) : M unit :=
  st ← get;
  put (mkRunState (options st) v (configurationForTelemetry st)
         (componentName st) (context st)).
Definition set_configurationForTelemetry (v : value) : M unit :=
  st ← get;
  put (mkRunState (options st) (method st) v (componentName st)
         (context st)).
Definition set_componentName (v : value) : M unit :=
  st ← get;
  put (mkRunState (options st) (method st) (configurationForTelemetry st)
         v (context st)).
Definition set_context (c : Context) : M unit :=
  st ← get;
  put (mkRunState (options st) (method st) (configurationForTelemetry st)
         (componentName st) (Some c)).

Section Run.
Variable w : World.

Definition path_join (dir name : string) : string :=
  dir +:+ "/" +:+ name.

(** [new Context({ root: process.cwd() })]. *)
Definition fallback_context : Context :=
  mkContext (VStr (cwd w)) VUndefined VUndefined VUndefined VUndefined.

(** [generateTelemetryPayload({...})] on the module-level variables. *)
Definition telemetry_input (st : RunState) (c : Context)
    (error : option js_error) (signal : option string) : TelemetryInput :=
  mkTelemetryInput (configurationForTelemetry st) (options st) (method st)
    (componentName st) c error signal.

(** Modelled from the spec: [storeTelemetryLocally]
    ([./utils/telemetry/store-locally] is not among the sources).
    "Telemetry store/transmit failures are swallowed with respect to
    exit status — never escalate to a crash or change the code, though
    they may be logged": the call records whether the payload was
    stored and returns normally in both cases. *)
Definition storeTelemetryLocally (payload : TelemetryInput) (c : Context)
    : M unit :=
  emit (EvStoreTelemetry payload (negb (telemetry_store_fails w))).

(** Modelled from the spec: [sendTelemetry] ([./utils/telemetry/send] is
    not among the sources).  "one transmission attempt is made (its
    success or failure never blocks or alters termination)": the
    promise resolves whether or not the transmission succeeded. *)
Definition sendTelemetry (c : Context) : M unit :=
  emit (EvSendTelemetry c (negb (telemetry_send_fails w))).

(** [handleError(error, logger)] and [renderHelp()]: reports to the
    user. *)
Definition handleError (e : js_error) : M unit := emit (EvHandleError e).
Definition renderHelp : M unit := emit EvRenderHelp.

(** [context.logger]: reading a property of [undefined] throws. *)
Definition context_logger (c : option Context) : M unit :=
  match c with
  | Some _ => mret ()
  | None =>
      throw (ETypeError
               "Cannot read properties of undefined (reading 'logger')")
  end.

(** The [uncaughtException] listener. *)
Definition on_uncaughtException (error : js_error) : M unit :=
  st ← get;
  let usedContext := default fallback_context (context st) in
  storeTelemetryLocally (telemetry_input st usedContext (Some error) None)
    usedContext;;
  context_logger (context st);;
  handleError error;;
  sendTelemetry usedContext;;
  process_exit 1.

(** The listener installed for each terminating signal;
    [listenerCount] is [process.listenerCount(signal)] when it runs. *)
Definition on_signal (signal : string) (listenerCount : nat) : M unit :=
  let isOtherSigintListener := negb (listenerCount =? 0) in
  st ← get;
  let usedContext := default fallback_context (context st) in
  storeTelemetryLocally (telemetry_input st usedContext None (Some signal))
    usedContext;;
  if isOtherSigintListener then mret ()
  else
    let signal :=
      if String.eqb (platform w) "win32" && String.eqb signal "SIGHUP"
      then "SIGINT" else signal in
    emit (EvKill signal).

Definition file_exists (path : string) : M bool :=
  let found := bool_decide (is_Some (files w !! path)) in
  emit (EvFileExists path found);; mret found.

Definition read_file (path : string) : M value :=
  emit (EvReadFile path);; mret (default VUndefined (files w !! path)).

Definition getServerlessFile (dir : string) : M value :=
  let ymlFilePath := path_join dir "serverless-compose.yml" in
  let yamlFilePath := path_join dir "serverless-compose.yaml" in
  yml ← file_exists ymlFilePath;
  if (yml : bool) then read_file ymlFilePath
  else
    yaml ← file_exists yamlFilePath;
    if (yaml : bool) then read_file yamlFilePath
    else mret (VBool false).

Definition isComponentsTemplate (serverlessFile : value) : bool :=
  if negb (typeof_object serverlessFile) then false
  else if truthy (get_prop serverlessFile "provider")
          && truthy (get_prop (get_prop serverlessFile "provider") "name")
  then false
  else if truthy (get_prop serverlessFile "services") then true
  else false.

Definition getConfiguration (template : value) : M value :=
  match template with
  | VStr path =>
      if negb (is_template_path w path) then
        throw (EServerless (mkServerlessError
                 "The referenced template path does not exist"
                 "REFERENCED_TEMPLATE_PATH_DOES_NOT_EXIST"))
      else
        found ← file_exists path;
        if negb found then
          throw (EServerless (mkServerlessError
                   "The referenced template path does not exist"
                   "REFERENCED_TEMPLATE_PATH_DOES_NOT_EXIST"))
        else read_file path
  | _ =>
      if negb (typeof_object template) then
        throw (EServerless (mkServerlessError
                 "The template input could either be an object, or a string path to a template file"
                 "INVALID_TEMPLATE_FORMAT"))
      else mret template
  end.

(** The resolver as the main flow calls it: [process.env] is the
    world's, the stage is converted to a string by [replace]. *)
Definition resolve (fuel : nat) (configuration : value) (stage : value)
    : M value :=
  match Resolver.resolveConfigurationVariables fuel configuration
          (to_string stage) (env w) [] with
  | Resolver.Resolved c => mret c
  | Resolver.Failed e => throw (EServerless e)
  | Resolver.StackExhausted =>
      throw (ERangeError "Maximum call stack size exceeded")
  | Resolver.ReadInherited _ => unfinished
  end.

Definition invalid_option_error (option : string) : js_error :=
  EServerless (mkServerlessError
    ("The " +:+ JsString.dquote +:+ "--" +:+ option +:+ JsString.dquote
     +:+ " option is not supported (yet) in Serverless Compose")
    "INVALID_CLI_OPTION").

(** [unsupportedGlobalCliOptions.forEach(...)]. *)
Fixpoint reject_unsupported (unsupportedGlobalCliOptions : list string)
    (options : value) : M unit :=
  match unsupportedGlobalCliOptions with
  | [] => mret ()
  | option :: rest =>
      if truthy (get_prop options option)
      then throw (invalid_option_error option)
      else reject_unsupported rest options
  end.

(** Lines 188-209: help, then command and component name. *)
Definition route (args : value) : M bool :=
  if truthy (get_prop args "help")
     || is_string (get_index (get_prop args "_") 0) "help"
  then renderHelp;; mret false
  else
    set_method (get_prop args "_");;
    st ← get;
    if negb (truthy (method st)) then renderHelp;; mret false
    else
      joined ← match method st with
               | VArr items => mret (array_join ":" items)
               | _ => throw (ETypeError "method.join is not a function")
               end;
      set_method (VStr joined);;
      set_options args;;
      (if truthy (get_prop args "service") then
         set_componentName (get_prop args "service");;
         set_options (delete_prop args "service")
       else if JsString.includes ":" joined then
         match JsString.split ":" joined with
         | name :: methods =>
             set_componentName (VStr name);;
             set_method (VStr (JsString.join ":" methods))
         | [] => mret ()
         end
       else mret ());;
      st ← get;
      set_options (delete_prop (options st) "_");;
      mret true.

(** Lines 211-242: locate, validate and resolve the configuration. *)
Definition load_configuration (fuel : nat) : M (Context * value) :=
  serverlessFile ← getServerlessFile (cwd w);
  if negb (truthy serverlessFile) then
    throw (EServerless (mkServerlessError
             "No serverless-compose.yml file found"
             "CONFIGURATION_FILE_NOT_FOUND"))
  else if negb (isComponentsTemplate serverlessFile) then
    throw (EServerless (mkServerlessError
             ("serverless-compose.yml does not contain valid Serverless Compose configuration."
              +:+ JsString.newline +:+
              "Read about Serverless Compose in the documentation: https://github.com/serverless/compose")
             "INVALID_CONFIGURATION"))
  else
    st ← get;
    let contextConfig :=
      mkContext (VStr (cwd w)) (VStr (path_join (cwd w) ".serverless"))
        (get_prop (options st) "verbose")
        (if truthy (get_prop (options st) "stage")
         then get_prop (options st) "stage" else VStr "dev")
        (get_prop serverlessFile "name") in
    emit (EvNewContext contextConfig);;
    set_context contextConfig;;
    emit EvContextInit;;
    raise_if (context_init_throws w);;
    configuration ← getConfiguration serverlessFile;
    configuration ← resolve fuel configuration (ctx_stage contextConfig);
    set_configurationForTelemetry configuration;;
    mret (contextConfig, configuration).

(** Lines 257-309: the guarded part of the main flow. *)
Definition execute (c : Context) (configuration : value) : M unit :=
  try_catch
    (emit (EvNewService configuration);;
     raise_if (service_new_throws w);;
     emit EvServiceInit;;
     raise_if (service_init_throws w);;
     st ← get;
     (if truthy (componentName st) then
        emit (EvInvokeComponent (componentName st) (method st) (options st))
      else emit (EvInvokeGlobal (method st) (options st)));;
     raise_if (invoke_throws w);;
     storeTelemetryLocally (telemetry_input st c None None) c;;
     sendTelemetry c;;
     emit EvContextShutdown;;
     if bool_decide ("failure" ∈ (componentCommandsOutcomes w).*2) then
       emit (EvLog "");;
       emit (EvLog ("Verbose logs are available in " +:+ JsString.dquote
                    +:+ ".serverless/compose.log" +:+ JsString.dquote));;
       process_exit 1
     else process_exit 0)
    (λ e,
       st ← get;
       context_logger (context st);;
       handleError e;;
       storeTelemetryLocally (telemetry_input st c (Some e) None) c;;
       sendTelemetry c;;
       process_exit 1).

(** Lines 188-255: everything before the guarded part; [None] when
    help was rendered instead. *)
Definition prepare (fuel : nat) (args : value)
    : M (option (Context * value)) :=
  go ← route args;
  if negb go then mret None
  else
    '(c, configuration) ← load_configuration fuel;
    st ← get;
    reject_unsupported ["debug"; "config"; "param"] (options st);;
    mret (Some (c, configuration)).

(** [runComponents], on the arguments as parsed by [minimist]. *)
Definition runComponents (fuel : nat) (args : value) : M unit :=
  prepared ← prepare fuel args;
  match prepared with
  | None => mret ()
  | Some (c, configuration) => execute c configuration
  end.

End Run.

(** [minimist(process.argv.slice(2))]: the positional tokens under [_],
    then the named options. *)
Definition minimist (tokens : list value) (named : list (string * value))
    : value :=
  VObj (("_", VArr tokens) :: named).

End Orchestrator.

(** ** Sample worlds and invocations *)

Module Examples.
Import Orchestrator.

Definition compose_file : value :=
  VObj [("services",
         VObj [("api", VObj [("path", VStr "api-${sls:stage}")])])].

(** A project directory with a composition document; every collaborator
    succeeds and the one sub-command is recorded as [outcome]. *)
Definition project (outcome : string) (store_fails send_fails : bool)
    : World :=
  mkWorld "/app" "linux" ∅ {["/app/serverless-compose.yml" := compose_file]}
    (λ _, false) None None None None [("api", outcome)]
    store_fails send_fails.

(** A directory without a composition document. *)
Definition empty_directory : World :=
  mkWorld "/tmp" "linux" ∅ ∅ (λ _, false) None None None None [] false false.

End Examples.

(** ** Derived notions used to state the resolver's properties *)

Module ResolverSpec.
Import Regex Resolver.

(** Every character of [s] is in the class [p]. *)
Fixpoint all_chars (p : ascii → bool) (s : string) : bool :=
  match s with
  | "" => true
  | String c s' => p c && all_chars p s'
  end.

(** The strings a pattern accepts. *)
Fixpoint lang (r : pattern) (s : string) : Prop :=
  match r with
  | [] => s = ""
  | Lit c :: r' => ∃ s', s = String c s' ∧ lang r' s'
  | Star cls :: r' =>
      ∃ a s', s = a +:+ s' ∧ all_chars cls a = true ∧ lang r' s'
  | Plus cls :: r' =>
      ∃ c a s', s = String c (a +:+ s') ∧ cls c = true ∧
                all_chars cls a = true ∧ lang r' s'
  end.

(** String leaves of a tree, in the order [traverse] visits them. *)
Fixpoint leaves (v : value) : list string :=
  match v with
  | VStr s => [s]
  | VArr items => mjoin (leaves <$> items)
  | VObj fields => mjoin ((λ kv, leaves kv.2) <$> fields)
  | _ => []
  end.

(** The matches of the placeholder pattern in a leaf, and in a tree. *)
Definition leaf_placeholders (s : string) : list string := scan regex 0 s.

Definition placeholders (v : value) : list string :=
  mjoin (leaf_placeholders <$> leaves v).

(** The source part of a match, as the last branch of the loop computes
    it. *)
Definition source_of (m : string) : string :=
  nth 0 (JsString.split ":" (JsString.drop 2 m)) "".

(** What the spec calls first-seen order ("fail naming every distinct
    unrecognized source (in first-seen order)"): the distinct members of
    a list, each at the place of its first occurrence.  The set of the
    code is [set_add]; this definition is what it is compared with. *)
Fixpoint first_seen (l : list string) : list string :=
  match l with
  | [] => []
  | x :: l' => x :: filter (λ y, y ≠ x) (first_seen l')
  end.

(** The effect of the loop body on the pass state alone. *)
Definition match_step (env : gmap string string) (st : pass_state)
    (m : string) : result pass_state :=
  let '(isSls, slsLast) := test slsStageRegex m (slsLastIndex st) in
  if isSls then
    Ok (mkPassState slsLast (envLastIndex st) true
          (unrecognizedVariableSources st))
  else
    let '(isEnv, envLast) := test envRegex m (envLastIndex st) in
    if isEnv then
      let name :=
        nth 1 (JsString.split ":"
                 (JsString.substring 2 (String.length m - 1) m))
            "undefined" in
      match env !! name with
      | None =>
          if inherited name then Inherited name
          else Thrown (missing_env_error name)
      | Some _ =>
          Ok (mkPassState slsLast envLast true
                (unrecognizedVariableSources st))
      end
    else
      Ok (mkPassState slsLast envLast (variableResolved st)
            (set_add (source_of m) (unrecognizedVariableSources st))).

Fixpoint run_matches (env : gmap string string) (ms : list string)
    (st : pass_state) : result pass_state :=
  match ms with
  | [] => Ok st
  | m :: ms' => st' ← match_step env st m; run_matches env ms' st'
  end.

Definition state_of {A} (r : result (A * pass_state)) : result pass_state :=
  match r with
  | Ok (_, st) => Ok st
  | Thrown e => Thrown e
  | Inherited name => Inherited name
  end.

Definition not_char (sep c : ascii) : bool := negb (Ascii.eqb c sep).
Definition not_dollar (c : ascii) : bool := negb (Ascii.eqb c "$").
Definition not_colon (c : ascii) : bool := negb (Ascii.eqb c ":").

(** Names that both the placeholder pattern and the [env] pattern accept:
    word characters and dots. *)
Definition env_name_char (c : ascii) : bool := word c || Ascii.eqb c ".".

(** The shape of what the placeholder pattern matches. *)
Definition placeholder_shape (m : string) : Prop :=
  ∃ a b, m = "${" +:+ a +:+ ":" +:+ b +:+ "}" ∧
         all_chars word a = true ∧ all_chars path_char b = true ∧ b ≠ "".

End ResolverSpec.

(** ** Well-formed leaves

    Leaves in which every dollar sign belongs to one of the two supported
    placeholders, described by the list of their segments. *)

Module Template.
Import Regex Resolver ResolverSpec.

(** A string leaf cut into dollar-free text and the two supported
    placeholders. *)
Inductive segment :=
| Text (t : string)
| SlsStage
| EnvVar (name : string).

#[global] Instance segment_eq_dec : EqDecision segment.
Proof. solve_decision. Defined.

Definition render_segment (g : segment) : string :=
  match g with
  | Text t => t
  | SlsStage => "${sls:stage}"
  | EnvVar name => "${env:" +:+ name +:+ "}"
  end.

Fixpoint render (l : list segment) : string :=
  match l with
  | [] => ""
  | g :: l' => render_segment g +:+ render l'
  end.

Definition is_placeholder (g : segment) : bool :=
  match g with
  | Text _ => false
  | _ => true
  end.

Definition segment_ok (g : segment) : Prop :=
  match g with
  | Text t => all_chars not_dollar t = true
  | SlsStage => True
  | EnvVar name => name ≠ "" ∧ all_chars env_name_char name = true
  end.

(** The placeholders of a leaf, as segments. *)
(** The first occurrence of the placeholder [p] in a leaf. *)
Fixpoint split_seg (p : segment) (l : list segment)
    : option (list segment * list segment) :=
  match l with
  | [] => None
  | q :: l' =>
      if decide (q = p) then Some ([], l')
      else match split_seg p l' with
           | Some (a, b) => Some (q :: a, b)
           | None => None
           end
  end.

(** The leaf with the first occurrence of [p], if any, replaced by text. *)
Definition replace_first (p : segment) (t : string) (l : list segment)
    : list segment :=
  match split_seg p l with
  | Some (a, b) => a ++ Text t :: b
  | None => l
  end.

(** A placeholder the resolver can substitute. *)
Definition resolvable (env : gmap string string) (g : segment) : Prop :=
  g = SlsStage ∨ ∃ n v, g = EnvVar n ∧ env !! n = Some v.

(** [l'] is [l] with some resolvable placeholders replaced by dollar-free
    text. *)
Definition refines (env : gmap string string) (l l' : list segment) : Prop :=
  Forall2 (λ a b, b = a ∨
                  ∃ t, b = Text t ∧ all_chars not_dollar t = true ∧
                       resolvable env a) l l'.

(** A leaf that is made of dollar-free text, [${sls:stage}] and [${env:X}],
    [X] made of word characters and dots. *)
Definition wf_leaf (s : string) : Prop :=
  ∃ l, Forall segment_ok l ∧ s = render l.

(** As long as a pass has substituted nothing, both patterns still have
    [lastIndex = 0]. *)
Definition fresh_until_resolved (st : pass_state) : Prop :=
  variableResolved st = false → slsLastIndex st = 0 ∧ envLastIndex st = 0.

(** The callback run over the string leaves of a tree, in order. *)
Fixpoint visit_leaves (stage : string) (env : gmap string string)
    (ls : list string) (st : pass_state)
    : result (list string * pass_state) :=
  match ls with
  | [] => Ok ([], st)
  | s :: ls' =>
      '(s', st1) ← visit_string stage env s st;
      '(ls'', st2) ← visit_leaves stage env ls' st1;
      Ok (s' :: ls'', st2)
  end.

(** All placeholder matches of a list of leaves. *)
Definition all_placeholders (ls : list string) : list string :=
  mjoin (leaf_placeholders <$> ls).

Definition holes (l : list segment) : list segment :=
  filter (λ g, is_placeholder g = true) l.

End Template.

(** ** Derived notions used to state the properties of the main flow *)

Module OrchestratorSpec.
Import Orchestrator.

Definition trace_of {A} (r : list event * RunState * completion A)
    : list event := r.1.1.
Definition state_after {A} (r : list event * RunState * completion A)
    : RunState := r.1.2.
Definition completion_of {A} (r : list event * RunState * completion A)
    : completion A := r.2.

(** Code that leaves [options] as it found it. *)
Definition keeps_options {A} (m : M A) : Prop :=
  ∀ st tr st' r, m st = (tr, st', r) → options st' = options st.

(** What is logged when a sub-command failed. *)
Definition failure_log : list event :=
  [EvLog "";
   EvLog ("Verbose logs are available in " +:+ JsString.dquote
          +:+ ".serverless/compose.log" +:+ JsString.dquote)].

End OrchestratorSpec.

(** ** Derived notions used to state what resolution keeps *)

Module TreeSpec.
Import Regex Resolver ResolverSpec.

(** The tree with [f] applied to every string node. *)
Fixpoint map_strings (f : string → string) (v : value) : value :=
  match v with
  | VStr s => VStr (f s)
  | VArr items => VArr (map_strings f <$> items)
  | VObj fields => VObj ((λ kv, (kv.1, map_strings f kv.2)) <$> fields)
  | _ => v
  end.


(** The tree with every string node emptied: what is left is the keys,
    their order, the lengths of the arrays and every node that is not a
    string. *)
Definition skeleton (v : value) : value := map_strings (λ _, "") v.

End TreeSpec.

(** ** Derived notions used to state what precedes the guarded part *)

Module PreparationSpec.
Import Js Orchestrator OrchestratorSpec.

(** What the main flow does to the outside before its guarded part. *)
Definition preparation_event (ev : event) : bool :=
  match ev with
  | EvRenderHelp | EvFileExists _ _ | EvReadFile _ | EvNewContext _
  | EvContextInit => true
  | _ => false
  end.

(** The two errors of lines 213-225. *)
Definition configuration_file_not_found : js_error :=
  EServerless (mkServerlessError
    "No serverless-compose.yml file found" "CONFIGURATION_FILE_NOT_FOUND").

Definition invalid_configuration : js_error :=
  EServerless (mkServerlessError
    ("serverless-compose.yml does not contain valid Serverless Compose configuration."
     +:+ JsString.newline +:+
     "Read about Serverless Compose in the documentation: https://github.com/serverless/compose")
    "INVALID_CONFIGURATION").

(** Code whose events are all in [Pev] and that does not end the
    process. *)
Definition confined {A} (Pev : event → Prop) (m : M A) : Prop :=
  ∀ st tr st' r,
    m st = (tr, st', r) → Forall Pev tr ∧ (∀ n, r ≠ Exit n).

(** Code of the main flow that acts on the outside as the part before
    the guarded part may. *)
Definition preparation_only {A} (m : M A) : Prop :=
  confined (λ ev, preparation_event ev = true) m.

(** The state in which the router leaves the module-level variables. *)
Definition routed (st : RunState) (options method componentName : value)
    : RunState :=
  mkRunState options method (configurationForTelemetry st) componentName
    (context st).

End PreparationSpec.

(** ** Facts about strings and patterns *)

Section value_induction.
Variable P : value → Prop.
Hypothesis Hundef : P VUndefined.
Hypothesis Hnull : P VNull.
Hypothesis Hbool : ∀ b, P (VBool b).
Hypothesis Hnum : ∀ n, P (VNum n).
Hypothesis Hstr : ∀ s, P (VStr s).
Hypothesis Harr : ∀ items, Forall P items → P (VArr items).
Hypothesis Hobj : ∀ fields, Forall (λ kv, P kv.2) fields → P (VObj fields).

Fixpoint value_tree_ind (v : value) : P v :=
  match v with
  | VUndefined => Hundef
  | VNull => Hnull
  | VBool b => Hbool b
  | VNum n => Hnum n
  | VStr s => Hstr s
  | VArr items =>
      Harr items
        ((fix go (l : list value) : Forall P l :=
            match l with
            | [] => Forall_nil_2 P
            | x :: xs => Forall_cons_2 P x xs (value_tree_ind x) (go xs)
            end) items)
  | VObj fields =>
      Hobj fields
        ((fix go (l : list (string * value)) : Forall (λ kv, P kv.2) l :=
            match l with
            | [] => Forall_nil_2 _
            | (k, x) :: xs =>
                Forall_cons_2 (λ kv, P kv.2) (k, x) xs
                  (value_tree_ind x) (go xs)
            end) fields)
  end.
End value_induction.

Module StringFacts.
Import ResolverSpec.

Lemma str_app_cons c s t : String c s +:+ t = String c (s +:+ t).
Proof. reflexivity. Qed.

Lemma str_app_nil_l s : "" +:+ s = s.
Proof. reflexivity. Qed.

(** Push every append under the constructors of its left operand. *)
Ltac str_norm :=
  repeat (rewrite str_app_cons in * || rewrite str_app_nil_l in * ).

Lemma str_app_nil_r s : s +:+ "" = s.
Proof. induction s as [|c s IH]; [done|]. by rewrite str_app_cons, IH. Qed.

Lemma str_app_assoc s t u : (s +:+ t) +:+ u = s +:+ t +:+ u.
Proof. induction s as [|c s IH]; [done|]. by rewrite !str_app_cons, IH. Qed.

Lemma str_length_app s t :
  String.length (s +:+ t) = String.length s + String.length t.
Proof. induction s as [|c s IH]; [done|]. rewrite str_app_cons. simpl. lia. Qed.

Lemma take_app_length s t : JsString.take (String.length s) (s +:+ t) = s.
Proof. induction s as [|c s IH]; [by destruct t|]. simpl. by rewrite IH. Qed.

Lemma drop_app_length s t : JsString.drop (String.length s) (s +:+ t) = t.
Proof. induction s as [|c s IH]; [by destruct t|]. done. Qed.

Lemma take_drop n s : JsString.take n s +:+ JsString.drop n s = s.
Proof.
  revert s. induction n as [|n IH]; intros [|c s]; simpl; try done.
  by rewrite str_app_cons, IH.
Qed.

Lemma all_chars_app p s t :
  all_chars p (s +:+ t) = all_chars p s && all_chars p t.
Proof.
  induction s as [|c s IH]; [done|].
  rewrite str_app_cons. simpl. rewrite IH. by destruct (p c).
Qed.

Lemma all_chars_weaken (p q : ascii → bool) s :
  (∀ c, p c = true → q c = true) →
  all_chars p s = true → all_chars q s = true.
Proof.
  intros Hpq. induction s as [|c s IH]; [done|]. simpl.
  intros [Hc Hs]%andb_prop. by rewrite (Hpq _ Hc), IH.
Qed.

End StringFacts.

Module RegexFacts.
Import Regex ResolverSpec StringFacts.

Lemma greedy_sound cls (k : string → option nat) (Q : string → Prop) :
  (∀ s n, k s = Some n → n ≤ String.length s ∧ Q (JsString.take n s)) →
  ∀ s n, greedy cls k s = Some n →
    n ≤ String.length s ∧
    ∃ a s', JsString.take n s = a +:+ s' ∧ all_chars cls a = true ∧ Q s'.
Proof.
  intros Hk. induction s as [|c s IH]; intros n; simpl.
  - intros [Hn HQ]%Hk. split; [done|]. by exists "", (JsString.take n "").
  - destruct (cls c) eqn:Hc.
    + destruct (greedy cls k s) as [m|] eqn:Hg.
      * intros [= <-]. destruct (IH _ eq_refl) as [Hm (a & s' & Ht & Ha & HQ)].
        split; [lia|]. exists (String c a), s'. simpl.
        by rewrite Ht, Hc, Ha.
      * intros [Hn HQ]%Hk. split; [done|]. by exists "", (JsString.take n (String c s)).
    + intros [Hn HQ]%Hk. split; [done|]. by exists "", (JsString.take n (String c s)).
Qed.

(** Soundness of the matcher: what [match_here] consumes is in the
    language of the pattern. *)
Lemma match_here_sound r : ∀ s n,
  match_here r s = Some n →
  n ≤ String.length s ∧ lang r (JsString.take n s).
Proof.
  induction r as [|[c|cls|cls] r IH]; intros s n; simpl.
  - intros [= <-]. split; [lia|]. by destruct s.
  - destruct s as [|x s]; [done|].
    destruct (Ascii.eqb_spec x c) as [->|]; [|done].
    destruct (match_here r s) as [m|] eqn:Hm; [|done].
    intros [= <-]. destruct (IH _ _ Hm) as [? ?].
    split; [simpl; lia|]. simpl. eauto.
  - intros Hg. by apply (greedy_sound cls _ (lang r) IH) in Hg.
  - destruct s as [|x s]; [done|].
    destruct (cls x) eqn:Hx; [|done].
    destruct (greedy cls (match_here r) s) as [m|] eqn:Hg; [|done].
    intros [= <-].
    apply (greedy_sound cls _ (lang r) IH) in Hg
      as [Hm (a & s' & Ht & Ha & HQ)].
    split; [simpl; lia|]. simpl. exists x, a, s'. by rewrite Ht.
Qed.

Lemma greedy_cons cls k c s :
  greedy cls k (String c s)
  = if cls c then
      match greedy cls k s with
      | Some n => Some (S n)
      | None => k (String c s)
      end
    else k (String c s).
Proof. reflexivity. Qed.

Lemma match_here_plus cls r c s :
  match_here (Plus cls :: r) (String c s)
  = if cls c then S <$> greedy cls (match_here r) s else None.
Proof. reflexivity. Qed.

Lemma match_here_lit c r x s :
  match_here (Lit c :: r) (String x s)
  = if Ascii.eqb x c then S <$> match_here r s else None.
Proof. reflexivity. Qed.

Lemma match_here_star cls r s :
  match_here (Star cls :: r) s = greedy cls (match_here r) s.
Proof. reflexivity. Qed.

Lemma match_here_not_first r c x s :
  x ≠ c → match_here (Lit c :: r) (String x s) = None.
Proof. intros Hx. simpl. by destruct (Ascii.eqb_spec x c). Qed.

(** A pattern that matches at no position of [s] yields no match at all. *)
Lemma scan_none r : ∀ s,
  (∀ n, match_here r (JsString.drop n s) = None) → scan r 0 s = [].
Proof.
  induction s as [|c s IH]; intros H; pose proof (H 0) as H0;
    simpl in H0 |- *; rewrite H0; [done|].
  apply IH. intros n. apply (H (S n)).
Qed.

Lemma search_none r : ∀ s pos,
  (∀ n, match_here r (JsString.drop n s) = None) → search r s pos = None.
Proof.
  induction s as [|c s IH]; intros pos H; pose proof (H 0) as H0;
    simpl in H0 |- *; rewrite H0; [done|].
  apply IH. intros n. apply (H (S n)).
Qed.

(** Every match reported by [scan] is in the language of the pattern. *)
Lemma scan_sound r : ∀ s skip m, m ∈ scan r skip s → lang r m.
Proof.
  induction s as [|c s IH]; intros skip m; simpl.
  - destruct skip; [|by intros ?%elem_of_nil].
    destruct (match_here r "") as [n|] eqn:Hn; [|by intros ?%elem_of_nil].
    intros ->%list_elem_of_singleton.
    apply match_here_sound in Hn as [Hle Hl]. simpl in Hle.
    by replace n with 0 in Hl by lia.
  - destruct skip as [|k]; [|apply IH].
    destruct (match_here r (String c s)) as [n|] eqn:Hn; [|apply IH].
    intros [->|Hin]%elem_of_cons; [|by eapply IH].
    by apply match_here_sound in Hn as [_ ?].
Qed.

End RegexFacts.

Module PlaceholderFacts.
Import Regex Resolver ResolverSpec StringFacts RegexFacts.

Ltac char_fact :=
  let c := fresh "c" in let H := fresh "H" in
  intros c H; unfold not_dollar, not_colon;
  destruct (Ascii.eqb_spec c "$") as [->|]; try done;
  destruct (Ascii.eqb_spec c ":") as [->|]; try done;
  destruct (Ascii.eqb_spec c "}") as [->|]; try done;
  destruct (Ascii.eqb_spec c "{") as [->|]; try done.

Lemma word_not_dollar : ∀ c, word c = true → not_dollar c = true.
Proof. char_fact. Qed.
Lemma word_not_colon : ∀ c, word c = true → not_colon c = true.
Proof. char_fact. Qed.
Lemma path_not_dollar : ∀ c, path_char c = true → not_dollar c = true.
Proof. char_fact. Qed.
Lemma path_not_colon : ∀ c, path_char c = true → not_colon c = true.
Proof. char_fact. Qed.
Lemma name_is_path : ∀ c, env_name_char c = true → path_char c = true.
Proof.
  intros c. unfold env_name_char, path_char.
  destruct (word c), (Ascii.eqb c "."); simpl; try done.
  by rewrite orb_true_r.
Qed.
Lemma name_is_env : ∀ c, env_name_char c = true → env_char c = true.
Proof.
  intros c. unfold env_name_char, env_char.
  destruct (word c); [done|]. simpl.
  by destruct (Ascii.eqb_spec c ".") as [->|].
Qed.

Lemma lang_regex m : lang regex m → placeholder_shape m.
Proof.
  unfold regex. simpl.
  intros (s1 & -> & s2 & -> & a & s3 & -> & Ha & s4 & -> & c & b & s5 &
          -> & Hc & Hb & s6 & -> & ->).
  exists a, (String c b). repeat split; try done.
  simpl. by rewrite Hc, Hb.
Qed.

Lemma placeholders_shape s skip m :
  m ∈ scan regex skip s → placeholder_shape m.
Proof. intros ?%scan_sound. by apply lang_regex. Qed.

(** [split] does not cut before the first separator. *)
Lemma split_first a rest :
  all_chars not_colon a = true →
  JsString.split ":" (a +:+ ":" +:+ rest) = a :: JsString.split ":" rest.
Proof.
  induction a as [|c a IH]; [done|]. simpl.
  intros [Hc Ha]%andb_prop. specialize (IH Ha). str_norm. simpl.
  unfold not_colon in Hc. destruct (Ascii.eqb c ":"); [done|].
  by rewrite IH.
Qed.

Lemma split_last a :
  all_chars not_colon a = true → JsString.split ":" a = [a].
Proof.
  induction a as [|c a IH]; [done|]. simpl.
  intros [Hc Ha]%andb_prop.
  unfold not_colon in Hc. destruct (Ascii.eqb c ":"); [done|].
  by rewrite (IH Ha).
Qed.

Lemma source_of_shape a b :
  all_chars word a = true →
  source_of ("${" +:+ a +:+ ":" +:+ b +:+ "}") = a.
Proof.
  intros Ha. unfold source_of.
  change (JsString.drop 2 ("${" +:+ a +:+ ":" +:+ b +:+ "}"))
    with (a +:+ ":" +:+ b +:+ "}").
  rewrite split_first; [done|].
  by apply (all_chars_weaken word), Ha; apply word_not_colon.
Qed.

(** A word followed by a colon that starts like [env:] is [env]. *)
Lemma env_prefix a x y :
  all_chars word a = true →
  a +:+ ":" +:+ x = "env:" +:+ y → a = "env" ∧ x = y.
Proof.
  intros Ha H.
  destruct a as [|c1 [|c2 [|c3 [|c4 a]]]]; try (by inversion H).
  inversion H; subst. by simpl in Ha.
Qed.

(** Past its first character, a placeholder match holds no dollar sign. *)
Lemma shape_tail m :
  placeholder_shape m →
  ∃ t, m = String "$" t ∧ all_chars not_dollar t = true.
Proof.
  intros (a & b & -> & Ha & Hb & _).
  exists ("{" +:+ a +:+ ":" +:+ b +:+ "}"). split; [done|].
  rewrite str_app_cons, str_app_nil_l. simpl.
  rewrite !all_chars_app. simpl.
  rewrite (all_chars_weaken _ _ _ word_not_dollar Ha).
  by rewrite (all_chars_weaken _ _ _ path_not_dollar Hb).
Qed.

Lemma no_match_without_dollar r t :
  all_chars not_dollar t = true →
  ∀ n, match_here (Lit "$" :: r) (JsString.drop n t) = None.
Proof.
  induction t as [|c t IH]; intros Ht n.
  - by destruct n.
  - simpl in Ht. apply andb_prop in Ht as [Hc Ht].
    destruct n as [|n]; [|by apply IH].
    simpl. unfold not_dollar in Hc. by destruct (Ascii.eqb c "$").
Qed.

(** A pattern opening with a dollar sign can only match a placeholder
    match at its start. *)
Lemma only_at_start r m :
  placeholder_shape m →
  match_here (Lit "$" :: r) m = None →
  ∀ n, match_here (Lit "$" :: r) (JsString.drop n m) = None.
Proof.
  intros (t & -> & Ht)%shape_tail H0 [|n]; [done|].
  change (JsString.drop (S n) (String "$" t)) with (JsString.drop n t).
  by apply no_match_without_dollar.
Qed.

Lemma test_none r m i :
  (∀ n, match_here r (JsString.drop n m) = None) →
  test r m i = (false, 0).
Proof.
  intros H. unfold test, exec.
  destruct (String.length m <? i); [done|].
  rewrite search_none; [done|].
  intros n. revert m H. induction i as [|i IH]; intros m H; [apply H|].
  destruct m as [|c m]; [apply (H n)|].
  simpl. apply IH. intros k. apply (H (S k)).
Qed.

End PlaceholderFacts.

Module TestFacts.
Import Regex Resolver ResolverSpec StringFacts RegexFacts PlaceholderFacts.

(** Two texts free of [sep] that are followed by [sep] in the same string
    are the same text. *)
Lemma sep_unique sep : ∀ a w x y,
  all_chars (not_char sep) a = true →
  all_chars (not_char sep) w = true →
  a +:+ String sep x = w +:+ String sep y → a = w ∧ x = y.
Proof.
  unfold not_char.
  induction a as [|c a IH]; intros [|d w] x y Ha Hw H; str_norm;
    simpl in Ha, Hw.
  - by inversion H.
  - inversion H; subst. by rewrite Ascii.eqb_refl in Hw.
  - inversion H; subst. by rewrite Ascii.eqb_refl in Ha.
  - apply andb_prop in Ha as [_ Ha]. apply andb_prop in Hw as [_ Hw].
    inversion H; subst. by destruct (IH _ _ _ Ha Hw H2) as [-> ->].
Qed.

Lemma word_not_brace : ∀ c, word c = true → not_char "}" c = true.
Proof. unfold not_char. char_fact. Qed.
Lemma path_not_brace : ∀ c, path_char c = true → not_char "}" c = true.
Proof. unfold not_char. char_fact. Qed.
Lemma word_not_colon' : ∀ c, word c = true → not_char ":" c = true.
Proof. unfold not_char. char_fact. Qed.

Lemma lang_lits p : ∀ r s, lang (lits p ++ r) s → ∃ t, s = p +:+ t ∧ lang r t.
Proof.
  induction p as [|c p IH]; intros r s; simpl.
  - intros H. by exists s.
  - intros (s' & -> & (t & -> & Ht)%IH). by exists t.
Qed.

(** A placeholder match that starts with [${w:] has source [w]. *)
Lemma shape_source w m t :
  all_chars word w = true →
  placeholder_shape m → m = "${" +:+ w +:+ ":" +:+ t →
  source_of m = w.
Proof.
  intros Hw (a & b & -> & Ha & Hb & _) H.
  rewrite source_of_shape by done.
  str_norm. injection H as H.
  apply sep_unique in H as [-> _]; [done| |];
    by eapply all_chars_weaken; [apply word_not_colon'|].
Qed.

Lemma match_prefix r m n :
  match_here r m = Some n → ∃ t, lang r t ∧ m = t +:+ JsString.drop n m.
Proof.
  intros [_ Hl]%match_here_sound.
  exists (JsString.take n m). by rewrite take_drop.
Qed.

(** The [env] pattern rejects, at every [lastIndex], a placeholder whose
    source is not [env]. *)
Lemma env_test_other m i :
  placeholder_shape m → source_of m ≠ "env" →
  test envRegex m i = (false, 0).
Proof.
  intros Hm Hsrc. apply test_none.
  apply (only_at_start _ m Hm).
  destruct (match_here _ m) as [n|] eqn:Hn; [|done].
  apply match_prefix in Hn as (t & Ht & Heq).
  apply (lang_lits "${env:") in Ht as (t' & -> & _).
  destruct Hsrc. apply (shape_source "env" m (t' +:+ JsString.drop n m));
    [done..|].
  rewrite Heq at 1. by rewrite !str_app_assoc.
Qed.

(** The [sls:stage] pattern rejects, at every [lastIndex], any other
    placeholder. *)
Lemma sls_test_other m i :
  placeholder_shape m → m ≠ "${sls:stage}" →
  test slsStageRegex m i = (false, 0).
Proof.
  intros Hm Hne. apply test_none.
  apply (only_at_start _ m Hm).
  destruct (match_here _ m) as [n|] eqn:Hn; [|done].
  apply match_prefix in Hn as (t & Ht & Heq).
  apply (lang_lits "${sls:stage}" []) in Ht as (t' & -> & ->).
  destruct Hne. destruct Hm as (a & b & -> & Ha & Hb & _).
  revert Heq. generalize (JsString.drop n ("${" +:+ a +:+ ":" +:+ b +:+ "}")).
  intros rest Heq. str_norm. injection Heq as Heq.
  apply (sep_unique ":" a "sls" _ ("stage}" +:+ rest)) in Heq as [-> Heq];
    [| by eapply all_chars_weaken; [apply word_not_colon'|] | done].
  apply (sep_unique "}" b "stage" "" rest) in Heq as [-> _]; [done| |done].
  by eapply all_chars_weaken; [apply path_not_brace|].
Qed.

Lemma greedy_env_tail V :
  all_chars env_char V = true →
  greedy env_char (match_here [Lit "}"]) (V +:+ "}")
  = Some (S (String.length V)).
Proof.
  induction V as [|c V IH]; [done|].
  intros HV. simpl in HV. apply andb_prop in HV as [Hc HV].
  by rewrite str_app_cons, greedy_cons, Hc, (IH HV).
Qed.

Lemma plus_env V :
  V ≠ "" → all_chars env_char V = true →
  match_here [Plus env_char; Lit "}"] (V +:+ "}")
  = Some (S (String.length V)).
Proof.
  destruct V as [|c V]; [done|].
  intros _ HV. simpl in HV. apply andb_prop in HV as [Hc HV].
  by rewrite str_app_cons, match_here_plus, Hc, (greedy_env_tail V HV).
Qed.

Lemma greedy_word_env V :
  V ≠ "" → all_chars env_name_char V = true →
  greedy word (match_here [Plus env_char; Lit "}"]) (V +:+ "}")
  = Some (S (String.length V)).
Proof.
  induction V as [|c V IH]; [done|]. intros _ HV.
  assert (match_here [Plus env_char; Lit "}"] (String c V +:+ "}")
          = Some (S (String.length (String c V)))) as Hfall.
  { apply plus_env; [done|].
    by eapply all_chars_weaken; [apply name_is_env|]. }
  simpl in HV. apply andb_prop in HV as [Hc HV].
  rewrite str_app_cons in Hfall |- *. rewrite greedy_cons.
  destruct (word c); [|done].
  destruct V as [|d V]; [by rewrite Hfall|].
  by rewrite IH.
Qed.

(** The [env] pattern accepts [${env:V}] from [lastIndex = 0] when [V]
    is made of word characters and dots. *)
Lemma env_test_name V :
  V ≠ "" → all_chars env_name_char V = true →
  test envRegex ("${env:" +:+ V +:+ "}") 0
  = (true, 7 + String.length V).
Proof.
  intros Hne HV. unfold test, exec.
  change (String.length _ <? 0) with false. cbv iota.
  change (JsString.drop 0 ?s) with s.
  assert (match_here envRegex ("${env:" +:+ V +:+ "}")
          = Some (7 + String.length V)) as Hm.
  { unfold envRegex. str_norm. simpl lits. simpl app.
    rewrite !match_here_lit. simpl Ascii.eqb. cbv iota.
    by rewrite match_here_star, greedy_word_env. }
  destruct V; [done|]. str_norm. unfold search.
  by rewrite Hm.
Qed.

(** The name looked up for [${env:V}] is [V]. *)
Lemma env_name_of V :
  all_chars env_name_char V = true →
  nth 1 (JsString.split ":"
           (JsString.substring 2
              (String.length ("${env:" +:+ V +:+ "}") - 1)
              ("${env:" +:+ V +:+ "}"))) "undefined" = V.
Proof.
  intros HV. unfold JsString.substring.
  change (JsString.drop 2 ("${env:" +:+ V +:+ "}"))
    with (("env:" +:+ V) +:+ "}").
  replace (String.length ("${env:" +:+ V +:+ "}") - 1 - 2)
    with (String.length ("env:" +:+ V)).
  2:{ rewrite !str_length_app. simpl. lia. }
  rewrite take_app_length.
  change ("env:" +:+ V) with ("env" +:+ ":" +:+ V).
  rewrite split_first by done.
  rewrite split_last; [done|].
  eapply all_chars_weaken; [|apply HV].
  intros c Hc. by apply path_not_colon, name_is_path.
Qed.

End TestFacts.

(** ** Facts about one pass *)

Module PassFacts.
Import Regex Resolver ResolverSpec StringFacts RegexFacts PlaceholderFacts
  TestFacts.

Section WithEnv.
Variable stage : string.
Variable env : gmap string string.

Lemma visit_match_state value nv st m :
  state_of (visit_match stage env value (nv, st) m) = match_step env st m.
Proof.
  unfold visit_match, match_step.
  destruct (test slsStageRegex m _) as [[] ?]; [done|].
  destruct (test envRegex m _) as [[] ?]; [|done].
  destruct (env !! _); [done|]. by destruct (inherited _).
Qed.

Lemma visit_matches_state value : ∀ ms nv st,
  state_of (visit_matches stage env value ms (nv, st))
  = run_matches env ms st.
Proof.
  induction ms as [|m ms IH]; intros nv st; [done|].
  change (visit_matches stage env value (m :: ms) (nv, st))
    with (acc' ← visit_match stage env value (nv, st) m;
          visit_matches stage env value ms acc').
  change (run_matches env (m :: ms) st)
    with (st' ← match_step env st m; run_matches env ms st').
  rewrite <- (visit_match_state value nv st m).
  destruct (visit_match _ _ _ _ _) as [[nv' st']|e|?]; [apply IH|done..].
Qed.

Lemma visit_string_state s st :
  state_of (visit_string stage env s st)
  = run_matches env (leaf_placeholders s) st.
Proof.
  unfold visit_string, match_all, leaf_placeholders.
  destruct (scan regex 0 s) as [|m ms]; [done|].
  apply visit_matches_state.
Qed.

Lemma run_matches_app : ∀ a b st,
  run_matches env (a ++ b) st
  = (st' ← run_matches env a st; run_matches env b st').
Proof.
  induction a as [|m a IH]; intros b st; [done|]. simpl.
  destruct (match_step env st m) as [st'|e|?]; [|done..]. apply IH.
Qed.

(** The state after a pass only depends on the sequence of placeholder
    matches of the tree. *)
Lemma walk_state : ∀ v st,
  state_of (walk stage env v st) = run_matches env (placeholders v) st.
Proof.
  unfold placeholders.
  induction v as [| | | |s|items IH|fields IH] using value_tree_ind;
    intros st; try done.
  - simpl. rewrite app_nil_r, <- visit_string_state.
    by destruct (visit_string _ _ _ _) as [[? ?]|?|?].
  - simpl.
    assert (∀ st, state_of (walk_items (walk stage env) items st)
              = run_matches env
                  (mjoin (leaf_placeholders <$> mjoin (leaves <$> items)))
                  st) as H.
    { clear st. induction IH as [|x xs Hx Hxs IHxs]; intros st; [done|].
      simpl. rewrite fmap_app, join_app, run_matches_app, <- Hx.
      destruct (walk stage env x st) as [[x' st1]|e|?]; [|done..]. simpl.
      rewrite <- IHxs.
      by destruct (walk_items _ xs st1) as [[? ?]|?|?]. }
    rewrite <- H. by destruct (walk_items _ items st) as [[? ?]|?|?].
  - simpl.
    assert (∀ st, state_of (walk_fields (walk stage env) fields st)
              = run_matches env
                  (mjoin (leaf_placeholders <$>
                             mjoin ((λ kv, leaves kv.2) <$> fields)))
                  st) as H.
    { clear st. induction IH as [|[k x] xs Hx Hxs IHxs]; intros st; [done|].
      simpl in Hx |- *. rewrite fmap_app, join_app, run_matches_app, <- Hx.
      destruct (walk stage env x st) as [[x' st1]|e|?]; [|done..]. simpl.
      rewrite <- IHxs.
      by destruct (walk_fields _ xs st1) as [[? ?]|?|?]. }
    rewrite <- H. by destruct (walk_fields _ fields st) as [[? ?]|?|?].
Qed.


Lemma walk_inherited v st n :
  run_matches env (placeholders v) st = Inherited n →
  walk stage env v st = Inherited n.
Proof.
  rewrite <- walk_state.
  destruct (walk stage env v st) as [[? ?]|e'|?]; [done..|].
  by intros [= ->].
Qed.

Lemma walk_ok v st v' st' :
  walk stage env v st = Ok (v', st') →
  run_matches env (placeholders v) st = Ok st'.
Proof. intros H. by rewrite <- walk_state, H. Qed.

End WithEnv.


End PassFacts.

(** ** The set of unrecognized sources *)

Module SourcesFacts.
Import Regex Resolver ResolverSpec StringFacts RegexFacts PlaceholderFacts
  TestFacts PassFacts.

Lemma elem_of_set_add y x l : y ∈ set_add x l ↔ y ∈ l ∨ y = x.
Proof.
  unfold set_add. case_decide as Hx.
  - split; [by left|]. by intros [?| ->].
  - rewrite elem_of_app, list_elem_of_singleton. tauto.
Qed.

Lemma set_add_prefix x l : l `prefix_of` set_add x l.
Proof.
  unfold set_add. case_decide; [done|]. by apply prefix_app_r.
Qed.

Lemma set_add_NoDup x l : NoDup l → NoDup (set_add x l).
Proof.
  unfold set_add. case_decide as Hx; [done|]. intros Hl.
  apply NoDup_app. split_and!; [done| |apply NoDup_singleton].
  by intros y Hy ->%list_elem_of_singleton.
Qed.

Lemma match_step_sources env st m st' :
  match_step env st m = Ok st' →
  unrecognizedVariableSources st' = unrecognizedVariableSources st ∨
  unrecognizedVariableSources st'
  = set_add (source_of m) (unrecognizedVariableSources st).
Proof.
  unfold match_step.
  destruct (test slsStageRegex m _) as [[] ?]; [intros [= <-]; by left|].
  destruct (test envRegex m _) as [[] ?]; [|intros [= <-]; by right].
  destruct (env !! _); [|by destruct (inherited _)]. intros [= <-]. by left.
Qed.

(** A placeholder whose source is neither [sls] nor [env] always lands in
    the last branch of the loop. *)
Lemma match_step_other env st m :
  placeholder_shape m → source_of m ≠ "sls" → source_of m ≠ "env" →
  ∃ st', match_step env st m = Ok st' ∧
         unrecognizedVariableSources st'
         = set_add (source_of m) (unrecognizedVariableSources st).
Proof.
  intros Hm Hsls Henv. unfold match_step.
  rewrite sls_test_other, env_test_other by (done || by intros ->).
  eauto.
Qed.

Section Run.
Variable env : gmap string string.

Lemma run_matches_sources : ∀ ms st st',
  run_matches env ms st = Ok st' →
  unrecognizedVariableSources st `prefix_of` unrecognizedVariableSources st'
  ∧ (NoDup (unrecognizedVariableSources st) →
     NoDup (unrecognizedVariableSources st'))
  ∧ (∀ x, x ∈ unrecognizedVariableSources st' →
          x ∈ unrecognizedVariableSources st ∨
          ∃ m, m ∈ ms ∧ source_of m = x).
Proof.
  induction ms as [|m ms IH]; intros st st'; simpl.
  - intros [= <-]. split_and!; [done|done|by left].
  - destruct (match_step env st m) as [st1|e|?] eqn:Hstep; [|done..].
    simpl. intros (Hpre & Hnd & Hin)%IH.
    apply match_step_sources in Hstep as [Heq|Heq]; rewrite Heq in *.
    + split_and!; [done|done|]. intros x [?|(m' & ? & ?)]%Hin; [by left|].
      right. exists m'. split; [by right|done].
    + split_and!.
      * etrans; [apply set_add_prefix|done].
      * intros ?. by apply Hnd, set_add_NoDup.
      * intros x [[?| ->]%elem_of_set_add|(m' & ? & ?)]%Hin.
        -- by left.
        -- right. exists m. split; [by left|done].
        -- right. exists m'. split; [by right|done].
Qed.

Lemma run_matches_names_all : ∀ ms st st',
  run_matches env ms st = Ok st' →
  Forall placeholder_shape ms →
  ∀ m, m ∈ ms → source_of m ≠ "sls" → source_of m ≠ "env" →
       source_of m ∈ unrecognizedVariableSources st'.
Proof.
  induction ms as [|m0 ms IH]; intros st st' Hrun Hall m Hm Hsls Henv.
  { by apply elem_of_nil in Hm. }
  simpl in Hrun.
  destruct (match_step env st m0) as [st1|e|?] eqn:Hstep; [|done..].
  simpl in Hrun. apply Forall_cons in Hall as [Hm0 Hall].
  apply elem_of_cons in Hm as [->|Hm]; [|by eapply IH].
  destruct (match_step_other env st m0 Hm0 Hsls Henv) as (st2 & Hst2 & Heq).
  rewrite Hstep in Hst2. injection Hst2 as <-.
  apply run_matches_sources in Hrun as ([k Hk] & _ & _).
  rewrite Hk, Heq. apply elem_of_app. left.
  apply elem_of_set_add. by right.
Qed.

End Run.

Lemma match_step_thrown env st m e :
  match_step env st m = Thrown e → ∃ V, e = missing_env_error V.
Proof.
  unfold match_step.
  destruct (test slsStageRegex m _) as [[] ?]; [done|].
  destruct (test envRegex m _) as [[] ?]; [|done].
  destruct (env !! _); [done|]. destruct (inherited _); [done|].
  intros [= <-]. eauto.
Qed.

Lemma run_matches_thrown env : ∀ ms st e,
  run_matches env ms st = Thrown e → ∃ V, e = missing_env_error V.
Proof.
  induction ms as [|m ms IH]; intros st e; simpl; [done|].
  destruct (match_step env st m) as [st1|e'|?] eqn:Hstep; simpl.
  - apply IH.
  - intros [= <-]. by eapply match_step_thrown.
  - done.
Qed.

(** Whatever the number of passes, a failure is one of the two errors,
    and the sources named are distinct. *)
Lemma resolve_failed_kinds : ∀ fuel cfg stage env uv e,
  NoDup uv →
  resolveConfigurationVariables fuel cfg stage env uv = Failed e →
  (∃ V, e = missing_env_error V) ∨
  (∃ names, e = unrecognized_sources_error names ∧ names ≠ [] ∧
            NoDup names ∧ uv `prefix_of` names).
Proof.
  induction fuel as [|fuel IH]; intros cfg stage env uv e Huv; [done|].
  simpl. unfold resolve_pass.
  destruct (walk stage env cfg _) as [[cfg' st]|e'|?] eqn:Hw.
  - apply walk_ok, run_matches_sources in Hw as (Hpre & Hnd & _).
    specialize (Hnd Huv). simpl in Hpre.
    destruct (variableResolved st).
    + intros [?|(names & ? & ? & ? & ?)]%IH; [by left| |done].
      right. exists names. split_and!; [done..|]. by etrans.
    + destruct (unrecognizedVariableSources st) as [|x l] eqn:Hl; [done|].
      intros [= <-]. right. by exists (x :: l).
  - intros [= <-]. left.
    pose proof (walk_state stage env cfg (mkPassState 0 0 false uv)) as H.
    rewrite Hw in H. symmetry in H. by eapply run_matches_thrown.
  - done.
Qed.

End SourcesFacts.

(** ** An undefined environment variable *)

Module EnvFacts.
Import Regex Resolver ResolverSpec StringFacts RegexFacts PlaceholderFacts
  TestFacts PassFacts.

Lemma env_placeholder_shape V :
  V ≠ "" → all_chars env_name_char V = true →
  placeholder_shape ("${env:" +:+ V +:+ "}").
Proof.
  intros Hne HV. exists "env", V. split_and!; [done..| |done].
  by eapply all_chars_weaken; [apply name_is_path|].
Qed.


Section Run.
Variable env : gmap string string.



End Run.

End EnvFacts.

(** ** A further colon in the path *)

Module ColonFacts.
Import Regex Resolver ResolverSpec StringFacts RegexFacts PlaceholderFacts
  TestFacts.

Lemma path_clash : ∀ b N d rest,
  all_chars path_char b = true → all_chars path_char N = true →
  b +:+ String "}" d = N +:+ String ":" rest → False.
Proof.
  induction b as [|c b IH]; intros [|e N] d rest Hb HN H; str_norm;
    simpl in Hb, HN.
  - by inversion H.
  - inversion H; subst. by simpl in HN.
  - inversion H; subst. by simpl in Hb.
  - apply andb_prop in Hb as [_ Hb]. apply andb_prop in HN as [_ HN].
    inversion H; subst. by eapply IH.
Qed.

(** The placeholder pattern does not match at [${env:N:...]. *)
Lemma no_match_colon N rest :
  all_chars path_char N = true →
  match_here regex ("${env:" +:+ N +:+ ":" +:+ rest) = None.
Proof.
  intros HN.
  destruct (match_here _ _) as [n|] eqn:Hn; [|done].
  apply match_prefix in Hn as (t & Ht & Heq).
  apply lang_regex in Ht as (a & b & -> & Ha & Hb & _).
  revert Heq. generalize (JsString.drop n ("${env:" +:+ N +:+ ":" +:+ rest)).
  intros d Heq. rewrite !str_app_assoc in Heq. str_norm.
  injection Heq as Heq. symmetry in Heq.
  apply (sep_unique ":" a "env" _ (N +:+ String ":" rest)) in Heq
    as [_ Heq]; [| by eapply all_chars_weaken; [apply word_not_colon'|]
                 | done].
  by destruct (path_clash b N d rest).
Qed.

Lemma no_match_before r : ∀ pre t,
  all_chars not_dollar pre = true →
  (∀ n, match_here (Lit "$" :: r) (JsString.drop n t) = None) →
  ∀ n, match_here (Lit "$" :: r) (JsString.drop n (pre +:+ t)) = None.
Proof.
  induction pre as [|c pre IH]; intros t Hpre Ht n; [apply Ht|].
  simpl in Hpre. apply andb_prop in Hpre as [Hc Hpre]. rewrite str_app_cons.
  destruct n as [|n]; [|by apply IH].
  unfold not_dollar in Hc. simpl. by destruct (Ascii.eqb c "$").
Qed.

(** A leaf whose only dollar sign opens [${env:N:R}] holds no
    placeholder match. *)
Lemma colon_leaf_no_placeholder pre N R post :
  all_chars not_dollar pre = true →
  all_chars path_char N = true →
  all_chars not_dollar R = true →
  all_chars not_dollar post = true →
  leaf_placeholders
    (pre +:+ "${env:" +:+ N +:+ ":" +:+ R +:+ "}" +:+ post) = [].
Proof.
  intros Hpre HN HR Hpost. apply scan_none.
  apply (no_match_before _ pre); [done|].
  intros [|n]; [by apply (no_match_colon N)|].
  change (JsString.drop (S n) ("${env:" +:+ ?t))
    with (JsString.drop n ("{env:" +:+ t)).
  apply no_match_without_dollar.
  str_norm. simpl. rewrite all_chars_app. simpl. rewrite all_chars_app.
  simpl. by rewrite (all_chars_weaken _ _ _ path_not_dollar HN), HR, Hpost.
Qed.

End ColonFacts.

(** ** Passes over well-formed leaves *)

Module TemplateFacts.
Import Regex Resolver ResolverSpec StringFacts RegexFacts PlaceholderFacts
  TestFacts PassFacts EnvFacts Template.

Lemma render_app a b : render (a ++ b) = render a +:+ render b.
Proof.
  induction a as [|g a IH]; [done|]. simpl. by rewrite IH, str_app_assoc.
Qed.

Lemma greedy_stop cls k : ∀ w c rest n,
  all_chars cls w = true → cls c = false →
  k (String c rest) = Some n →
  greedy cls k (w +:+ String c rest) = Some (String.length w + n).
Proof.
  induction w as [|x w IH]; intros c rest n Hw Hc Hk.
  - rewrite str_app_nil_l, greedy_cons, Hc. done.
  - simpl in Hw. apply andb_prop in Hw as [Hx Hw].
    rewrite str_app_cons, greedy_cons, Hx, (IH _ _ _ Hw Hc Hk). done.
Qed.

(** The placeholder pattern matches a well-shaped placeholder entirely,
    whatever follows it. *)
Lemma match_here_shape a b rest :
  all_chars word a = true → all_chars path_char b = true → b ≠ "" →
  match_here regex ("${" +:+ a +:+ ":" +:+ b +:+ "}" +:+ rest)
  = Some (String.length ("${" +:+ a +:+ ":" +:+ b +:+ "}")).
Proof.
  intros Ha Hb Hne. destruct b as [|c b]; [done|].
  simpl in Hb. apply andb_prop in Hb as [Hc Hb].
  unfold regex. simpl lits. simpl app. str_norm.
  rewrite !match_here_lit. simpl Ascii.eqb. cbv iota.
  rewrite match_here_star.
  rewrite (greedy_stop word _ a ":" _ (S (S (String.length b + 1)))); [| done | done |].
  - simpl. rewrite str_length_app. simpl. rewrite str_length_app. simpl.
    f_equal; lia.
  - rewrite match_here_lit. simpl Ascii.eqb. cbv iota.
    rewrite match_here_plus, Hc.
    rewrite (greedy_stop path_char _ b "}" rest 1); [done|done|done|].
    rewrite match_here_lit. by simpl.
Qed.

Lemma placeholder_segment_shape p :
  segment_ok p → is_placeholder p = true →
  placeholder_shape (render_segment p).
Proof.
  destruct p as [t| |n]; [done| |]; intros Hok _.
  - by exists "sls", "stage".
  - destruct Hok. by apply env_placeholder_shape.
Qed.

Lemma match_here_placeholder p rest :
  segment_ok p → is_placeholder p = true →
  match_here regex (render_segment p +:+ rest)
  = Some (String.length (render_segment p)).
Proof.
  intros Hok Hp.
  destruct (placeholder_segment_shape p Hok Hp) as (a & b & -> & Ha & Hb & Hne).
  rewrite <- (match_here_shape a b rest) by done.
  by rewrite !str_app_assoc.
Qed.

Lemma scan_text t rest :
  all_chars not_dollar t = true →
  scan regex 0 (t +:+ rest) = scan regex 0 rest.
Proof.
  induction t as [|c t IH]; [done|]. intros Ht. simpl in Ht.
  apply andb_prop in Ht as [Hc Ht]. rewrite str_app_cons.
  change (scan regex 0 (String c ?s))
    with (match match_here regex (String c s) with
          | Some n => JsString.take n (String c s) :: scan regex (pred n) s
          | None => scan regex 0 s
          end).
  unfold regex at 1. simpl lits. simpl app.
  rewrite match_here_not_first; [by apply IH|].
  unfold not_dollar in Hc. by destruct (Ascii.eqb_spec c "$").
Qed.

Lemma scan_skip r : ∀ p rest,
  scan r (String.length p) (p +:+ rest) = scan r 0 rest.
Proof. induction p as [|c p IH]; intros rest; [done|]. apply IH. Qed.

Lemma scan_placeholder p rest :
  segment_ok p → is_placeholder p = true →
  scan regex 0 (render_segment p +:+ rest)
  = render_segment p :: scan regex 0 rest.
Proof.
  intros Hok Hp. pose proof (match_here_placeholder p rest Hok Hp) as Hm.
  destruct (placeholder_segment_shape p Hok Hp) as (a & b & Heq & _).
  revert Hm. generalize (render_segment p) Heq. intros m -> Hm.
  revert Hm. str_norm. intros Hm.
  match goal with
  | |- scan regex 0 (String ?c ?s) = _ =>
      change (scan regex 0 (String c s))
        with (match match_here regex (String c s) with
              | Some n => JsString.take n (String c s) :: scan regex (pred n) s
              | None => scan regex 0 s
              end)
  end.
  rewrite Hm. f_equal.
  - exact (take_app_length
             (String "$" (String "{" (a +:+ String ":" (b +:+ "}")))) rest).
  - exact (scan_skip regex (String "{" (a +:+ String ":" (b +:+ "}"))) rest).
Qed.

(** The matches of the placeholder pattern in a rendered leaf are its
    placeholders, in order. *)
Lemma scan_render l :
  Forall segment_ok l →
  leaf_placeholders (render l) = render_segment <$> holes l.
Proof.
  unfold leaf_placeholders, holes.
  induction 1 as [|g l Hg Hl IH]; [done|]. simpl.
  destruct g as [t| |n].
  - rewrite scan_text by done. rewrite filter_cons_False by done. apply IH.
  - rewrite (scan_placeholder SlsStage) by done.
    rewrite filter_cons_True by done. simpl. by rewrite IH.
  - rewrite (scan_placeholder (EnvVar n)) by done.
    rewrite filter_cons_True by done. simpl. by rewrite IH.
Qed.

Lemma prefix_app m rest : String.prefix m (m +:+ rest) = true.
Proof.
  induction m as [|c m IH]; [by destruct rest|]. rewrite str_app_cons. simpl.
  by destruct (ascii_dec c c).
Qed.

Lemma prefix_inv : ∀ m s, String.prefix m s = true → ∃ t, s = m +:+ t.
Proof.
  induction m as [|c m IH]; intros s; [by exists s|].
  destruct s as [|d s]; [done|]. simpl.
  destruct (ascii_dec c d) as [->|]; [|done].
  intros (t & ->)%IH. by exists t.
Qed.

Lemma prefix_first_ne a m c s :
  a ≠ c → String.prefix (String a m) (String c s) = false.
Proof. intros Hne. simpl. by destruct (ascii_dec a c). Qed.

Lemma split_at_first_cons m c s :
  JsString.split_at_first m (String c s)
  = if String.prefix m (String c s)
    then Some ("", JsString.drop (String.length m) (String c s))
    else match JsString.split_at_first m s with
         | Some (b, a) => Some (String c b, a)
         | None => None
         end.
Proof. reflexivity. Qed.

(** Dollar-free text is passed over when looking for a placeholder. *)
Lemma split_text m t rest :
  all_chars not_dollar t = true →
  JsString.split_at_first (String "$" m) (t +:+ rest)
  = match JsString.split_at_first (String "$" m) rest with
    | Some (b, a) => Some (t +:+ b, a)
    | None => None
    end.
Proof.
  induction t as [|c t IH]; intros Ht.
  - rewrite str_app_nil_l. by destruct (JsString.split_at_first _ rest) as [[? ?]|].
  - simpl in Ht. apply andb_prop in Ht as [Hc Ht].
    rewrite str_app_cons, split_at_first_cons, prefix_first_ne, (IH Ht).
    + by destruct (JsString.split_at_first _ rest) as [[? ?]|].
    + unfold not_dollar in Hc. intros <-. by rewrite Ascii.eqb_refl in Hc.
Qed.

Lemma name_not_brace : ∀ c, env_name_char c = true → not_char "}" c = true.
Proof. intros c Hc. by apply path_not_brace, name_is_path. Qed.

(** A placeholder that starts where another one starts is that one. *)
Lemma prefix_placeholder p q rest :
  segment_ok p → segment_ok q →
  is_placeholder p = true → is_placeholder q = true →
  String.prefix (render_segment p) (render_segment q +:+ rest) = true →
  q = p.
Proof.
  intros Hp Hq Pp Pq (t & Heq)%prefix_inv.
  destruct p as [?| |n], q as [?| |n']; try done; simpl in Heq;
    rewrite !str_app_assoc in Heq; str_norm; try (by inversion Heq).
  destruct Hp as [_ Hn], Hq as [_ Hn']. injection Heq as Heq.
  apply sep_unique in Heq as [-> _]; [done| |];
    by eapply all_chars_weaken; [apply name_not_brace|].
Qed.

Lemma split_at_first_here m rest :
  m ≠ "" → JsString.split_at_first m (m +:+ rest) = Some ("", rest).
Proof.
  destruct m as [|c m]; [done|]. intros _.
  rewrite str_app_cons, split_at_first_cons, <- str_app_cons.
  by rewrite prefix_app, drop_app_length.
Qed.

Lemma split_at_first_skip p q rest :
  segment_ok p → segment_ok q →
  is_placeholder p = true → is_placeholder q = true → q ≠ p →
  JsString.split_at_first (render_segment p) (render_segment q +:+ rest)
  = match JsString.split_at_first (render_segment p) rest with
    | Some (b, a) => Some (render_segment q +:+ b, a)
    | None => None
    end.
Proof.
  intros Hp Hq Pp Pq Hne.
  assert (String.prefix (render_segment p) (render_segment q +:+ rest) = false)
    as Hpre.
  { destruct (String.prefix _ _) eqn:H; [|done].
    by apply prefix_placeholder in H. }
  destruct (shape_tail _ (placeholder_segment_shape p Hp Pp)) as (tp & Htp & _).
  destruct (shape_tail _ (placeholder_segment_shape q Hq Pq)) as (tq & Htq & Hcl).
  rewrite Htq in Hpre |- *. rewrite str_app_cons in Hpre |- *.
  rewrite split_at_first_cons, Hpre.
  rewrite Htp, split_text by done.
  by destruct (JsString.split_at_first _ rest) as [[? ?]|].
Qed.

Lemma split_render p : ∀ l,
  segment_ok p → is_placeholder p = true → Forall segment_ok l →
  JsString.split_at_first (render_segment p) (render l)
  = match split_seg p l with
    | Some (a, b) => Some (render a, render b)
    | None => None
    end.
Proof.
  intros l Hp Pp Hl.
  destruct (shape_tail _ (placeholder_segment_shape p Hp Pp)) as (tp & Htp & Hcl).
  induction Hl as [|q l Hq Hl IH].
  { simpl. by rewrite Htp. }
  simpl. destruct (is_placeholder q) eqn:Pq.
  - case_decide as Hqp.
    + subst q. rewrite split_at_first_here; [done|]. by rewrite Htp.
    + rewrite split_at_first_skip, IH by done.
      by destruct (split_seg p l) as [[? ?]|].
  - destruct q as [t| |]; try done.
    rewrite decide_False by (by intros <-).
    rewrite Htp, split_text by done. rewrite <- Htp, IH.
    by destruct (split_seg p l) as [[? ?]|].
Qed.

Lemma get_substitution_clean m b a : ∀ repl,
  all_chars not_dollar repl = true →
  JsString.get_substitution m b a repl = repl.
Proof.
  induction repl as [|c r IH]; [done|]. simpl.
  intros [Hc Hr]%andb_prop. specialize (IH Hr).
  unfold not_dollar in Hc.
  destruct c as [[] [] [] [] [] [] [] []]; try done; simpl; by rewrite IH.
Qed.

(** Replacing a placeholder in a rendered leaf by dollar-free text. *)
Lemma replace_render p t l :
  segment_ok p → is_placeholder p = true → Forall segment_ok l →
  all_chars not_dollar t = true →
  JsString.replace (render l) (render_segment p) t
  = render (replace_first p t l).
Proof.
  intros Hp Pp Hl Ht. unfold JsString.replace, replace_first.
  rewrite split_render by done.
  destruct (split_seg p l) as [[a b]|]; [|done].
  by rewrite get_substitution_clean, render_app.
Qed.

Lemma test_nonzero r m i :
  placeholder_shape m → i ≠ 0 → test (Lit "$" :: r) m i = (false, 0).
Proof.
  intros (t & -> & Ht)%shape_tail Hi. destruct i as [|i]; [done|].
  unfold test, exec. destruct (_ <? _); [done|].
  change (JsString.drop (S i) (String "$" t)) with (JsString.drop i t).
  rewrite search_none; [done|].
  intros n. revert t Ht. induction i as [|i IH]; intros t Ht.
  - by apply no_match_without_dollar.
  - destruct t as [|c t]; [by destruct n|].
    simpl in Ht. apply andb_prop in Ht as [_ Ht]. by apply IH.
Qed.

Lemma sls_test_fresh : test slsStageRegex "${sls:stage}" 0 = (true, 12).
Proof. reflexivity. Qed.

Lemma refines_refl env l : refines env l l.
Proof. apply Forall2_same_length_lookup_2; [done|]. intros ??? H1 H2. left. congruence. Qed.

Lemma holes_cons g l :
  holes (g :: l) = if is_placeholder g then g :: holes l else holes l.
Proof.
  unfold holes. destruct (is_placeholder g) eqn:H.
  - by rewrite filter_cons_True.
  - rewrite filter_cons_False; [done|]. by rewrite H.
Qed.

Lemma refines_holes_length env l l' :
  refines env l l' → length (holes l') ≤ length (holes l).
Proof.
  induction 1 as [|a b l l' Hab Hl IH]; [done|]. rewrite !holes_cons.
  destruct Hab as [->|(t & -> & _ & Hres)].
  - destruct (is_placeholder a); simpl; lia.
  - simpl. destruct (is_placeholder a); simpl; lia.
Qed.

Lemma refines_ok env l l' :
  refines env l l' → Forall segment_ok l → Forall segment_ok l'.
Proof.
  induction 1 as [|a b l l' Hab Hl IH]; [done|].
  intros [Ha Hl']%Forall_cons. constructor; [|by apply IH].
  by destruct Hab as [->|(t & -> & Ht & _)].
Qed.

Lemma refines_undefined env l l' n :
  refines env l l' → env !! n = None → EnvVar n ∈ l → EnvVar n ∈ l'.
Proof.
  induction 1 as [|a b l l' Hab Hl IH]; [done|].
  intros Hn [<-|Hin]%elem_of_cons.
  - destruct Hab as [->|(t & -> & _ & [?|(n' & v & [= <-] & Hv)])];
      [by left|done|congruence].
  - right. by apply IH.
Qed.

Lemma refines_holes_subset env l l' g :
  refines env l l' → g ∈ holes l' → g ∈ holes l.
Proof.
  induction 1 as [|a b l l' Hab Hl IH]; [done|]. rewrite !holes_cons.
  destruct Hab as [->|(t & -> & _ & Hres)].
  - destruct (is_placeholder a); [|done].
    intros [->|?]%elem_of_cons; [by left|right; by apply IH].
  - simpl. intros ?%IH. destruct (is_placeholder a); [by right|done].
Qed.

Lemma split_seg_app p : ∀ l a b, split_seg p l = Some (a, b) → l = a ++ p :: b.
Proof.
  induction l as [|q l IH]; intros a b; [done|]. simpl.
  case_decide as Hq; [by intros [= <- <-]; subst|].
  destruct (split_seg p l) as [[a' b']|]; [|done].
  intros [= <- <-]. simpl. f_equal. by apply IH.
Qed.

Lemma split_seg_elem p : ∀ l, p ∈ l → is_Some (split_seg p l).
Proof.
  induction l as [|q l IH]; [by intros ?%elem_of_nil|]. simpl.
  case_decide as Hq; [done|].
  intros [->|Hin]%elem_of_cons; [done|].
  destruct (IH Hin) as [[a b] ->]. done.
Qed.

(** Replacing a resolvable placeholder keeps the refinement. *)
Lemma refines_replace_first env p t l cur :
  refines env l cur → resolvable env p → all_chars not_dollar t = true →
  refines env l (replace_first p t cur).
Proof.
  intros Hl Hp Ht. unfold replace_first.
  destruct (split_seg p cur) as [[a b]|] eqn:Hs; [|done].
  apply split_seg_app in Hs as ->.
  apply Forall2_app_inv_r in Hl as (la & lb & Ha & Hb & ->).
  apply Forall2_cons_inv_r in Hb as (x & lb' & Hx & Hb & ->).
  apply Forall2_app; [done|]. constructor; [|done].
  right. exists t. split_and!; [done..|].
  destruct Hx as [<-|(t' & ? & _)]; [done|].
  destruct Hp as [->|(? & ? & -> & _)]; done.
Qed.

Lemma holes_app a b : holes (a ++ b) = holes a ++ holes b.
Proof. unfold holes. apply filter_app. Qed.

Lemma replace_first_holes_le p t l :
  length (holes (replace_first p t l)) ≤ length (holes l).
Proof.
  unfold replace_first. destruct (split_seg p l) as [[a b]|] eqn:Hs; [|done].
  apply split_seg_app in Hs as ->.
  rewrite !holes_app, !length_app, !holes_cons. simpl.
  destruct (is_placeholder p); simpl; lia.
Qed.

Lemma replace_first_holes_lt p t l :
  p ∈ l → is_placeholder p = true →
  length (holes (replace_first p t l)) < length (holes l).
Proof.
  intros Hin Hp. unfold replace_first.
  destruct (split_seg_elem p l Hin) as [[a b] Hs]. rewrite Hs.
  apply split_seg_app in Hs as ->.
  rewrite !holes_app, !length_app, !holes_cons, Hp. simpl. lia.
Qed.

Lemma sls_test_nonzero m i :
  placeholder_shape m → i ≠ 0 → test slsStageRegex m i = (false, 0).
Proof. apply (test_nonzero (lits "{sls:stage}")). Qed.

Lemma env_test_nonzero m i :
  placeholder_shape m → i ≠ 0 → test envRegex m i = (false, 0).
Proof.
  apply (test_nonzero (lits "{env:" ++ [Star word; Plus env_char; Lit "}"])).
Qed.

Lemma replace_self m v :
  m ≠ "" → all_chars not_dollar v = true → JsString.replace m m v = v.
Proof.
  intros Hm Hv. unfold JsString.replace.
  pose proof (split_at_first_here m "" Hm) as H.
  rewrite str_app_nil_r in H. rewrite H.
  by rewrite get_substitution_clean, str_app_nil_r.
Qed.

Section Step.
Variable stage : string.
Variable env : gmap string string.
Hypothesis stage_clean : all_chars not_dollar stage = true.
Hypothesis env_clean :
  ∀ n v, env !! n = Some v → all_chars not_dollar v = true.

(** What the loop body does on a placeholder of a well-formed leaf. *)
Lemma visit_match_step segs cur st p :
  Forall segment_ok segs → refines env segs cur →
  p ∈ segs → is_placeholder p = true →
  fresh_until_resolved st →
  match visit_match stage env (render segs) (render cur, st)
          (render_segment p) with
  | Thrown e => ∃ n, e = missing_env_error n ∧ p = EnvVar n ∧ env !! n = None
  | Inherited n => p = EnvVar n ∧ env !! n = None ∧ inherited n = true
  | Ok (nv, st') =>
      variableResolved st' = true ∧
      ∃ cur', nv = render cur' ∧ refines env segs cur' ∧
        ((cur' = cur ∧ variableResolved st = true) ∨
         (cur = segs ∨ length (holes cur) < length (holes segs) →
          length (holes cur') < length (holes segs)))
  end.
Proof.
  intros Hok Href Hin Hp Hfresh.
  assert (segment_ok p) as Hpok by (by eapply Forall_forall in Hok).
  pose proof (placeholder_segment_shape p Hpok Hp) as Hshape.
  pose proof (refines_ok _ _ _ Href Hok) as Hcur.
  unfold visit_match. destruct p as [t| |n]; [done| |].
  - (* ${sls:stage} *)
    destruct (decide (slsLastIndex st = 0)) as [H0|H0].
    + rewrite H0. simpl render_segment. rewrite sls_test_fresh.
      split; [done|]. exists (replace_first SlsStage stage cur).
      split_and!.
      * by rewrite <- (replace_render SlsStage stage cur).
      * apply refines_replace_first; [done|by left|done].
      * right. intros [->|Hlt]; [by apply replace_first_holes_lt|].
        pose proof (replace_first_holes_le SlsStage stage cur). lia.
    + rewrite sls_test_nonzero, env_test_other by done.
      assert (variableResolved st = true) as Hres.
      { destruct (variableResolved st) eqn:E; [done|].
        by destruct (Hfresh E). }
      split; [done|]. exists cur. split_and!; [done..|]. by left.
  - (* ${env:n} *)
    destruct Hpok as [Hne Hn].
    rewrite sls_test_other; [|done|].
    2:{ simpl. intros H. str_norm. by inversion H. }
    destruct (decide (envLastIndex st = 0)) as [H0|H0].
    + rewrite H0. simpl render_segment.
      rewrite env_test_name, env_name_of by done.
      destruct (env !! n) as [v|] eqn:Hv.
      2:{ destruct (inherited n) eqn:Hinh; [done|by exists n]. }
      split; [done|]. exists (replace_first (EnvVar n) v segs).
      pose proof (env_clean _ _ Hv) as Hvc.
      split_and!.
      * destruct (String.eqb_spec ("${env:" +:+ n +:+ "}") (render segs))
          as [Heq|_].
        -- rewrite <- (replace_render (EnvVar n) v segs) by done.
           simpl render_segment. rewrite <- Heq. by rewrite replace_self.
        -- by rewrite <- (replace_render (EnvVar n) v segs).
      * apply refines_replace_first; [apply refines_refl| |done].
        right. by exists n, v.
      * right. intros _. by apply replace_first_holes_lt.
    + rewrite env_test_nonzero by done.
      assert (variableResolved st = true) as Hres.
      { destruct (variableResolved st) eqn:E; [done|].
        by destruct (Hfresh E). }
      split; [done|]. exists cur. split_and!; [done..|]. by left.
Qed.

Lemma visit_matches_cons value m ms acc :
  visit_matches stage env value (m :: ms) acc
  = (acc' ← visit_match stage env value acc m;
     visit_matches stage env value ms acc').
Proof. reflexivity. Qed.

(** The loop over the placeholders of a well-formed leaf.  [st0] is the
    state in which the leaf was reached. *)
Lemma leaf_loop segs st0 :
  Forall segment_ok segs →
  ∀ ps cur st,
    (∀ p, p ∈ ps → p ∈ segs ∧ is_placeholder p = true) →
    refines env segs cur →
    (cur = segs ∧ variableResolved st = variableResolved st0) ∨
    (length (holes cur) < length (holes segs) ∧ variableResolved st = true) →
    fresh_until_resolved st →
    match visit_matches stage env (render segs) (render_segment <$> ps)
            (render cur, st) with
    | Thrown e =>
        ∃ n, e = missing_env_error n ∧ EnvVar n ∈ segs ∧ env !! n = None
    | Inherited n => EnvVar n ∈ segs ∧ env !! n = None ∧ inherited n = true
    | Ok (nv, st') =>
        ∃ cur', nv = render cur' ∧ refines env segs cur' ∧
          ((cur' = segs ∧ variableResolved st' = variableResolved st0) ∨
           (length (holes cur') < length (holes segs) ∧
            variableResolved st' = true)) ∧
          fresh_until_resolved st' ∧
          (variableResolved st = true → variableResolved st' = true) ∧
          (ps ≠ [] → variableResolved st' = true)
    end.
Proof.
  intros Hok. induction ps as [|p ps IH]; intros cur st Hps Href HD Hfresh.
  { simpl. exists cur. by split_and!. }
  rewrite fmap_cons, visit_matches_cons.
  destruct (Hps p) as [Hin Hp]; [by left|].
  pose proof (visit_match_step segs cur st p Hok Href Hin Hp Hfresh) as Hstep.
  destruct (visit_match _ _ _ _ _) as [[nv st1]|e|?]; simpl.
  - destruct Hstep as (Hres1 & cur1 & -> & Href1 & Hprog).
    assert ((cur1 = segs ∧ variableResolved st1 = variableResolved st0) ∨
            (length (holes cur1) < length (holes segs) ∧
             variableResolved st1 = true)) as HD1.
    { destruct Hprog as [[-> Hst]|Hprog].
      - destruct HD as [[-> Heq]|[Hlt _]]; [left|right]; split; congruence.
      - right. split; [|done]. apply Hprog.
        destruct HD as [[-> _]|[Hlt _]]; [by left|by right]. }
    assert (fresh_until_resolved st1) as Hfresh1.
    { intros E. congruence. }
    specialize (IH cur1 st1 (λ q Hq, Hps q (list_elem_of_further _ _ _ Hq))
                  Href1 HD1 Hfresh1).
    destruct (visit_matches _ _ _ _ _) as [[nv st2]|e|?]; [|done..].
    destruct IH as (cur2 & -> & Href2 & HD2 & Hfresh2 & Hmono & _).
    exists cur2. split_and!; [done..| |]; intros _; by apply Hmono.
  - destruct Hstep as (n & -> & -> & Hn). by exists n.
  - by destruct Hstep as (-> & ? & ?).
Qed.

Lemma snoc_inj c : ∀ a w, a +:+ String c "" = w +:+ String c "" → a = w.
Proof.
  induction a as [|x a IH]; intros [|y w] H; str_norm.
  - done.
  - inversion H as [[Hc Hw]]. destruct w; by inversion Hw.
  - inversion H as [[Hc Ha]]. destruct a; by inversion Ha.
  - inversion H; subst. f_equal. by apply IH.
Qed.

Lemma elem_of_holes g l : g ∈ holes l ↔ g ∈ l ∧ is_placeholder g = true.
Proof. unfold holes. rewrite list_elem_of_filter. tauto. Qed.

Lemma env_segment_elem n l :
  Forall segment_ok l →
  "${env:" +:+ n +:+ "}" ∈ render_segment <$> holes l ↔ EnvVar n ∈ l.
Proof.
  intros Hok. rewrite list_elem_of_fmap. split.
  - intros (g & Heq & [Hg Hp]%elem_of_holes).
    assert (segment_ok g) as Hgok by (by eapply Forall_forall in Hok).
    destruct g as [t| |n']; [done| |].
    + simpl in Heq. str_norm. by inversion Heq.
    + simpl in Heq. str_norm. injection Heq as Heq.
      by apply snoc_inj in Heq as ->.
  - intros Hin. exists (EnvVar n). split; [done|]. by apply elem_of_holes.
Qed.

(** The callback on a well-formed leaf. *)
Lemma visit_leaf s st :
  wf_leaf s → fresh_until_resolved st →
  match visit_string stage env s st with
  | Thrown e =>
      ∃ n, e = missing_env_error n ∧
           "${env:" +:+ n +:+ "}" ∈ leaf_placeholders s ∧ env !! n = None
  | Inherited n =>
      "${env:" +:+ n +:+ "}" ∈ leaf_placeholders s ∧ env !! n = None ∧
      inherited n = true
  | Ok (s', st') =>
      wf_leaf s' ∧ fresh_until_resolved st' ∧
      (variableResolved st = true → variableResolved st' = true) ∧
      (leaf_placeholders s ≠ [] → variableResolved st' = true) ∧
      ((s' = s ∧ variableResolved st' = variableResolved st) ∨
       (length (leaf_placeholders s') < length (leaf_placeholders s) ∧
        variableResolved st' = true)) ∧
      (∀ n, env !! n = None →
            "${env:" +:+ n +:+ "}" ∈ leaf_placeholders s →
            "${env:" +:+ n +:+ "}" ∈ leaf_placeholders s') ∧
      (∀ m, m ∈ leaf_placeholders s' → m ∈ leaf_placeholders s)
  end.
Proof.
  intros (segs & Hok & ->) Hfresh.
  unfold visit_string, match_all.
  change (scan regex 0 (render segs)) with (leaf_placeholders (render segs)).
  rewrite (scan_render segs Hok).
  destruct (render_segment <$> holes segs) as [|m ms] eqn:Hms.
  { split_and!; try done.
    - by exists segs.
    - by left.
    - by intros n _ ?%elem_of_nil.
    - intros m'. by rewrite (scan_render segs Hok), Hms. }
  rewrite <- Hms.
  pose proof (leaf_loop segs st Hok (holes segs) segs st
                (λ p Hp, proj1 (elem_of_holes p segs) Hp)
                (refines_refl _ _) (or_introl (conj eq_refl eq_refl)) Hfresh)
    as Hloop.
  destruct (visit_matches _ _ _ _ _) as [[nv st']|e|?].
  - destruct Hloop as (cur & -> & Href & HD & Hfresh' & Hmono & Hne).
    pose proof (refines_ok _ _ _ Href Hok) as Hcur.
    rewrite (scan_render cur Hcur).
    split_and!.
    + by exists cur.
    + done.
    + done.
    + intros _. apply Hne. intros Hnil. by rewrite Hnil in Hms.
    + rewrite !length_fmap.
      destruct HD as [[-> ?]|?]; [by left|by right].
    + intros n Hn. rewrite !env_segment_elem by done.
      by apply (refines_undefined env).
    + intros m' (g & -> & Hg)%list_elem_of_fmap.
      apply list_elem_of_fmap. exists g. split; [done|].
      by eapply (refines_holes_subset env).
  - destruct Hloop as (n & -> & Hin & Hn). exists n.
    split_and!; [done| |done]. by apply env_segment_elem.
  - destruct Hloop as (Hin & Hn & Hinh).
    split_and!; [|done..]. by apply env_segment_elem.
Qed.

Lemma visit_leaves_cons s ls st :
  visit_leaves stage env (s :: ls) st
  = ('(s', st1) ← visit_string stage env s st;
     '(ls', st2) ← visit_leaves stage env ls st1;
     Ok (s' :: ls', st2)).
Proof. reflexivity. Qed.

Lemma visit_leaves_app : ∀ a b st,
  visit_leaves stage env (a ++ b) st
  = ('(a', st1) ← visit_leaves stage env a st;
     '(b', st2) ← visit_leaves stage env b st1;
     Ok (a' ++ b', st2)).
Proof.
  induction a as [|s a IH]; intros b st.
  - simpl. by destruct (visit_leaves stage env b st) as [[? ?]|?|?].
  - simpl. destruct (visit_string stage env s st) as [[s' st1]|?|?]; [|done..].
    simpl. rewrite IH.
    destruct (visit_leaves stage env a st1) as [[a' st2]|?|?]; [|done..]. simpl.
    by destruct (visit_leaves stage env b st2) as [[? ?]|?|?].
Qed.

(** A pass rewrites the leaves of the tree one after the other. *)
Lemma walk_leaves : ∀ v st,
  match walk stage env v st with
  | Ok (v', st') => visit_leaves stage env (leaves v) st = Ok (leaves v', st')
  | Thrown e => visit_leaves stage env (leaves v) st = Thrown e
  | Inherited n => visit_leaves stage env (leaves v) st = Inherited n
  end.
Proof.
  induction v as [| | | |s|items IH|fields IH] using value_tree_ind;
    intros st; try done.
  - simpl. by destruct (visit_string stage env s st) as [[? ?]|?|?].
  - simpl.
    assert (∀ st, match walk_items (walk stage env) items st with
                  | Ok (items', st') =>
                      visit_leaves stage env (mjoin (leaves <$> items)) st
                      = Ok (mjoin (leaves <$> items'), st')
                  | Thrown e =>
                      visit_leaves stage env (mjoin (leaves <$> items)) st
                      = Thrown e
                  | Inherited n =>
                      visit_leaves stage env (mjoin (leaves <$> items)) st
                      = Inherited n
                  end) as H.
    { clear st. induction IH as [|x xs Hx Hxs IHxs]; intros st; [done|].
      simpl. rewrite visit_leaves_app. specialize (Hx st).
      destruct (walk stage env x st) as [[x' st1]|e|?]; rewrite Hx; [|done..].
      simpl. specialize (IHxs st1).
      change (list_fmap value (list string) leaves xs) with (leaves <$> xs).
      destruct (walk_items _ xs st1) as [[xs' st2]|e|?]; by rewrite IHxs. }
    specialize (H st). by destruct (walk_items _ items st) as [[? ?]|?|?].
  - simpl.
    assert (∀ st, match walk_fields (walk stage env) fields st with
                  | Ok (fields', st') =>
                      visit_leaves stage env
                        (mjoin ((λ kv, leaves kv.2) <$> fields)) st
                      = Ok (mjoin ((λ kv, leaves kv.2) <$> fields'), st')
                  | Thrown e =>
                      visit_leaves stage env
                        (mjoin ((λ kv, leaves kv.2) <$> fields)) st
                      = Thrown e
                  | Inherited n =>
                      visit_leaves stage env
                        (mjoin ((λ kv, leaves kv.2) <$> fields)) st
                      = Inherited n
                  end) as H.
    { clear st. induction IH as [|[k x] xs Hx Hxs IHxs]; intros st; [done|].
      simpl in Hx |- *. rewrite visit_leaves_app. specialize (Hx st).
      destruct (walk stage env x st) as [[x' st1]|e|?]; rewrite Hx; [|done..].
      simpl. specialize (IHxs st1).
      change (list_fmap (string * value)%type (list string)
                (λ kv, leaves kv.2) xs)
        with ((λ kv : string * value, leaves kv.2) <$> xs).
      destruct (walk_fields _ xs st1) as [[xs' st2]|e|?]; by rewrite IHxs. }
    specialize (H st). by destruct (walk_fields _ fields st) as [[? ?]|?|?].
Qed.

(** One pass over well-formed leaves. *)
Lemma pass_leaves : ∀ ls st,
  Forall wf_leaf ls → fresh_until_resolved st →
  match visit_leaves stage env ls st with
  | Thrown e =>
      ∃ n, e = missing_env_error n ∧
           "${env:" +:+ n +:+ "}" ∈ all_placeholders ls ∧ env !! n = None
  | Inherited n =>
      "${env:" +:+ n +:+ "}" ∈ all_placeholders ls ∧ env !! n = None ∧
      inherited n = true
  | Ok (ls', st') =>
      Forall wf_leaf ls' ∧ fresh_until_resolved st' ∧
      (variableResolved st = true → variableResolved st' = true) ∧
      (all_placeholders ls ≠ [] → variableResolved st' = true) ∧
      ((ls' = ls ∧ variableResolved st' = variableResolved st) ∨
       (length (all_placeholders ls') < length (all_placeholders ls) ∧
        variableResolved st' = true)) ∧
      (∀ n, env !! n = None →
            "${env:" +:+ n +:+ "}" ∈ all_placeholders ls →
            "${env:" +:+ n +:+ "}" ∈ all_placeholders ls') ∧
      (∀ m, m ∈ all_placeholders ls' → m ∈ all_placeholders ls)
  end.
Proof.
  induction ls as [|s ls IH]; intros st Hwf Hfresh.
  { simpl. split_and!; try done. by left. }
  apply Forall_cons in Hwf as [Hs Hwf].
  assert (∀ x l, all_placeholders (x :: l)
                 = leaf_placeholders x ++ all_placeholders l) as Hcons by done.
  rewrite visit_leaves_cons.
  pose proof (visit_leaf s st Hs Hfresh) as Hleaf.
  destruct (visit_string stage env s st) as [[s' st1]|e|n].
  2:{ destruct Hleaf as (n & -> & Hin & Hn). exists n.
      split_and!; [done| |done]. rewrite Hcons. apply elem_of_app. by left. }
  2:{ destruct Hleaf as (Hin & Hn & Hinh).
      split_and!; [|done..]. rewrite Hcons. apply elem_of_app. by left. }
  destruct Hleaf as (Hs' & Hfresh1 & Hmono1 & Hne1 & Hprog1 & Hund1 & Hsub1).
  specialize (IH st1 Hwf Hfresh1). cbn [mbind result_bind].
  destruct (visit_leaves stage env ls st1) as [[ls' st2]|e|n].
  2:{ destruct IH as (n & -> & Hin & Hn). exists n.
      split_and!; [done| |done]. rewrite Hcons. apply elem_of_app. by right. }
  2:{ destruct IH as (Hin & Hn & Hinh).
      split_and!; [|done..]. rewrite Hcons. apply elem_of_app. by right. }
  destruct IH as (Hwf' & Hfresh2 & Hmono2 & Hne2 & Hprog2 & Hund2 & Hsub2).
  cbn [mbind result_bind]. rewrite !Hcons.
  split_and!.
  - by constructor.
  - done.
  - intros ?. by apply Hmono2, Hmono1.
  - intros Hne.
    destruct (leaf_placeholders s) as [|m ms] eqn:Hlp.
    + by apply Hne2.
    + by apply Hmono2, Hne1.
  - rewrite !length_app.
    destruct Hprog1 as [[-> Hst1]|[Hlt1 Hst1]],
             Hprog2 as [[-> Hst2]|[Hlt2 Hst2]].
    + left. split; [done|congruence].
    + right. split; [lia|done].
    + right. split; [lia|]. congruence.
    + right. split; [lia|done].
  - intros n Hn [Hin|Hin]%elem_of_app; apply elem_of_app;
      [left; by apply Hund1|right; by apply Hund2].
  - intros m [Hin|Hin]%elem_of_app; apply elem_of_app;
      [left; by apply Hsub1|right; by apply Hsub2].
Qed.

End Step.

End TemplateFacts.

(** * Properties of the variable resolver *)

Module ResolverTheorems.
Import Regex Resolver ResolverSpec StringFacts RegexFacts PlaceholderFacts
  TestFacts PassFacts SourcesFacts EnvFacts ColonFacts Template TemplateFacts.

(** C1 (the code departs from the claim).  A configuration that only
    uses [${sls:stage}], or only [${env:FOO}] with [FOO] defined, must
    resolve.  Since [slsStageRegex] and [envRegex] carry the [g] flag,
    [test] leaves [lastIndex] behind the match and the next call on a
    placeholder of the same pass answers [false]: the second placeholder
    falls into the last branch, its source is put in the set of
    unrecognized sources, and the run fails once every placeholder has
    been substituted.  This happens for two placeholders in one leaf and
    for two placeholders in sibling leaves, whatever the number of passes
    allowed. *)
Theorem several_placeholders_rejected : ∀ fuel,
  resolveConfigurationVariables (3 + fuel)
    (VObj [("a", VStr "${sls:stage}-${sls:stage}")]) "dev" ∅ []
  = Failed (unrecognized_sources_error ["sls"])
  ∧
  resolveConfigurationVariables (3 + fuel)
    (VObj [("a", VStr "${env:FOO}"); ("b", VStr "${env:FOO}")]) "dev"
    {["FOO" := "bar"]} []
  = Failed (unrecognized_sources_error ["env"]).
Proof. intros fuel. split; vm_compute; reflexivity. Qed.

(** A name that [process.env] inherits is not reported as missing: the
    comparison with [null] of line 153 fails on the inherited function,
    which the code goes on to use as the value of the variable. *)
Lemma inherited_name_not_reported :
  (∅ : gmap string string) !! "toString" = None ∧
  resolveConfigurationVariables 1 (VObj [("a", VStr "${env:toString}")])
    "dev" ∅ []
  = ReadInherited "toString".
Proof. split; [done|by vm_compute]. Qed.

(** With two variables that are not set, the error names the first one
    reached. *)
Lemma first_of_two_missing_variables_named :
  let cfg := VObj [("a", VStr "${env:M1}"); ("b", VStr "${env:M2}")] in
  "${env:M2}" ∈ placeholders cfg ∧
  (∅ : gmap string string) !! "M2" = None ∧
  resolveConfigurationVariables 1 cfg "dev" ∅ []
  = Failed (missing_env_error "M1") ∧
  missing_env_error "M1" ≠ missing_env_error "M2".
Proof.
  split_and!; [|done|by vm_compute|done].
  vm_compute. apply list_elem_of_In. simpl. tauto.
Qed.


(** On well-formed configurations the missing variable is reported
    whatever else there is to substitute.  Take a configuration whose
    string leaves are made of dollar-free text and of the placeholders
    [${sls:stage}] and [${env:X}], [X] made of word characters and dots and
    either set or not inherited by [process.env], a stage and environment
    values free of dollar signs, and a placeholder [${env:V}] of the
    configuration with [V] not set.  Then, when the stack holds one call
    more than there are placeholders, the resolver fails with the
    missing-variable error naming a variable that is not set and that the
    configuration references, which is [V] when no other referenced
    variable is unset. *)
Theorem undefined_variable_reported :
  ∀ fuel cfg stage (env : gmap string string) uv V,
    all_chars not_dollar stage = true →
    (∀ n v, env !! n = Some v → all_chars not_dollar v = true) →
    Forall wf_leaf (leaves cfg) →
    (∀ n, "${env:" +:+ n +:+ "}" ∈ placeholders cfg →
          env !! n = None → inherited n = false) →
    "${env:" +:+ V +:+ "}" ∈ placeholders cfg →
    env !! V = None →
    length (placeholders cfg) < fuel →
    ∃ V',
      resolveConfigurationVariables fuel cfg stage env uv
      = Failed (missing_env_error V') ∧
      "${env:" +:+ V' +:+ "}" ∈ placeholders cfg ∧ env !! V' = None ∧
      ((∀ W, "${env:" +:+ W +:+ "}" ∈ placeholders cfg →
             env !! W = None → W = V) → V' = V).
Proof.
  intros fuel cfg stage env uv V Hstage Henv.
  assert (∀ fuel cfg uv,
            Forall wf_leaf (leaves cfg) →
            (∀ n, "${env:" +:+ n +:+ "}" ∈ placeholders cfg →
                  env !! n = None → inherited n = false) →
            "${env:" +:+ V +:+ "}" ∈ placeholders cfg →
            env !! V = None →
            length (placeholders cfg) < fuel →
            ∃ V',
              resolveConfigurationVariables fuel cfg stage env uv
              = Failed (missing_env_error V') ∧
              "${env:" +:+ V' +:+ "}" ∈ placeholders cfg ∧ env !! V' = None)
    as Hmain.
  { clear fuel cfg uv.
    induction fuel as [|fuel IH]; intros cfg uv Hwf Hown HV Hundef Hfuel;
      [lia|].
    simpl. unfold resolve_pass.
    pose proof (walk_leaves stage env cfg (mkPassState 0 0 false uv)) as Hwalk.
    pose proof (pass_leaves stage env Hstage Henv (leaves cfg)
                  (mkPassState 0 0 false uv) Hwf (λ _, conj eq_refl eq_refl))
      as Hpass.
    destruct (walk stage env cfg _) as [[cfg' st']|e|n];
      rewrite Hwalk in Hpass.
    - destruct Hpass as (Hwf' & _ & _ & Hne & Hprog & Hund & Hsub).
      assert (variableResolved st' = true) as Hres.
      { apply Hne. intros Hnil. unfold placeholders in HV.
        unfold all_placeholders in Hnil. rewrite Hnil in HV.
        by apply elem_of_nil in HV. }
      rewrite Hres.
      destruct Hprog as [[_ Hst]|[Hlt _]]; [simpl in Hst; congruence|].
      destruct (IH cfg' (unrecognizedVariableSources st') Hwf')
        as (V' & Hrun & Hin & Hn).
      + intros n Hn. by apply Hown, Hsub.
      + by apply Hund.
      + done.
      + unfold placeholders, all_placeholders in *. lia.
      + exists V'. split_and!; [done| |done]. by apply Hsub.
    - destruct Hpass as (n & -> & Hin & Hn). by exists n.
    - destruct Hpass as (Hin & Hn & Hinh).
      rewrite (Hown n Hin Hn) in Hinh. done. }
  intros Hwf Hown HV Hundef Hfuel.
  destruct (Hmain fuel cfg uv Hwf Hown HV Hundef Hfuel)
    as (V' & Hrun & Hin & Hn).
  exists V'. split_and!; [done..|]. intros Huniq. by apply Huniq.
Qed.

Lemma undefined_variable_reported_witness :
  let cfg :=
    VObj [("a", VStr "${env:A}");
          ("b", VArr [VStr "x-${sls:stage}-${env:A}/${env:MISSING.VAR}"])] in
  let env : gmap string string := {["A" := "bar"]} in
  ∃ V',
    resolveConfigurationVariables 5 cfg "dev" env []
    = Failed (missing_env_error V') ∧
    "${env:" +:+ V' +:+ "}" ∈ placeholders cfg ∧ env !! V' = None ∧
    ((∀ W, "${env:" +:+ W +:+ "}" ∈ placeholders cfg →
           env !! W = None → W = "MISSING.VAR") → V' = "MISSING.VAR").
Proof.
  intros cfg env.
  apply (undefined_variable_reported 5 cfg "dev" env [] "MISSING.VAR").
  - reflexivity.
  - intros n v [_ <-]%lookup_singleton_Some. reflexivity.
  - repeat constructor.
    + exists [EnvVar "A"]. split; [repeat constructor; done|reflexivity].
    + exists [Text "x-"; SlsStage; Text "-"; EnvVar "A"; Text "/";
              EnvVar "MISSING.VAR"].
      split; [repeat constructor; done|reflexivity].
  - intros n Hn Hnone. vm_compute in Hn. apply list_elem_of_In in Hn.
    destruct Hn as [Hn|[Hn|[Hn|[Hn|[]]]]]; try discriminate Hn.
    + injection Hn as Hn. apply (snoc_inj "}" "A" n) in Hn. by subst n.
    + injection Hn as Hn. apply (snoc_inj "}" "A" n) in Hn. by subst n.
    + injection Hn as Hn. apply (snoc_inj "}" "MISSING.VAR" n) in Hn.
      by subst n.
  - vm_compute. apply list_elem_of_In. simpl. tauto.
  - reflexivity.
  - vm_compute. lia.
Defined.

(** C5, as stated, fails: the error can name a recognized source. *)
Lemma recognized_source_named :
  let names := ["sls"] in
  resolveConfigurationVariables 1 (VObj [("a", VStr "${sls:region}")])
    "dev" ∅ []
  = Failed (unrecognized_sources_error names) ∧ "sls" ∈ names.
Proof. split; [by vm_compute|]. by apply list_elem_of_singleton. Qed.

(** C7, as stated, fails: [${env:FOO:bar}] is not substituted, although
    [FOO] is defined. *)
Lemma colon_placeholder_not_substituted :
  resolveConfigurationVariables 1 (VObj [("a", VStr "${env:FOO:bar}")])
    "dev" {["FOO" := "x"]} []
  = Resolved (VObj [("a", VStr "${env:FOO:bar}")]).
Proof. by vm_compute. Qed.

(** C7 (amended).  The path of the placeholder pattern holds no colon, so
    a leaf whose only dollar sign opens [${env:N:R}], with [N] made of
    path characters, has no placeholder match: the callback leaves the
    leaf and the pass state as they are, no environment variable is read,
    and a configuration made of that leaf is returned unchanged. *)
Theorem env_placeholder_with_colon_untouched :
  ∀ fuel stage (env : gmap string string) k pre N R post,
    all_chars not_dollar pre = true →
    all_chars path_char N = true →
    all_chars not_dollar R = true →
    all_chars not_dollar post = true →
    let leaf := pre +:+ "${env:" +:+ N +:+ ":" +:+ R +:+ "}" +:+ post in
    (∀ st, visit_string stage env leaf st = Ok (leaf, st)) ∧
    resolveConfigurationVariables (S fuel) (VObj [(k, VStr leaf)]) stage env []
    = Resolved (VObj [(k, VStr leaf)]).
Proof.
  intros fuel stage env k pre N R post Hpre HN HR Hpost leaf.
  assert (∀ st, visit_string stage env leaf st = Ok (leaf, st)) as Hleaf.
  { intros st. unfold visit_string, match_all.
    change (scan regex 0 leaf) with (leaf_placeholders leaf).
    unfold leaf. by rewrite colon_leaf_no_placeholder. }
  split; [done|].
  simpl. unfold resolve_pass. simpl. by rewrite Hleaf.
Qed.

Lemma env_placeholder_with_colon_untouched_witness :
  resolveConfigurationVariables 1
    (VObj [("a", VStr "url-${env:FOO:bar}/x")]) "dev" {["FOO" := "x"]} []
  = Resolved (VObj [("a", VStr "url-${env:FOO:bar}/x")]).
Proof.
  refine (proj2 (env_placeholder_with_colon_untouched 0 "dev"
                   {["FOO" := "x"]} "a" "url-" "FOO" "bar" "/x" _ _ _ _)).
  - reflexivity.
  - reflexivity.
  - reflexivity.
  - reflexivity.
Defined.

End ResolverTheorems.

(** * Facts about the main flow *)

Module OrchestratorFacts.
Import Js Orchestrator OrchestratorSpec.

Lemma bind_normal {A B} (m : M A) (f : A → M B) st tr st' a :
  m st = (tr, st', Normal a) →
  (m ≫= f) st
  = (tr ++ trace_of (f a st'), state_after (f a st'),
     completion_of (f a st')).
Proof.
  intros H. unfold mbind, M_bind. rewrite H.
  by destruct (f a st') as [[? ?] ?].
Qed.

Lemma bind_throw {A B} (m : M A) (f : A → M B) st tr st' e :
  m st = (tr, st', Throw e) → (m ≫= f) st = (tr, st', Throw e).
Proof. intros H. unfold mbind, M_bind. by rewrite H. Qed.

Lemma keeps_ret {A} (a : A) : keeps_options (mret a).
Proof. by intros st tr st' r [= _ <- _]. Qed.
Lemma keeps_emit ev : keeps_options (emit ev).
Proof. by intros st tr st' r [= _ <- _]. Qed.
Lemma keeps_throw {A} e : keeps_options (@throw A e).
Proof. by intros st tr st' r [= _ <- _]. Qed.
Lemma keeps_unfinished {A} : keeps_options (@unfinished A).
Proof. by intros st tr st' r [= _ <- _]. Qed.
Lemma keeps_get : keeps_options get.
Proof. by intros st tr st' r [= _ <- _]. Qed.
Lemma keeps_raise_if r : keeps_options (raise_if r).
Proof. destruct r; [apply keeps_throw|apply keeps_ret]. Qed.
Lemma keeps_set_context c : keeps_options (set_context c).
Proof. by intros st tr st' r [= _ <- _]. Qed.
Lemma keeps_set_configurationForTelemetry v :
  keeps_options (set_configurationForTelemetry v).
Proof. by intros st tr st' r [= _ <- _]. Qed.

Lemma keeps_bind {A B} (m : M A) (f : A → M B) :
  keeps_options m → (∀ a, keeps_options (f a)) → keeps_options (m ≫= f).
Proof.
  intros Hm Hf st tr st' r. unfold mbind, M_bind.
  destruct (m st) as [[tr1 st1] [a|e|n|]] eqn:H1;
    try (intros [= _ <- _]; by eapply Hm).
  destruct (f a st1) as [[tr2 st2] r2] eqn:H2. intros [= _ <- _].
  etrans; [by eapply Hf|by eapply Hm].
Qed.

Ltac keeps :=
  repeat first
    [ apply keeps_ret | apply keeps_emit | apply keeps_throw
    | apply keeps_unfinished | apply keeps_get | apply keeps_raise_if
    | apply keeps_set_context | apply keeps_set_configurationForTelemetry
    | apply keeps_bind; [|intros]
    | match goal with
      | |- keeps_options (if ?b then _ else _) => destruct b
      | |- keeps_options (match ?x with _ => _ end) => destruct x
      end ].

Section Run.
Variable w : World.

Lemma keeps_file_exists path : keeps_options (file_exists w path).
Proof. unfold file_exists. keeps. Qed.

Lemma keeps_read_file path : keeps_options (read_file w path).
Proof. unfold read_file. keeps. Qed.

Lemma keeps_load_configuration fuel :
  keeps_options (load_configuration w fuel).
Proof.
  unfold load_configuration, getServerlessFile, getConfiguration, resolve.
  repeat first [ apply keeps_file_exists | apply keeps_read_file
               | progress keeps ].
Qed.

Lemma get_delete_ne v k k' :
  k ≠ k' → get_prop (delete_prop v k) k' = get_prop v k'.
Proof.
  intros Hne. destruct v as [| | | | | |fields]; try done. simpl.
  induction fields as [|[k0 x] fields IH]; [done|]. simpl.
  destruct (String.eqb_spec k0 k) as [->|Hk0]; simpl.
  - destruct (String.eqb_spec k k') as [->|_]; [done|apply IH].
  - destruct (String.eqb k0 k'); [done|apply IH].
Qed.

(** After routing, [options] is [args] without [service] and [_]. *)
Lemma route_options args st tr st' :
  route args st = (tr, st', Normal true) →
  ∀ k, k ≠ "service" → k ≠ "_" →
       get_prop (options st') k = get_prop args k.
Proof.
  intros H k Hs Hu. unfold route in H.
  unfold mbind, M_bind, set_method, set_options, set_componentName, get,
    put, mret, M_ret, renderHelp, emit, throw in H.
  repeat (case_match; simplify_eq/=); by rewrite ?get_delete_ne.
Qed.

End Run.

End OrchestratorFacts.

(** * Properties of the main flow and of the exit listeners *)

Module OrchestratorTheorems.
Import Js Orchestrator OrchestratorSpec OrchestratorFacts Examples.

(** The guarded part when no collaborator throws. *)
Lemma execute_no_throw w c cfg st :
  service_new_throws w = None →
  service_init_throws w = None →
  invoke_throws w = None →
  execute w c cfg st
  = ([EvNewService cfg; EvServiceInit;
      if truthy (componentName st)
      then EvInvokeComponent (componentName st) (method st) (options st)
      else EvInvokeGlobal (method st) (options st);
      EvStoreTelemetry (telemetry_input st c None None)
        (negb (telemetry_store_fails w));
      EvSendTelemetry c (negb (telemetry_send_fails w));
      EvContextShutdown]
     ++ (if bool_decide ("failure" ∈ (componentCommandsOutcomes w).*2)
         then failure_log else []),
     st,
     Exit (if bool_decide ("failure" ∈ (componentCommandsOutcomes w).*2)
           then 1 else 0)%Z).
Proof.
  intros Hnew Hinit Hinv.
  unfold execute, try_catch, mbind, M_bind, storeTelemetryLocally,
    sendTelemetry, emit, get, process_exit.
  rewrite Hnew, Hinit, Hinv. simpl.
  by destruct (truthy (componentName st)), (bool_decide _).
Qed.

Lemma runComponents_prepared w fuel args st0 tr st c cfg :
  prepare w fuel args st0 = (tr, st, Normal (Some (c, cfg))) →
  runComponents w fuel args st0
  = (tr ++ trace_of (execute w c cfg st), state_after (execute w c cfg st),
     completion_of (execute w c cfg st)).
Proof. intros H. unfold runComponents. by rewrite (bind_normal _ _ _ _ _ _ H). Qed.

Lemma no_failure_recorded (outcomes : list (string * string)) :
  Forall (λ o, o.2 = "success") outcomes → "failure" ∉ outcomes.*2.
Proof.
  intros Hall ([k o] & Ho & Hin)%list_elem_of_fmap.
  rewrite Forall_forall in Hall. apply Hall in Hin. simpl in *. congruence.
Qed.

Lemma failure_recorded (outcomes : list (string * string)) :
  Exists (λ o, o.2 = "failure") outcomes → "failure" ∈ outcomes.*2.
Proof.
  intros (o & Hin & Ho)%Exists_exists.
  apply list_elem_of_fmap. by exists o.
Qed.

Lemma handle_error_not_in w c cfg st e :
  service_new_throws w = None →
  service_init_throws w = None →
  invoke_throws w = None →
  EvHandleError e ∉ trace_of (execute w c cfg st).
Proof.
  intros Hnew Hinit Hinv. rewrite execute_no_throw by done.
  unfold trace_of, failure_log. simpl.
  destruct (truthy (componentName st)), (bool_decide _); simpl;
    rewrite !elem_of_cons, elem_of_nil; intuition discriminate.
Qed.

(** C2.  When everything before and inside the guarded part of the main
    flow ends without a throw, no error is reported and the process exits
    with status 0 if every recorded outcome is [success], and with status
    1 if at least one recorded outcome is [failure]. *)
Theorem exit_status_from_outcomes :
  ∀ w fuel args st0 tr st c cfg,
    prepare w fuel args st0 = (tr, st, Normal (Some (c, cfg))) →
    service_new_throws w = None →
    service_init_throws w = None →
    invoke_throws w = None →
    let run := runComponents w fuel args st0 in
    (∃ tr', trace_of run = tr ++ tr' ∧ ∀ e, EvHandleError e ∉ tr') ∧
    (Forall (λ o, o.2 = "success") (componentCommandsOutcomes w) →
     completion_of run = Exit 0) ∧
    (Exists (λ o, o.2 = "failure") (componentCommandsOutcomes w) →
     completion_of run = Exit 1).
Proof.
  intros w fuel args st0 tr st c cfg Hprep Hnew Hinit Hinv run.
  unfold run. rewrite (runComponents_prepared _ _ _ _ _ _ _ _ Hprep).
  split_and!.
  - exists (trace_of (execute w c cfg st)). split; [done|].
    intros e. by apply handle_error_not_in.
  - intros Hall%no_failure_recorded.
    rewrite execute_no_throw by done. unfold completion_of. simpl.
    by rewrite bool_decide_eq_false_2.
  - intros Hex%failure_recorded.
    rewrite execute_no_throw by done. unfold completion_of. simpl.
    by rewrite bool_decide_eq_true_2.
Qed.

Lemma exit_status_from_outcomes_witness :
  completion_of
    (runComponents (project "success" false false) 3
       (minimist [VStr "deploy"] []) initial_state) = Exit 0
  ∧
  completion_of
    (runComponents (project "failure" false false) 3
       (minimist [VStr "deploy"] []) initial_state) = Exit 1.
Proof.
  split.
  - refine (proj1 (proj2 (exit_status_from_outcomes
              (project "success" false false) 3
              (minimist [VStr "deploy"] []) initial_state
              _ _ _ _ _ eq_refl eq_refl eq_refl)) _).
    + vm_compute. reflexivity.
    + repeat constructor.
  - refine (proj2 (proj2 (exit_status_from_outcomes
              (project "failure" false false) 3
              (minimist [VStr "deploy"] []) initial_state
              _ _ _ _ _ eq_refl eq_refl eq_refl)) _).
    + vm_compute. reflexivity.
    + repeat constructor.
Defined.

(** C3.  When command execution succeeds and every recorded outcome is
    [success], a failure to store the telemetry record or to transmit it
    leaves the run as it is: both attempts are made, no error is
    reported, nothing is thrown, and the process exits with status 0. *)
Theorem telemetry_failure_keeps_exit_status :
  ∀ w fuel args st0 tr st c cfg,
    prepare w fuel args st0 = (tr, st, Normal (Some (c, cfg))) →
    service_new_throws w = None →
    service_init_throws w = None →
    invoke_throws w = None →
    Forall (λ o, o.2 = "success") (componentCommandsOutcomes w) →
    telemetry_store_fails w = true ∨ telemetry_send_fails w = true →
    let run := runComponents w fuel args st0 in
    completion_of run = Exit 0 ∧
    EvStoreTelemetry (telemetry_input st c None None)
      (negb (telemetry_store_fails w)) ∈ trace_of run ∧
    EvSendTelemetry c (negb (telemetry_send_fails w)) ∈ trace_of run ∧
    ∃ tr', trace_of run = tr ++ tr' ∧ ∀ e, EvHandleError e ∉ tr'.
Proof.
  intros w fuel args st0 tr st c cfg Hprep Hnew Hinit Hinv Hall _ run.
  unfold run. rewrite (runComponents_prepared _ _ _ _ _ _ _ _ Hprep).
  apply no_failure_recorded in Hall.
  split_and!.
  - rewrite execute_no_throw by done. unfold completion_of. simpl.
    by rewrite bool_decide_eq_false_2.
  - rewrite execute_no_throw by done. unfold trace_of. simpl.
    apply elem_of_app. right. set_solver.
  - rewrite execute_no_throw by done. unfold trace_of. simpl.
    apply elem_of_app. right. set_solver.
  - exists (trace_of (execute w c cfg st)). split; [done|].
    intros e. by apply handle_error_not_in.
Qed.

Lemma telemetry_failure_keeps_exit_status_witness :
  completion_of
    (runComponents (project "success" true true) 3
       (minimist [VStr "api"; VStr "deploy"] []) initial_state) = Exit 0.
Proof.
  refine (proj1 (telemetry_failure_keeps_exit_status
            (project "success" true true) 3
            (minimist [VStr "api"; VStr "deploy"] []) initial_state
            _ _ _ _ _ eq_refl eq_refl eq_refl _ _)).
  - vm_compute. reflexivity.
  - repeat constructor.
  - left. reflexivity.
Defined.

Lemma reject_unsupported_first o st :
  truthy (get_prop o "debug") || truthy (get_prop o "config")
    || truthy (get_prop o "param") = true →
  reject_unsupported ["debug"; "config"; "param"] o st
  = ([], st,
     Throw (invalid_option_error
              (if truthy (get_prop o "debug") then "debug"
               else if truthy (get_prop o "config") then "config"
               else "param"))).
Proof.
  simpl.
  by destruct (truthy (get_prop o "debug")),
    (truthy (get_prop o "config")), (truthy (get_prop o "param")).
Qed.

(** C8, as stated, fails: with [--debug] the composition document is
    looked up first, and when it is missing that is the error reported;
    when it is there it is read before the option is rejected. *)
Lemma reserved_option_checked_after_configuration :
  let args := minimist [VStr "deploy"] [("debug", VBool true)] in
  let lost := runComponents empty_directory 3 args initial_state in
  let found := runComponents (project "success" false false) 3 args
                 initial_state in
  truthy (get_prop args "debug") = true ∧
  trace_of lost
  = [EvFileExists "/tmp/serverless-compose.yml" false;
     EvFileExists "/tmp/serverless-compose.yaml" false] ∧
  completion_of lost
  = Throw (EServerless (mkServerlessError
             "No serverless-compose.yml file found"
             "CONFIGURATION_FILE_NOT_FOUND")) ∧
  trace_of found !! 1 = Some (EvReadFile "/app/serverless-compose.yml") ∧
  completion_of found = Throw (invalid_option_error "debug").
Proof. by vm_compute. Qed.

(** C8 (amended).  When the invocation is not a help request and its
    options include [debug], [config] or [param], the run is rejected
    with the dedicated error naming the first of them, in that order,
    once the composition document has been located, validated and
    resolved and the run context initialised: nothing happens between
    the end of that work and the rejection, so the components service is
    never created and no command is invoked.  When that work fails, its
    error is the one thrown. *)
Theorem reserved_option_rejected_after_configuration :
  ∀ w fuel args st0 tr0 st1,
    route args st0 = (tr0, st1, Normal true) →
    truthy (get_prop args "debug") || truthy (get_prop args "config")
      || truthy (get_prop args "param") = true →
    (∀ tr1 st2 c cfg,
       load_configuration w fuel st1 = (tr1, st2, Normal (c, cfg)) →
       runComponents w fuel args st0
       = (tr0 ++ tr1, st2,
          Throw (invalid_option_error
                   (if truthy (get_prop args "debug") then "debug"
                    else if truthy (get_prop args "config") then "config"
                    else "param")))) ∧
    (∀ tr1 st2 e,
       load_configuration w fuel st1 = (tr1, st2, Throw e) →
       runComponents w fuel args st0 = (tr0 ++ tr1, st2, Throw e)).
Proof.
  intros w fuel args st0 tr0 st1 Hroute Hopt. split.
  - intros tr1 st2 c cfg Hload.
    assert (∀ k, k ≠ "service" → k ≠ "_" →
                 get_prop (options st2) k = get_prop args k) as Hget.
    { intros k Hs Hu.
      rewrite (keeps_load_configuration w fuel _ _ _ _ Hload).
      by eapply route_options. }
    unfold runComponents. apply bind_throw.
    unfold prepare, mbind, M_bind. rewrite Hroute. cbn [negb].
    rewrite Hload. unfold get.
    rewrite reject_unsupported_first by (by rewrite !Hget).
    by rewrite !Hget, !app_nil_r.
  - intros tr1 st2 e Hload.
    unfold runComponents. apply bind_throw.
    unfold prepare, mbind, M_bind. rewrite Hroute. cbn [negb].
    by rewrite Hload.
Qed.

Lemma reserved_option_rejected_after_configuration_witness :
  completion_of
    (runComponents (project "success" false false) 3
       (minimist [VStr "api"; VStr "deploy"] [("param", VStr "a=b")])
       initial_state)
  = Throw (invalid_option_error "param").
Proof.
  set (args := minimist [VStr "api"; VStr "deploy"] [("param", VStr "a=b")]).
  set (w := project "success" false false).
  rewrite (proj1 (reserved_option_rejected_after_configuration w 3 args
                    initial_state
                    (trace_of (route args initial_state))
                    (state_after (route args initial_state))
                    eq_refl eq_refl)
             (trace_of (load_configuration w 3
                          (state_after (route args initial_state))))
             (state_after (load_configuration w 3
                             (state_after (route args initial_state))))
             (mkContext (VStr "/app") (VStr "/app/.serverless") VUndefined
                (VStr "dev") VUndefined)
             (VObj [("services",
                     VObj [("api", VObj [("path", VStr "api-dev")])])])).
  - reflexivity.
  - vm_compute. reflexivity.
Defined.

(** C9 (the code departs from the claim).  With no positional token,
    [args._] is an empty array, which is truthy: the test [!method] does
    not fire, help is rendered only when the help flag is set, and
    otherwise the flow goes on with the empty command, which on a project
    directory is invoked as a global command. *)
Theorem no_positional_token_is_not_help :
  (∀ named st0,
     trace_of (route (minimist [] named) st0)
     = (if truthy (assoc "help" named) then [EvRenderHelp] else []) ∧
     completion_of (route (minimist [] named) st0)
     = Normal (negb (truthy (assoc "help" named)))) ∧
  (let run := runComponents (project "success" false false) 3
                (minimist [] []) initial_state in
   (EvRenderHelp ∉ trace_of run) ∧
   (EvInvokeGlobal (VStr "") (VObj []) ∈ trace_of run) ∧
   completion_of run = Exit 0).
Proof.
  split.
  - intros named st0. unfold route, minimist. simpl.
    destruct (truthy (assoc "help" named)); [done|]. simpl.
    unfold mbind, M_bind, set_method, set_options, set_componentName, get,
      put, mret, M_ret. simpl.
    by destruct (truthy (assoc "service" named)).
  - intros run.
    let t := eval vm_compute in (trace_of run) in
    change (trace_of run) with t.
    split_and!; [|set_solver|by vm_compute].
    rewrite !elem_of_cons, elem_of_nil. intuition discriminate.
Qed.

(** C4 (the code departs from the claim).  The [uncaughtException]
    listener reads [context.logger] from the module-level variable, not
    from the context it has just chosen: when the error comes before the
    run context exists, the telemetry record is stored and then the
    listener itself throws, so the error is not reported, no transmission
    is attempted and [process.exit(1)] is not reached.  With a run
    context it stores, reports, transmits and exits with status 1. *)
Theorem uncaught_exception_listener :
  ∀ w error o m cft cn,
    (let st := mkRunState o m cft cn None in
     on_uncaughtException w error st
     = ([EvStoreTelemetry
           (telemetry_input st (fallback_context w) (Some error) None)
           (negb (telemetry_store_fails w))],
        st,
        Throw (ETypeError
                 "Cannot read properties of undefined (reading 'logger')")))
    ∧
    (∀ c, let st := mkRunState o m cft cn (Some c) in
          on_uncaughtException w error st
          = ([EvStoreTelemetry (telemetry_input st c (Some error) None)
                (negb (telemetry_store_fails w));
              EvHandleError error;
              EvSendTelemetry c (negb (telemetry_send_fails w))],
             st, Exit 1)).
Proof. intros w error o m cft cn. split; [done|]. by intros c. Qed.

(** C10.  The signal listener first stores a telemetry record built from
    the module-level variables as they are: the configuration kept for
    telemetry, the options, the command, the component name and the
    context, or a context made for the working directory when none is set
    yet, with no error and with the signal received.  Then, if another
    listener is registered for the signal, it returns without doing
    anything else; otherwise it sends the signal to the process itself,
    [SIGHUP] being replaced by [SIGINT] on [win32]. *)
Theorem signal_listener :
  ∀ w signal listenerCount st,
    let run := on_signal w signal listenerCount st in
    let usedContext :=
      match context st with
      | Some c => c
      | None =>
          mkContext (VStr (cwd w)) VUndefined VUndefined VUndefined VUndefined
      end in
    let stored :=
      EvStoreTelemetry
        (mkTelemetryInput (configurationForTelemetry st) (options st)
           (method st) (componentName st) usedContext None (Some signal))
        (negb (telemetry_store_fails w)) in
    state_after run = st ∧
    completion_of run = Normal () ∧
    (listenerCount ≠ 0 → trace_of run = [stored]) ∧
    (listenerCount = 0 → platform w = "win32" → signal = "SIGHUP" →
     trace_of run = [stored; EvKill "SIGINT"]) ∧
    (listenerCount = 0 → platform w ≠ "win32" ∨ signal ≠ "SIGHUP" →
     trace_of run = [stored; EvKill signal]).
Proof.
  intros w signal n st run usedContext stored.
  unfold stored, usedContext, run, on_signal.
  unfold mbind, M_bind, get, storeTelemetryLocally, emit, mret, M_ret.
  unfold telemetry_input, fallback_context.
  destruct (context st) as [c|]; destruct n as [|n]; simpl.
  all: split_and!; try done.
  all: try (intros _ -> ->; by simpl).
  all: intros _ H;
    destruct (String.eqb_spec (platform w) "win32"),
      (String.eqb_spec signal "SIGHUP"); simpl; try done;
    by destruct H.
Qed.

Lemma signal_listener_witness :
  let w := project "success" false false in
  let stored :=
    EvStoreTelemetry
      (mkTelemetryInput VUndefined VUndefined VUndefined VUndefined
         (mkContext (VStr (cwd w)) VUndefined VUndefined VUndefined VUndefined)
         None (Some "SIGHUP")) true in
  trace_of (on_signal w "SIGHUP" 1 initial_state) = [stored] ∧
  trace_of (on_signal w "SIGHUP" 0 initial_state) = [stored; EvKill "SIGHUP"].
Proof.
  intros w stored. split.
  - refine (proj1 (proj2 (proj2 (signal_listener w "SIGHUP" 1
                                   initial_state))) _).
    lia.
  - refine (proj2 (proj2 (proj2 (proj2 (signal_listener w "SIGHUP" 0
                                          initial_state)))) _ _).
    + reflexivity.
    + left. simpl. discriminate.
Defined.

End OrchestratorTheorems.

(** ** Resolution: fixed points and structure *)

Module TreeFacts.
Import Regex Resolver ResolverSpec StringFacts RegexFacts PlaceholderFacts
  TestFacts PassFacts SourcesFacts EnvFacts ColonFacts Template TemplateFacts
  TreeSpec.

Lemma placeholders_arr_cons x xs :
  placeholders (VArr (x :: xs)) = placeholders x ++ placeholders (VArr xs).
Proof. unfold placeholders. simpl. by rewrite fmap_app, join_app. Qed.

Lemma placeholders_obj_cons k x xs :
  placeholders (VObj ((k, x) :: xs))
  = placeholders x ++ placeholders (VObj xs).
Proof. unfold placeholders. simpl. by rewrite fmap_app, join_app. Qed.

(** A pass over a tree without placeholder match changes nothing. *)
Lemma walk_id stage env : ∀ v st,
  placeholders v = [] → walk stage env v st = Ok (v, st).
Proof.
  induction v as [| | | |s|items IH|fields IH] using value_tree_ind;
    intros st Hp; try done.
  - unfold placeholders in Hp. simpl in Hp. rewrite app_nil_r in Hp.
    simpl. unfold visit_string, match_all.
    change (scan regex 0 s) with (leaf_placeholders s). by rewrite Hp.
  - simpl.
    assert (walk_items (walk stage env) items st = Ok (items, st)) as ->;
      [|done].
    revert st Hp. induction IH as [|x xs Hx Hxs IHxs]; intros st Hp; [done|].
    rewrite placeholders_arr_cons in Hp.
    apply app_eq_nil in Hp as [Hp1 Hp2].
    simpl. rewrite (Hx st Hp1). simpl. by rewrite (IHxs st Hp2).
  - simpl.
    assert (walk_fields (walk stage env) fields st = Ok (fields, st)) as ->;
      [|done].
    revert st Hp.
    induction IH as [|[k x] xs Hx Hxs IHxs]; intros st Hp; [done|].
    rewrite placeholders_obj_cons in Hp.
    apply app_eq_nil in Hp as [Hp1 Hp2].
    simpl in Hx |- *. rewrite (Hx st Hp1). simpl. by rewrite (IHxs st Hp2).
Qed.

Lemma set_add_nonempty x l : set_add x l ≠ [].
Proof.
  unfold set_add. case_decide as H.
  - intros ->. by apply elem_of_nil in H.
  - by destruct l.
Qed.

Lemma match_step_effect env st m st' :
  match_step env st m = Ok st' →
  variableResolved st' = true ∨
  (variableResolved st' = variableResolved st ∧
   unrecognizedVariableSources st'
   = set_add (source_of m) (unrecognizedVariableSources st)).
Proof.
  unfold match_step.
  destruct (test slsStageRegex m _) as [[] ?]; [intros [= <-]; by left|].
  destruct (test envRegex m _) as [[] ?]; [|intros [= <-]; by right].
  destruct (env !! _); [|by destruct (inherited _)]. intros [= <-]. by left.
Qed.

Lemma match_step_mono env st m st' :
  match_step env st m = Ok st' →
  variableResolved st = true → variableResolved st' = true.
Proof.
  intros [?|[-> _]]%match_step_effect; done.
Qed.

Lemma run_matches_mono env : ∀ ms st st',
  run_matches env ms st = Ok st' →
  variableResolved st = true → variableResolved st' = true.
Proof.
  induction ms as [|m ms IH]; intros st st'; simpl; [by intros [= <-]|].
  destruct (match_step env st m) as [st1|?|?] eqn:Hstep; [|done..]. simpl.
  intros Hrun Hres. eapply IH; [done|]. by eapply match_step_mono.
Qed.

(** A pass that substitutes nothing and ends with an empty set met no
    placeholder match. *)
Lemma run_matches_quiet env : ∀ ms st st',
  run_matches env ms st = Ok st' →
  variableResolved st' = false → unrecognizedVariableSources st' = [] →
  ms = [].
Proof.
  intros [|m ms] st st'; [done|]. simpl.
  destruct (match_step env st m) as [st1|?|?] eqn:Hstep; [|done..]. simpl.
  intros Hrun Hres Hnil. exfalso.
  apply match_step_effect in Hstep as [Hst1|[_ Hst1]].
  - pose proof (run_matches_mono _ _ _ _ Hrun Hst1). congruence.
  - apply run_matches_sources in Hrun as ([k Hk] & _ & _).
    rewrite Hnil, Hst1 in Hk. symmetry in Hk.
    apply app_eq_nil in Hk as [Hk _]. by apply set_add_nonempty in Hk.
Qed.

Lemma walk_skeleton stage env : ∀ v st v' st',
  walk stage env v st = Ok (v', st') → skeleton v' = skeleton v.
Proof.
  unfold skeleton.
  induction v as [| | | |s|items IH|fields IH] using value_tree_ind;
    intros st v' st'; try (by intros [= <- <-]).
  - simpl. destruct (visit_string stage env s st) as [[s' st1]|?|?]; [|done..].
    by intros [= <- <-].
  - simpl.
    destruct (walk_items (walk stage env) items st) as [[items' st1]|?|?] eqn:Hw;
      [|done..].
    intros [= <- <-]. simpl. f_equal.
    revert st items' st1 Hw.
    induction IH as [|x xs Hx Hxs IHxs]; intros st items' st1; simpl.
    { by intros [= <- <-]. }
    destruct (walk stage env x st) as [[x' st2]|?|?] eqn:Hwx; [|done..]. simpl.
    destruct (walk_items (walk stage env) xs st2) as [[xs' st3]|?|?] eqn:Hwxs;
      [|done..].
    intros [= <- <-]. simpl. f_equal; [by eapply Hx|by eapply IHxs].
  - simpl.
    destruct (walk_fields (walk stage env) fields st) as [[fields' st1]|?|?] eqn:Hw;
      [|done..].
    intros [= <- <-]. simpl. f_equal.
    revert st fields' st1 Hw.
    induction IH as [|[k x] xs Hx Hxs IHxs]; intros st fields' st1; simpl.
    { by intros [= <- <-]. }
    destruct (walk stage env x st) as [[x' st2]|?|?] eqn:Hwx; [|done..]. simpl.
    destruct (walk_fields (walk stage env) xs st2) as [[xs' st3]|?|?] eqn:Hwxs;
      [|done..].
    intros [= <- <-]. simpl in Hx |- *.
    f_equal; [f_equal; by eapply Hx|by eapply IHxs].
Qed.

End TreeFacts.

(** ** First-seen order *)

Module OrderFacts.
Import Regex Resolver ResolverSpec StringFacts RegexFacts PlaceholderFacts
  TestFacts PassFacts SourcesFacts TreeSpec TreeFacts.

Ltac filter_step a :=
  repeat first
    [ rewrite (filter_cons_True _ a) by done
    | rewrite (filter_cons_False _ a) by (intros H; by apply H) ].

Lemma filter_ne_comm (x y : string) : ∀ l : list string,
  filter (λ z, z ≠ x) (filter (λ z, z ≠ y) l)
  = filter (λ z, z ≠ y) (filter (λ z, z ≠ x) l).
Proof.
  induction l as [|a l IH]; [done|].
  destruct (decide (a = x)) as [Hx|Hx]; destruct (decide (a = y)) as [Hy|Hy];
    filter_step a; try done.
  by rewrite IH.
Qed.

Lemma filter_ne_idemp (x : string) (l : list string) :
  filter (λ z, z ≠ x) (filter (λ z, z ≠ x) l) = filter (λ z, z ≠ x) l.
Proof.
  induction l as [|a l IH]; [done|].
  destruct (decide (a = x)) as [Hx|Hx]; filter_step a; [done|].
  by rewrite IH.
Qed.

Lemma filter_ne_absent (x : string) : ∀ l : list string,
  x ∉ l → filter (λ z, z ≠ x) l = l.
Proof.
  induction l as [|a l IH]; [done|].
  intros [Hne Hl]%not_elem_of_cons. filter_step a. by rewrite IH.
Qed.

(** Taking the distinct members and removing one of them commute. *)
Lemma filter_first_seen y : ∀ l,
  filter (λ z, z ≠ y) (first_seen l) = first_seen (filter (λ z, z ≠ y) l).
Proof.
  induction l as [|x l IH]; [done|]. simpl.
  destruct (decide (x = y)) as [Hxy|Hne]; filter_step x.
  - subst x. by rewrite filter_ne_idemp.
  - simpl. by rewrite filter_ne_comm, IH.
Qed.

Lemma first_seen_NoDup : ∀ l, NoDup l → first_seen l = l.
Proof.
  induction l as [|x l IH]; [done|].
  intros [Hx Hl]%NoDup_cons. simpl. rewrite (IH Hl).
  by rewrite filter_ne_absent.
Qed.

Lemma elem_of_first_seen x : ∀ l, x ∈ first_seen l ↔ x ∈ l.
Proof.
  induction l as [|a l IH]; [done|]. simpl.
  rewrite !elem_of_cons, list_elem_of_filter, IH.
  destruct (decide (x = a)); tauto.
Qed.

Lemma NoDup_first_seen : ∀ l, NoDup (first_seen l).
Proof.
  induction l as [|x l IH]; [constructor|]. simpl.
  apply NoDup_cons. split; [|by apply NoDup_filter].
  rewrite list_elem_of_filter. by intros [? _].
Qed.

(** A later occurrence of a member already seen does not count. *)
Lemma first_seen_seen x l : ∀ a,
  x ∈ a → first_seen (a ++ x :: l) = first_seen (a ++ l).
Proof.
  induction a as [|y a IH]; [by intros ?%elem_of_nil|].
  intros Hx. simpl. f_equal.
  destruct (decide (x = y)) as [->|Hne].
  - rewrite !filter_first_seen, !filter_app. by filter_step y.
  - apply elem_of_cons in Hx as [?|Hx]; [done|]. by rewrite IH.
Qed.

(** Adding to the set as JavaScript does keeps the first-seen order. *)
Lemma first_seen_set_add x acc l :
  first_seen (set_add x acc ++ l) = first_seen (acc ++ x :: l).
Proof.
  unfold set_add. case_decide as Hx.
  - by rewrite first_seen_seen.
  - by rewrite <- app_assoc.
Qed.

Section Quiet.
Variable stage : string.
Variable env : gmap string string.

(** A pass without substitution has added the source of every match. *)
Lemma run_matches_first_seen : ∀ ms st st',
  run_matches env ms st = Ok st' →
  variableResolved st' = false →
  NoDup (unrecognizedVariableSources st) →
  unrecognizedVariableSources st'
  = first_seen (unrecognizedVariableSources st ++ (source_of <$> ms)).
Proof.
  induction ms as [|m ms IH]; intros st st'; simpl.
  - intros [= <-] _ Hnd. by rewrite app_nil_r, first_seen_NoDup.
  - destruct (match_step env st m) as [st1|?|?] eqn:Hstep; [|done..]. simpl.
    intros Hrun Hres Hnd.
    pose proof Hstep as [Hst1|[_ Hst1]]%match_step_effect.
    { pose proof (run_matches_mono _ _ _ _ Hrun Hst1). congruence. }
    rewrite (IH st1 st' Hrun Hres); rewrite Hst1.
    + apply first_seen_set_add.
    + by apply set_add_NoDup.
Qed.

Lemma visit_match_quiet value nv st m nv' st' :
  visit_match stage env value (nv, st) m = Ok (nv', st') →
  variableResolved st' = false → nv' = nv.
Proof.
  unfold visit_match.
  destruct (test slsStageRegex m _) as [[] ?].
  { by intros [= <- <-]. }
  destruct (test envRegex m _) as [[] ?].
  - destruct (env !! _); [by intros [= <- <-]|by destruct (inherited _)].
  - by intros [= <- <-].
Qed.

Lemma visit_matches_quiet value : ∀ ms nv st nv' st',
  visit_matches stage env value ms (nv, st) = Ok (nv', st') →
  variableResolved st' = false → nv' = nv.
Proof.
  induction ms as [|m ms IH]; intros nv st nv' st'.
  { by intros [= <- <-]. }
  change (visit_matches stage env value (m :: ms) (nv, st))
    with (acc' ← visit_match stage env value (nv, st) m;
          visit_matches stage env value ms acc').
  destruct (visit_match stage env value (nv, st) m) as [[nv1 st1]|?|?]
    eqn:Hm; [|done..].
  simpl. intros Hrest Hres.
  pose proof (IH _ _ _ _ Hrest Hres) as ->.
  apply (visit_match_quiet _ _ _ _ _ _ Hm).
  destruct (variableResolved st1) eqn:H1; [|done].
  pose proof (visit_matches_state stage env value ms nv1 st1) as Hst.
  rewrite Hrest in Hst. simpl in Hst. symmetry in Hst.
  pose proof (run_matches_mono _ _ _ _ Hst H1). congruence.
Qed.

Lemma walk_mono v st v' st' :
  walk stage env v st = Ok (v', st') →
  variableResolved st = true → variableResolved st' = true.
Proof. intros Hw%walk_ok. by eapply run_matches_mono. Qed.

(** A pass without substitution returns the tree as it was. *)
Lemma walk_quiet : ∀ v st v' st',
  walk stage env v st = Ok (v', st') →
  variableResolved st' = false → v' = v.
Proof.
  induction v as [| | | |s|items IH|fields IH] using value_tree_ind;
    intros st v' st'; try (by intros [= <- <-]).
  - simpl.
    destruct (visit_string stage env s st) as [[s' st1]|?|?] eqn:Hs;
      [|done..].
    intros [= <- <-] Hres. f_equal. revert Hs.
    unfold visit_string, match_all.
    destruct (scan regex 0 s) as [|m ms]; [by intros [= <- <-]|].
    intros Hs. by eapply visit_matches_quiet.
  - simpl.
    destruct (walk_items (walk stage env) items st) as [[items' st1]|?|?]
      eqn:Hw; [|done..].
    intros [= <- <-] Hres. f_equal.
    revert st items' st1 Hw Hres.
    induction IH as [|x xs Hx Hxs IHxs]; intros st items' st1; simpl.
    { by intros [= <- <-]. }
    destruct (walk stage env x st) as [[x' st2]|?|?] eqn:Hwx; [|done..].
    simpl.
    destruct (walk_items (walk stage env) xs st2) as [[xs' st3]|?|?]
      eqn:Hwxs; [|done..].
    intros [= <- <-] Hres. f_equal; [|by eapply IHxs].
    eapply Hx; [done|].
    destruct (variableResolved st2) eqn:H2; [|done].
    assert (walk stage env (VArr xs) st2 = Ok (VArr xs', st3)) as Hw
      by (simpl; by rewrite Hwxs).
    pose proof (walk_mono _ _ _ _ Hw H2). congruence.
  - simpl.
    destruct (walk_fields (walk stage env) fields st) as [[fields' st1]|?|?]
      eqn:Hw; [|done..].
    intros [= <- <-] Hres. f_equal.
    revert st fields' st1 Hw Hres.
    induction IH as [|[k x] xs Hx Hxs IHxs]; intros st fields' st1; simpl.
    { by intros [= <- <-]. }
    destruct (walk stage env x st) as [[x' st2]|?|?] eqn:Hwx; [|done..].
    simpl.
    destruct (walk_fields (walk stage env) xs st2) as [[xs' st3]|?|?]
      eqn:Hwxs; [|done..].
    intros [= <- <-] Hres. simpl in Hx. f_equal; [f_equal|by eapply IHxs].
    eapply Hx; [done|].
    destruct (variableResolved st2) eqn:H2; [|done].
    assert (walk stage env (VObj xs) st2 = Ok (VObj xs', st3)) as Hw
      by (simpl; by rewrite Hwxs).
    pose proof (walk_mono _ _ _ _ Hw H2). congruence.
Qed.

End Quiet.
End OrderFacts.

Module SourcesTheorems.
Import Regex Resolver ResolverSpec StringFacts RegexFacts PlaceholderFacts
  TestFacts PassFacts SourcesFacts TreeSpec TreeFacts OrderFacts.

(** C5 (amended).  When a pass makes no substitution, the run ends there
    and the tree is as it was.  Take a tree without placeholder of source
    [env] and a set handed over by the earlier passes without [env].  The
    set then holds, in first-seen order and without duplicates, the
    members handed over followed by the source of every placeholder of
    the tree: [env] is not among them, [sls] is when it comes with a path
    other than [stage].  With a non-empty set the run fails with the
    unrecognized-sources error naming exactly these sources in that
    order; with an empty set the tree is returned.  Resolving
    [{a: "${unknown:foo}"}] fails naming exactly [unknown]. *)
Theorem unrecognized_sources_reported :
  ∀ fuel cfg stage (env : gmap string string) uv cfg' st,
    NoDup uv → ("env" ∉ uv) →
    resolve_pass stage env cfg uv = Ok (cfg', st) →
    variableResolved st = false →
    Forall (λ m, source_of m ≠ "env") (placeholders cfg) →
    let names := first_seen (uv ++ (source_of <$> placeholders cfg)) in
    cfg' = cfg ∧
    unrecognizedVariableSources st = names ∧
    NoDup names ∧
    ("env" ∉ names) ∧
    (∀ x, x ∈ names ↔
          x ∈ uv ∨ ∃ m, m ∈ placeholders cfg ∧ source_of m = x) ∧
    (names ≠ [] →
     resolveConfigurationVariables (S fuel) cfg stage env uv
     = Failed (unrecognized_sources_error names)) ∧
    (names = [] →
     resolveConfigurationVariables (S fuel) cfg stage env uv
     = Resolved cfg) ∧
    (∀ stage' (env' : gmap string string),
       resolveConfigurationVariables (S fuel)
         (VObj [("a", VStr "${unknown:foo}")]) stage' env' []
       = Failed (unrecognized_sources_error ["unknown"])).
Proof.
  intros fuel cfg stage env uv cfg' st Huv Henv Hpass Hres Hsrc names.
  pose proof Hpass as Hrun. unfold resolve_pass in Hrun.
  pose proof (walk_quiet _ _ _ _ _ _ Hrun Hres) as ->.
  apply walk_ok in Hrun.
  pose proof (run_matches_first_seen env _ _ _ Hrun Hres Huv) as Hset.
  simpl in Hset. fold names in Hset.
  assert (∀ x, x ∈ names ↔
               x ∈ uv ∨ ∃ m, m ∈ placeholders cfg ∧ source_of m = x)
    as Hnames.
  { intros x. unfold names.
    rewrite elem_of_first_seen, elem_of_app, list_elem_of_fmap.
    split; (intros [?|(m & ? & ?)]; [by left|right; by exists m]). }
  split_and!.
  - done.
  - done.
  - apply NoDup_first_seen.
  - intros [?|(m & Hm & Heq)]%Hnames; [done|].
    by apply (proj1 (Forall_forall _ _) Hsrc m Hm).
  - done.
  - intros Hne. simpl. rewrite Hpass, Hres, Hset. by destruct names.
  - intros Hnil. simpl. by rewrite Hpass, Hres, Hset, Hnil.
  - intros stage' env'. by vm_compute.
Qed.

Lemma unrecognized_sources_reported_witness :
  resolveConfigurationVariables 1
    (VObj [("a", VStr "${unknown:foo}-${sls:region}");
           ("b", VStr "${other:x} ${unknown:bar}")]) "dev" ∅ ["other"]
  = Failed (unrecognized_sources_error ["other"; "unknown"; "sls"]).
Proof.
  refine (proj1 (proj2 (proj2 (proj2 (proj2 (proj2
           (unrecognized_sources_reported 0
              (VObj [("a", VStr "${unknown:foo}-${sls:region}");
                     ("b", VStr "${other:x} ${unknown:bar}")]) "dev" ∅
              ["other"]
              (VObj [("a", VStr "${unknown:foo}-${sls:region}");
                     ("b", VStr "${other:x} ${unknown:bar}")])
              (mkPassState 0 0 false ["other"; "unknown"; "sls"])
              _ _ _ _ _)))))) _).
  - apply NoDup_singleton.
  - intros H. apply list_elem_of_singleton in H. discriminate H.
  - vm_compute. reflexivity.
  - reflexivity.
  - vm_compute. repeat constructor; discriminate.
  - vm_compute. discriminate.
Defined.

End SourcesTheorems.

Module FixedPointTheorems.
Import Regex Resolver ResolverSpec StringFacts RegexFacts PlaceholderFacts
  TestFacts PassFacts SourcesFacts EnvFacts ColonFacts Template TemplateFacts
  TreeSpec TreeFacts.

(** X1.  A configuration in which the placeholder pattern matches nothing
    is returned as it is by the first pass, whatever the stage and the
    environment. *)
Theorem resolve_without_placeholder :
  ∀ fuel cfg stage (env : gmap string string),
    placeholders cfg = [] →
    resolveConfigurationVariables (S fuel) cfg stage env [] = Resolved cfg.
Proof.
  intros fuel cfg stage env Hp. simpl. unfold resolve_pass.
  by rewrite walk_id.
Qed.

Lemma resolve_without_placeholder_witness :
  let cfg := VObj [("name", VStr "shop"); ("ports", VArr [VNum 80; VNull])] in
  placeholders cfg = [] ∧
  resolveConfigurationVariables 1 cfg "dev" ∅ [] = Resolved cfg.
Proof.
  intros cfg. split; [reflexivity|].
  apply (resolve_without_placeholder 0 cfg "dev" ∅). reflexivity.
Defined.

(** X2.  A configuration that the resolver returns holds no match of the
    placeholder pattern any more: no text of the form [${source:path}] is
    ever let through. *)
Theorem resolved_has_no_placeholder :
  ∀ fuel cfg stage (env : gmap string string) uv cfg',
    resolveConfigurationVariables fuel cfg stage env uv = Resolved cfg' →
    placeholders cfg' = [].
Proof.
  intros fuel cfg stage env uv cfg'. revert cfg uv.
  induction fuel as [|fuel IH]; intros cfg uv; [done|].
  simpl. unfold resolve_pass.
  destruct (walk stage env cfg _) as [[c1 st]|?|?] eqn:Hw; [|done..].
  destruct (variableResolved st) eqn:Hres; [apply IH|].
  destruct (unrecognizedVariableSources st) eqn:Hnil; [|done].
  intros [= <-].
  pose proof (walk_ok _ _ _ _ _ _ Hw) as Hq.
  apply run_matches_quiet in Hq; [|done..].
  rewrite walk_id in Hw by done. by injection Hw as <- _.
Qed.

Lemma resolved_has_no_placeholder_witness :
  let cfg := VObj [("path", VStr "api-${sls:stage}")] in
  let cfg' := VObj [("path", VStr "api-prod")] in
  resolveConfigurationVariables 2 cfg "prod" ∅ [] = Resolved cfg' ∧
  placeholders cfg' = [].
Proof.
  intros cfg cfg'.
  assert (resolveConfigurationVariables 2 cfg "prod" ∅ [] = Resolved cfg')
    as H by (vm_compute; reflexivity).
  split; [exact H|].
  exact (resolved_has_no_placeholder 2 cfg "prod" ∅ [] cfg' H).
Defined.

(** X3.  Resolution rewrites string nodes only: the configuration that is
    returned has the keys, the key order, the array lengths and every node
    that is not a string of the configuration that was given. *)
Theorem resolve_keeps_structure :
  ∀ fuel cfg stage (env : gmap string string) uv cfg',
    resolveConfigurationVariables fuel cfg stage env uv = Resolved cfg' →
    skeleton cfg' = skeleton cfg.
Proof.
  induction fuel as [|fuel IH]; intros cfg stage env uv cfg'; [done|].
  simpl. unfold resolve_pass.
  destruct (walk stage env cfg _) as [[c1 st]|?|?] eqn:Hw; [|done..].
  apply walk_skeleton in Hw.
  destruct (variableResolved st).
  - intros ?%IH. congruence.
  - destruct (unrecognizedVariableSources st); [|done].
    intros [= <-]. done.
Qed.

Lemma resolve_keeps_structure_witness :
  let cfg :=
    VObj [("path", VStr "api-${sls:stage}"); ("replicas", VNum 2);
          ("tags", VArr [VStr "a"; VBool true])] in
  let cfg' :=
    VObj [("path", VStr "api-prod"); ("replicas", VNum 2);
          ("tags", VArr [VStr "a"; VBool true])] in
  resolveConfigurationVariables 2 cfg "prod" ∅ [] = Resolved cfg' ∧
  skeleton cfg' = skeleton cfg.
Proof.
  intros cfg cfg'.
  assert (resolveConfigurationVariables 2 cfg "prod" ∅ [] = Resolved cfg')
    as H by (vm_compute; reflexivity).
  split; [exact H|].
  exact (resolve_keeps_structure 2 cfg "prod" ∅ [] cfg' H).
Defined.

End FixedPointTheorems.

(** ** Resolution of a single placeholder *)

Module SingleFacts.
Import Regex Resolver ResolverSpec StringFacts RegexFacts PlaceholderFacts
  TestFacts PassFacts SourcesFacts EnvFacts ColonFacts Template TemplateFacts
  TreeSpec TreeFacts.



Section Single.
Variable stage : string.
Variable env : gmap string string.
Variables m t : string.
Hypothesis value_of :
  (m = "${sls:stage}" ∧ t = stage) ∨
  (∃ n, m = "${env:" +:+ n +:+ "}" ∧ env !! n = Some t).
Hypothesis t_clean : all_chars not_dollar t = true.







End Single.
End SingleFacts.

Module SingleTheorems.
Import Regex Resolver ResolverSpec Template TreeSpec TreeFacts SingleFacts.



End SingleTheorems.

(** ** Resolution of well-formed configurations ends *)

Module EndFacts.
Import Regex Resolver ResolverSpec StringFacts RegexFacts PlaceholderFacts
  TestFacts PassFacts SourcesFacts EnvFacts ColonFacts Template TemplateFacts
  TreeSpec TreeFacts.

(** The placeholders of well-formed leaves have source [sls] or [env]. *)
Lemma wf_placeholder_source cfg m :
  Forall wf_leaf (leaves cfg) → m ∈ placeholders cfg →
  source_of m = "sls" ∨ source_of m = "env".
Proof.
  intros Hwf. unfold placeholders.
  intros (ms & Hm & (s & -> & Hs)%list_elem_of_fmap)%list_elem_of_join.
  destruct (proj1 (Forall_forall _ _) Hwf s Hs) as (l & Hok & ->).
  rewrite scan_render in Hm by done.
  apply list_elem_of_fmap in Hm as (g & -> & [Hg Pg]%elem_of_holes).
  pose proof (proj1 (Forall_forall _ _) Hok g Hg) as Hgok.
  destruct g as [?| |n]; [done|by left|right].
  destruct Hgok as [_ Hn]. apply (source_of_shape "env" (n +:+ "}")).
  done.
Qed.

End EndFacts.

Module EndTheorems.
Import Regex Resolver ResolverSpec StringFacts RegexFacts PlaceholderFacts
  TestFacts PassFacts SourcesFacts EnvFacts ColonFacts Template TemplateFacts
  TreeSpec TreeFacts EndFacts.

(** X5.  On a configuration whose string leaves are made of dollar-free
    text, [${sls:stage}] and [${env:X}], with every referenced variable
    defined and dollar-free replacement texts, the resolver ends within
    one pass more than there are placeholders: it returns a configuration
    without placeholder, or fails with the unrecognized-sources error,
    which then names [sls] or [env] only.  It never reports a missing
    variable and never exhausts a stack that holds that many calls. *)
Theorem well_formed_resolution_ends :
  ∀ fuel cfg stage (env : gmap string string),
    all_chars not_dollar stage = true →
    (∀ n v, env !! n = Some v → all_chars not_dollar v = true) →
    Forall wf_leaf (leaves cfg) →
    (∀ n, "${env:" +:+ n +:+ "}" ∈ placeholders cfg → is_Some (env !! n)) →
    length (placeholders cfg) < fuel →
    (∃ cfg',
       resolveConfigurationVariables fuel cfg stage env [] = Resolved cfg' ∧
       placeholders cfg' = [] ∧ Forall wf_leaf (leaves cfg')) ∨
    (∃ names,
       resolveConfigurationVariables fuel cfg stage env []
       = Failed (unrecognized_sources_error names) ∧
       names ≠ [] ∧ ∀ x, x ∈ names → x = "sls" ∨ x = "env").
Proof.
  intros fuel cfg stage env Hstage Henv.
  assert (∀ uv,
            (∀ x, x ∈ uv → x = "sls" ∨ x = "env") →
            Forall wf_leaf (leaves cfg) →
            (∀ n, "${env:" +:+ n +:+ "}" ∈ placeholders cfg →
                  is_Some (env !! n)) →
            length (placeholders cfg) < fuel →
            (∃ cfg',
               resolveConfigurationVariables fuel cfg stage env uv
               = Resolved cfg' ∧
               placeholders cfg' = [] ∧ Forall wf_leaf (leaves cfg')) ∨
            (∃ names,
               resolveConfigurationVariables fuel cfg stage env uv
               = Failed (unrecognized_sources_error names) ∧
               names ≠ [] ∧ ∀ x, x ∈ names → x = "sls" ∨ x = "env"))
    as Hmain.
  2:{ apply Hmain. by intros x ?%elem_of_nil. }
  revert cfg.
  induction fuel as [|fuel IH]; intros cfg uv Huv Hwf Hdef Hfuel; [lia|].
  simpl. unfold resolve_pass.
  pose proof (walk_leaves stage env cfg (mkPassState 0 0 false uv)) as Hwalk.
  pose proof (pass_leaves stage env Hstage Henv (leaves cfg)
                (mkPassState 0 0 false uv) Hwf (λ _, conj eq_refl eq_refl))
    as Hpass.
  destruct (walk stage env cfg _) as [[cfg' st']|e|?] eqn:Hw;
    rewrite Hwalk in Hpass.
  2:{ destruct Hpass as (n & -> & Hin & Hn).
      destruct (Hdef n Hin) as [v Hv]. congruence. }
  2:{ destruct Hpass as (Hin & Hn & _).
      destruct (Hdef _ Hin) as [v Hv]. congruence. }
  destruct Hpass as (Hwf' & _ & _ & Hne & Hprog & _ & Hsub).
  assert (∀ x, x ∈ unrecognizedVariableSources st' → x = "sls" ∨ x = "env")
    as Huv'.
  { intros x Hx. apply walk_ok in Hw.
    apply run_matches_sources in Hw as (_ & _ & Hsrc).
    destruct (Hsrc x Hx) as [Hin|(m & Hm & <-)]; [by apply Huv|].
    by apply (wf_placeholder_source cfg). }
  destruct (variableResolved st') eqn:Hres.
  - destruct Hprog as [[_ Hst]|[Hlt _]]; [simpl in Hst; congruence|].
    apply IH; [done..| |].
    + intros n Hn. by apply Hdef, Hsub.
    + unfold placeholders, all_placeholders in *. lia.
  - assert (placeholders cfg = []) as Hnil.
    { destruct (placeholders cfg) eqn:E; [done|].
      unfold placeholders in E. unfold all_placeholders in Hne.
      rewrite E in Hne. by discriminate Hne. }
    rewrite walk_id in Hw by done. injection Hw as <- <-. simpl.
    destruct uv as [|u uv].
    + left. by exists cfg.
    + right. by exists (u :: uv).
Qed.

Lemma well_formed_resolution_ends_witness :
  let cfg :=
    VObj [("a", VStr "${env:A}"); ("b", VArr [VStr "x-${sls:stage}"])] in
  let env : gmap string string := {["A" := "bar"]} in
  (∃ cfg',
     resolveConfigurationVariables 3 cfg "dev" env [] = Resolved cfg' ∧
     placeholders cfg' = [] ∧ Forall wf_leaf (leaves cfg')) ∨
  (∃ names,
     resolveConfigurationVariables 3 cfg "dev" env []
     = Failed (unrecognized_sources_error names) ∧
     names ≠ [] ∧ ∀ x, x ∈ names → x = "sls" ∨ x = "env").
Proof.
  intros cfg env.
  apply (well_formed_resolution_ends 3 cfg "dev" env).
  - reflexivity.
  - intros n v [_ <-]%lookup_singleton_Some. reflexivity.
  - repeat constructor.
    + exists [EnvVar "A"]. split; [repeat constructor; done|reflexivity].
    + exists [Text "x-"; SlsStage].
      split; [repeat constructor; done|reflexivity].
  - intros n Hn. vm_compute in Hn. apply list_elem_of_In in Hn.
    destruct Hn as [Hn|[Hn|[]]]; [|discriminate Hn].
    injection Hn as Hn. exists "bar".
    assert (n = "A") as ->; [|reflexivity].
    symmetry. apply (snoc_inj "}" "A" n). exact Hn.
  - vm_compute. lia.
Defined.

End EndTheorems.

(** ** Placeholders that neither pattern accepts *)

Module RejectFacts.
Import Regex Resolver ResolverSpec StringFacts RegexFacts PlaceholderFacts
  TestFacts PassFacts SourcesFacts EnvFacts ColonFacts Template TemplateFacts
  TreeSpec TreeFacts.

Lemma env_not_brace : ∀ c, env_char c = true → not_char "}" c = true.
Proof. unfold not_char. char_fact. Qed.

Lemma env_chars_no_hyphen N :
  all_chars env_char N = true → JsString.includes "-" N = false.
Proof.
  induction N as [|c N IH]; [done|]. simpl.
  intros [Hc HN]%andb_prop. rewrite (IH HN), orb_false_r.
  destruct (Ascii.eqb_spec c "-") as [->|]; done.
Qed.

Lemma hyphen_nonempty N : JsString.includes "-" N = true → N ≠ "".
Proof. by destruct N. Qed.

(** The [env] pattern rejects a name with a hyphen: the class [[\w.-_]]
    holds the range from [.] to [_], not the hyphen. *)
Lemma env_test_hyphen N i :
  all_chars path_char N = true → JsString.includes "-" N = true →
  test envRegex ("${env:" +:+ N +:+ "}") i = (false, 0).
Proof.
  intros HN Hhy.
  assert (placeholder_shape ("${env:" +:+ N +:+ "}")) as Hshape.
  { exists "env", N. split_and!; [done..|]. by apply hyphen_nonempty. }
  apply test_none. apply (only_at_start _ _ Hshape).
  destruct (match_here _ _) as [n|] eqn:Hn; [|done].
  apply match_prefix in Hn as (u & Hu & Heq).
  apply (lang_lits "${env:") in Hu as (u' & -> & Hu).
  simpl in Hu.
  destruct Hu as (a & s1 & -> & Ha & c & b & s2 & -> & Hc & Hb & s3 & -> & ->).
  revert Heq. generalize (JsString.drop n ("${env:" +:+ N +:+ "}")).
  intros rest Heq. rewrite !str_app_assoc in Heq. str_norm.
  injection Heq as Heq.
  assert (N = a +:+ String c b) as ->.
  { apply (sep_unique "}" N (a +:+ String c b) "" rest).
    - by eapply all_chars_weaken; [apply path_not_brace|].
    - rewrite all_chars_app. simpl.
      rewrite (all_chars_weaken word _ a word_not_brace Ha).
      rewrite (env_not_brace c Hc).
      by rewrite (all_chars_weaken env_char _ b env_not_brace Hb).
    - rewrite Heq. by rewrite !str_app_assoc. }
  rewrite env_chars_no_hyphen in Hhy; [done|].
  rewrite all_chars_app. simpl. rewrite Hc, Hb.
  rewrite (all_chars_weaken word env_char a); [done| |done].
  intros x Hx. unfold env_char. by rewrite Hx.
Qed.

(** The matches of the placeholder pattern in dollar-free text around one
    placeholder. *)
Lemma scan_shape m rest :
  placeholder_shape m →
  scan regex 0 (m +:+ rest) = m :: scan regex 0 rest.
Proof.
  intros Hshape. pose proof Hshape as (a & b & Heq & Ha & Hb & Hne).
  assert (match_here regex (m +:+ rest) = Some (String.length m)) as Hm.
  { subst m. rewrite <- (match_here_shape a b rest) by done.
    by rewrite !str_app_assoc. }
  clear Heq. destruct (shape_tail m Hshape) as (t & -> & _).
  rewrite str_app_cons in Hm |- *.
  change (scan regex 0 (String "$" (t +:+ rest)))
    with (match match_here regex (String "$" (t +:+ rest)) with
          | Some n =>
              JsString.take n (String "$" (t +:+ rest))
              :: scan regex (pred n) (t +:+ rest)
          | None => scan regex 0 (t +:+ rest)
          end).
  rewrite Hm. f_equal.
  - exact (take_app_length (String "$" t) rest).
  - exact (scan_skip regex t rest).
Qed.

Lemma scan_clean t : all_chars not_dollar t = true → scan regex 0 t = [].
Proof.
  intros Ht. pose proof (scan_text t "" Ht) as H.
  by rewrite str_app_nil_r in H.
Qed.

Lemma leaf_one m pre post :
  placeholder_shape m →
  all_chars not_dollar pre = true → all_chars not_dollar post = true →
  leaf_placeholders (pre +:+ m +:+ post) = [m].
Proof.
  intros Hm Hpre Hpost. unfold leaf_placeholders.
  by rewrite scan_text, scan_shape, scan_clean.
Qed.

(** A pass over a one-leaf object whose placeholder neither pattern
    accepts. *)
Lemma rejected_placeholder fuel k m pre post stage env :
  placeholder_shape m →
  all_chars not_dollar pre = true → all_chars not_dollar post = true →
  test slsStageRegex m 0 = (false, 0) →
  test envRegex m 0 = (false, 0) →
  resolveConfigurationVariables (S fuel)
    (VObj [(k, VStr (pre +:+ m +:+ post))]) stage env []
  = Failed (unrecognized_sources_error [source_of m]).
Proof.
  intros Hm Hpre Hpost Hsls Henv. simpl. unfold resolve_pass. simpl.
  unfold visit_string, match_all.
  change (scan regex 0 (pre +:+ m +:+ post))
    with (leaf_placeholders (pre +:+ m +:+ post)).
  rewrite leaf_one by done. simpl. unfold visit_match. simpl.
  by rewrite Hsls, Henv.
Qed.

End RejectFacts.

Module RejectTheorems.
Import Regex Resolver ResolverSpec StringFacts RegexFacts PlaceholderFacts
  TestFacts PassFacts SourcesFacts EnvFacts ColonFacts Template TemplateFacts
  TreeSpec TreeFacts RejectFacts.


(** X7.  A variable of the environment whose name holds a hyphen cannot be
    referenced: [${env:MY-VAR}] is matched by the placeholder pattern but
    not by the [env] pattern, whose class [[\w.-_]] holds the range from
    [.] to [_] and not the hyphen.  Alone in a leaf, it makes the resolver
    fail with the unrecognized-sources error naming [env], whether the
    variable is defined or not. *)
Theorem hyphenated_env_name_unrecognized :
  ∀ fuel k pre post N stage (env : gmap string string),
    all_chars not_dollar pre = true → all_chars not_dollar post = true →
    all_chars path_char N = true → JsString.includes "-" N = true →
    resolveConfigurationVariables (S fuel)
      (VObj [(k, VStr (pre +:+ ("${env:" +:+ N +:+ "}") +:+ post))])
      stage env []
    = Failed (unrecognized_sources_error ["env"]).
Proof.
  intros fuel k pre post N stage env Hpre Hpost HN Hhy.
  assert (placeholder_shape ("${env:" +:+ N +:+ "}")) as Hshape.
  { exists "env", N. split_and!; [done..|]. by apply hyphen_nonempty. }
  rewrite (rejected_placeholder fuel k _ pre post stage env Hshape Hpre Hpost).
  - by assert (source_of ("${env:" +:+ N +:+ "}") = "env") as ->
      by exact (source_of_shape "env" N eq_refl).
  - apply sls_test_other; [done|]. intros H. str_norm. by inversion H.
  - by apply env_test_hyphen.
Qed.

Lemma hyphenated_env_name_unrecognized_witness :
  let env : gmap string string := {["MY-BUCKET" := "b"]} in
  resolveConfigurationVariables 1
    (VObj [("bucket", VStr "s3://${env:MY-BUCKET}/logs")]) "dev" env []
  = Failed (unrecognized_sources_error ["env"]).
Proof.
  intros env.
  apply (hyphenated_env_name_unrecognized 0 "bucket" "s3://" "/logs"
           "MY-BUCKET" "dev" env); reflexivity.
Defined.

(** C6 (the code departs from the claim).  A placeholder [${env:N}] whose
    name [N] holds a hyphen is matched by the placeholder pattern and
    rejected by the [env] pattern, so the variable is never looked up:
    with [N] not set, the resolver does not fail with the
    missing-variable error naming [N], but with the unrecognized-sources
    error naming [env], which is no missing-variable error at all. *)
Theorem hyphenated_missing_variable_not_named :
  ∀ fuel k pre post N stage (env : gmap string string),
    all_chars not_dollar pre = true → all_chars not_dollar post = true →
    all_chars path_char N = true → JsString.includes "-" N = true →
    env !! N = None →
    resolveConfigurationVariables (S fuel)
      (VObj [(k, VStr (pre +:+ ("${env:" +:+ N +:+ "}") +:+ post))])
      stage env []
    = Failed (unrecognized_sources_error ["env"]) ∧
    ∀ V, unrecognized_sources_error ["env"] ≠ missing_env_error V.
Proof.
  intros fuel k pre post N stage env Hpre Hpost HN Hhy _.
  assert (placeholder_shape ("${env:" +:+ N +:+ "}")) as Hshape.
  { exists "env", N. split_and!; [done..|]. by apply hyphen_nonempty. }
  split; [|by intros V [=]].
  rewrite (rejected_placeholder fuel k _ pre post stage env Hshape Hpre Hpost).
  - by assert (source_of ("${env:" +:+ N +:+ "}") = "env") as ->
      by exact (source_of_shape "env" N eq_refl).
  - apply sls_test_other; [done|]. intros H. str_norm. by inversion H.
  - by apply env_test_hyphen.
Qed.

Lemma hyphenated_missing_variable_not_named_witness :
  resolveConfigurationVariables 1 (VObj [("a", VStr "${env:MY-VAR}")])
    "dev" ∅ []
  = Failed (unrecognized_sources_error ["env"]) ∧
  ∀ V, unrecognized_sources_error ["env"] ≠ missing_env_error V.
Proof.
  apply (hyphenated_missing_variable_not_named 0 "a" "" "" "MY-VAR" "dev" ∅);
    reflexivity.
Defined.

(** X8.  [sls] knows one path only: a placeholder [${sls:P}] with [P]
    other than [stage], alone in a leaf, makes the resolver fail with the
    unrecognized-sources error naming [sls]. *)
Theorem other_sls_path_unrecognized :
  ∀ fuel k pre post P stage (env : gmap string string),
    all_chars not_dollar pre = true → all_chars not_dollar post = true →
    all_chars path_char P = true → P ≠ "" → P ≠ "stage" →
    resolveConfigurationVariables (S fuel)
      (VObj [(k, VStr (pre +:+ ("${sls:" +:+ P +:+ "}") +:+ post))])
      stage env []
    = Failed (unrecognized_sources_error ["sls"]).
Proof.
  intros fuel k pre post P stage env Hpre Hpost HP Hne Hstage.
  assert (placeholder_shape ("${sls:" +:+ P +:+ "}")) as Hshape.
  { by exists "sls", P. }
  rewrite (rejected_placeholder fuel k _ pre post stage env Hshape Hpre Hpost).
  - by assert (source_of ("${sls:" +:+ P +:+ "}") = "sls") as ->
      by exact (source_of_shape "sls" P eq_refl).
  - apply sls_test_other; [done|]. intros H. str_norm.
    injection H as H. apply (snoc_inj "}" P "stage") in H. done.
  - apply env_test_other; [done|].
    by assert (source_of ("${sls:" +:+ P +:+ "}") = "sls") as ->
      by exact (source_of_shape "sls" P eq_refl).
Qed.

Lemma other_sls_path_unrecognized_witness :
  resolveConfigurationVariables 1
    (VObj [("region", VStr "${sls:region}")]) "dev" ∅ []
  = Failed (unrecognized_sources_error ["sls"]).
Proof.
  apply (other_sls_path_unrecognized 0 "region" "" "" "region" "dev" ∅);
    try reflexivity; discriminate.
Defined.

(** X9.  What the placeholder pattern finds.  Every match in a string has
    the form [${a:b}], [a] made of word characters and [b] a non-empty
    text of word characters, dots and hyphens; and a text of that form
    after dollar-free text is found whole, the search going on behind
    it. *)
Theorem placeholder_pattern_exact :
  (∀ s m, m ∈ leaf_placeholders s →
     ∃ a b, m = "${" +:+ a +:+ ":" +:+ b +:+ "}" ∧
            all_chars word a = true ∧ all_chars path_char b = true ∧
            b ≠ "") ∧
  (∀ a b pre rest,
     all_chars word a = true → all_chars path_char b = true → b ≠ "" →
     all_chars not_dollar pre = true →
     leaf_placeholders (pre +:+ ("${" +:+ a +:+ ":" +:+ b +:+ "}") +:+ rest)
     = ("${" +:+ a +:+ ":" +:+ b +:+ "}") :: leaf_placeholders rest).
Proof.
  split.
  - intros s m Hm. by apply placeholders_shape in Hm.
  - intros a b pre rest Ha Hb Hne Hpre. unfold leaf_placeholders.
    rewrite scan_text by done. apply scan_shape. by exists a, b.
Qed.

End RejectTheorems.

(** ** A replacement text that restores its placeholder *)

Module LoopFacts.
Import Regex Resolver ResolverSpec StringFacts RegexFacts PlaceholderFacts
  TestFacts PassFacts SourcesFacts EnvFacts ColonFacts Template TemplateFacts
  TreeSpec TreeFacts RejectFacts.




End LoopFacts.

Module LoopTheorems.
Import Regex Resolver ResolverSpec StringFacts RegexFacts PlaceholderFacts
  TestFacts PassFacts SourcesFacts EnvFacts ColonFacts Template TemplateFacts
  TreeSpec TreeFacts RejectFacts LoopFacts.



End LoopTheorems.

(** ** The value of a variable as replacement text *)

Module ReplacementFacts.
Import Regex Resolver ResolverSpec StringFacts RegexFacts PlaceholderFacts
  TestFacts PassFacts SourcesFacts EnvFacts ColonFacts Template TemplateFacts
  TreeSpec TreeFacts RejectFacts LoopFacts.





End ReplacementFacts.

Module ReplacementTheorems.
Import Regex Resolver ResolverSpec StringFacts RegexFacts PlaceholderFacts
  TestFacts PassFacts SourcesFacts EnvFacts ColonFacts Template TemplateFacts
  TreeSpec TreeFacts RejectFacts LoopFacts ReplacementFacts.





End ReplacementTheorems.

(** ** The command router *)

Module PreparationFacts.
Import Js Orchestrator OrchestratorSpec OrchestratorFacts PreparationSpec.

Lemma join_split c : ∀ s,
  JsString.join (String c "") (JsString.split c s) = s.
Proof.
  induction s as [|x s IH]; [done|]. simpl.
  destruct (Ascii.eqb_spec x c) as [->|Hne].
  - destruct (JsString.split c s) as [|w ws] eqn:Hs; [by destruct s|].
    change (JsString.join (String c "") ("" :: w :: ws))
      with (String c (JsString.join (String c "") (w :: ws))).
    by rewrite IH.
  - destruct (JsString.split c s) as [|w ws] eqn:Hs; [by destruct s|].
    rewrite <- IH. by destruct ws.
Qed.

Lemma includes_sep c a rest :
  JsString.includes c (a +:+ String c "" +:+ rest) = true.
Proof.
  induction a as [|x a IH].
  - change ("" +:+ String c "" +:+ rest) with (String c rest). simpl.
    by rewrite Ascii.eqb_refl.
  - change (String x a +:+ String c "" +:+ rest)
      with (String x (a +:+ String c "" +:+ rest)).
    simpl. by rewrite IH, orb_true_r.
Qed.

Section Confined.
Context (Pev : event → Prop).

Lemma confined_ret {A} (a : A) : confined Pev (mret a).
Proof. intros st tr st' r [= <- <- <-]. by split. Qed.
Lemma confined_emit ev : Pev ev → confined Pev (emit ev).
Proof.
  intros Hev st tr st' r [= <- <- <-]. split; [|done]. by constructor.
Qed.
Lemma confined_throw {A} e : confined Pev (@throw A e).
Proof. intros st tr st' r [= <- <- <-]. by split. Qed.
Lemma confined_unfinished {A} : confined Pev (@unfinished A).
Proof. intros st tr st' r [= <- <- <-]. by split. Qed.
Lemma confined_get : confined Pev get.
Proof. intros st tr st' r [= <- <- <-]. by split. Qed.
Lemma confined_put st0 : confined Pev (put st0).
Proof. intros st tr st' r [= <- <- <-]. by split. Qed.

Lemma confined_bind {A B} (m : M A) (f : A → M B) :
  confined Pev m → (∀ a, confined Pev (f a)) → confined Pev (m ≫= f).
Proof.
  intros Hm Hf st tr st' r. unfold mbind, M_bind.
  destruct (m st) as [[tr1 st1] [a|e|n|]] eqn:H1;
    destruct (Hm _ _ _ _ H1) as (Htr1 & Hex1).
  - destruct (f a st1) as [[tr2 st2] r2] eqn:H2. intros [= <- <- <-].
    destruct (Hf _ _ _ _ _ H2) as (Htr2 & Hex).
    split; [by apply Forall_app|done].
  - intros [= <- <- <-]. by split.
  - by destruct (Hex1 n).
  - intros [= <- <- <-]. by split.
Qed.

End Confined.

Ltac confined_step :=
  first
    [ apply confined_ret | apply confined_throw | apply confined_unfinished
    | apply confined_get | apply confined_put
    | apply confined_emit; done
    | apply confined_bind; [|intros] ].

End PreparationFacts.

Module RouteFacts.
Import Js Orchestrator OrchestratorSpec OrchestratorFacts PreparationSpec
  PreparationFacts.

(** The router on a command line that does not ask for help. *)
Lemma route_tokens args tokens st :
  truthy (get_prop args "help")
  || is_string (get_index (get_prop args "_") 0) "help" = false →
  get_prop args "_" = VArr tokens →
  route args st
  = ([],
     (let joined := array_join ":" tokens in
      if truthy (get_prop args "service") then
        routed st (delete_prop (delete_prop args "service") "_")
          (VStr joined) (get_prop args "service")
      else if JsString.includes ":" joined then
        match JsString.split ":" joined with
        | name :: methods =>
            routed st (delete_prop args "_")
              (VStr (JsString.join ":" methods)) (VStr name)
        | [] =>
            routed st (delete_prop args "_") (VStr joined) (componentName st)
        end
      else routed st (delete_prop args "_") (VStr joined) (componentName st)),
     Normal true).
Proof.
  intros Hhelp Htok. unfold route. rewrite Hhelp, Htok.
  unfold mbind, M_bind, set_method, set_options, set_componentName, get, put,
    mret, M_ret, routed.
  simpl.
  destruct (truthy (get_prop args "service")); [done|].
  destruct (JsString.includes ":" (array_join ":" tokens)); [|done].
  by destruct (JsString.split ":" (array_join ":" tokens)).
Qed.

Lemma remove_key_absent k fields :
  k ∉ fields.*1 → remove_key k fields = fields.
Proof.
  induction fields as [|[k' x] fields IH]; [done|]. simpl.
  intros Hnot. apply not_elem_of_cons in Hnot as [Hne Hnot].
  destruct (String.eqb_spec k' k) as [->|_]; [done|]. by rewrite IH.
Qed.

Lemma assoc_absent k fields : k ∉ fields.*1 → assoc k fields = VUndefined.
Proof.
  induction fields as [|[k' x] fields IH]; [done|]. simpl.
  intros Hnot. apply not_elem_of_cons in Hnot as [Hne Hnot].
  destruct (String.eqb_spec k' k) as [->|_]; [done|]. by apply IH.
Qed.

End RouteFacts.

Module RouteTheorems.
Import Js Orchestrator OrchestratorSpec OrchestratorFacts PreparationSpec
  PreparationFacts RouteFacts ResolverSpec PlaceholderFacts StringFacts
  Examples.

(** X11.  A help request, by the [help] option or by [help] as first
    positional token, renders the help and returns: no file is looked for,
    nothing is stored or sent, and the module-level variables stay as they
    were. *)
Theorem help_request_only_renders_help :
  ∀ w fuel args st,
    truthy (get_prop args "help")
    || is_string (get_index (get_prop args "_") 0) "help" = true →
    runComponents w fuel args st = ([EvRenderHelp], st, Normal ()).
Proof.
  intros w fuel args st Hhelp.
  unfold runComponents, prepare, route. rewrite Hhelp. done.
Qed.

Lemma help_request_only_renders_help_witness :
  runComponents empty_directory 3
    (minimist [VStr "help"; VStr "deploy"] [("stage", VStr "prod")])
    initial_state
  = ([EvRenderHelp], initial_state, Normal ()).
Proof.
  apply (help_request_only_renders_help empty_directory 3
           (minimist [VStr "help"; VStr "deploy"] [("stage", VStr "prod")])
           initial_state).
  reflexivity.
Defined.

(** X12.  Without the [service] option, the positional tokens joined by
    colons are cut at the first colon: what stands before it is the
    component name and all that follows, further colons included, is the
    command.  Without any colon the whole is the command and the component
    name is left as it was.  In both cases the options are the arguments
    without [_], and nothing is done to the outside. *)
Theorem command_routed_by_first_colon :
  ∀ args tokens st,
    truthy (get_prop args "help")
    || is_string (get_index (get_prop args "_") 0) "help" = false →
    get_prop args "_" = VArr tokens →
    truthy (get_prop args "service") = false →
    (JsString.includes ":" (array_join ":" tokens) = false →
     route args st
     = ([], routed st (delete_prop args "_")
              (VStr (array_join ":" tokens)) (componentName st),
        Normal true)) ∧
    (∀ name rest,
       array_join ":" tokens = name +:+ ":" +:+ rest →
       all_chars not_colon name = true →
       route args st
       = ([], routed st (delete_prop args "_") (VStr rest) (VStr name),
          Normal true)).
Proof.
  intros args tokens st Hhelp Htok Hsvc.
  rewrite (route_tokens args tokens st Hhelp Htok), Hsvc. cbv zeta. split.
  - by intros ->.
  - intros name rest -> Hname.
    rewrite (includes_sep ":" name rest).
    rewrite split_first by done. by rewrite (join_split ":").
Qed.

Lemma command_routed_by_first_colon_witness :
  let args := minimist [VStr "myApi"; VStr "logs:tail"] [] in
  route args initial_state
  = ([], routed initial_state (delete_prop args "_") (VStr "logs:tail")
           (VStr "myApi"),
     Normal true).
Proof.
  intros args.
  apply (proj2 (command_routed_by_first_colon args
                  [VStr "myApi"; VStr "logs:tail"] initial_state
                  eq_refl eq_refl eq_refl) "myApi" "logs:tail");
    reflexivity.
Defined.

(** X13.  With the [service] option, its value is the component name as it
    stands and the command is all the positional tokens joined by colons,
    which are not cut; the options lose [service] and [_]. *)
Theorem service_option_names_the_component :
  ∀ args tokens st,
    truthy (get_prop args "help")
    || is_string (get_index (get_prop args "_") 0) "help" = false →
    get_prop args "_" = VArr tokens →
    truthy (get_prop args "service") = true →
    route args st
    = ([], routed st (delete_prop (delete_prop args "service") "_")
             (VStr (array_join ":" tokens)) (get_prop args "service"),
       Normal true).
Proof.
  intros args tokens st Hhelp Htok Hsvc.
  by rewrite (route_tokens args tokens st Hhelp Htok), Hsvc.
Qed.

Lemma service_option_names_the_component_witness :
  let args := minimist [VStr "logs:tail"] [("service", VStr "myApi")] in
  route args initial_state
  = ([], routed initial_state (VObj []) (VStr "logs:tail") (VStr "myApi"),
     Normal true).
Proof.
  intros args.
  apply (service_option_names_the_component args [VStr "logs:tail"]
           initial_state); reflexivity.
Defined.

(** X14.  Naming the component by the [service] option or as first
    positional token is the same to the router: for a component name
    without colon, not empty and other than [help], and a command whose
    first token is not [help], both command lines leave the same component
    name, command and options. *)
Theorem service_option_same_as_prefix :
  ∀ name token tokens named st,
    name ≠ "" → name ≠ "help" → all_chars not_colon name = true →
    is_string token "help" = false →
    "service" ∉ named.*1 →
    truthy (get_prop (VObj named) "help") = false →
    route (minimist (token :: tokens) (("service", VStr name) :: named)) st
    = route (minimist (VStr name :: token :: tokens) named) st.
Proof.
  intros name token tokens named st Hne Hhelp Hname Htoken Hsvc Hnhelp.
  rewrite (route_tokens _ (token :: tokens)); [| |done].
  2:{ simpl in Hnhelp |- *. by rewrite Hnhelp, Htoken. }
  rewrite (route_tokens _ (VStr name :: token :: tokens)); [| |done].
  2:{ simpl in Hnhelp |- *. rewrite Hnhelp. simpl.
      by destruct (String.eqb_spec name "help"). }
  cbv zeta.
  assert (truthy (get_prop
            (minimist (token :: tokens) (("service", VStr name) :: named))
            "service") = true) as ->.
  { simpl. by destruct (String.eqb_spec name ""). }
  assert (truthy (get_prop (minimist (VStr name :: token :: tokens) named)
                    "service") = false) as ->.
  { simpl. by rewrite assoc_absent. }
  assert (array_join ":" (VStr name :: token :: tokens)
          = name +:+ ":" +:+ array_join ":" (token :: tokens)) as ->.
  { done. }
  rewrite (includes_sep ":" name), split_first by done.
  rewrite (join_split ":"). do 2 f_equal. unfold routed. simpl.
  by rewrite (remove_key_absent "service" named Hsvc).
Qed.

Lemma service_option_same_as_prefix_witness :
  route (minimist [VStr "deploy"]
           [("service", VStr "myApi"); ("stage", VStr "prod")])
    initial_state
  = route (minimist [VStr "myApi"; VStr "deploy"] [("stage", VStr "prod")])
      initial_state.
Proof.
  apply (service_option_same_as_prefix "myApi" (VStr "deploy") []
           [("stage", VStr "prod")] initial_state);
    try reflexivity; try discriminate.
  intros H. apply list_elem_of_singleton in H. discriminate H.
Defined.

End RouteTheorems.

(** ** What precedes the guarded part *)

Module LoadFacts.
Import Js Orchestrator OrchestratorSpec OrchestratorFacts PreparationSpec
  PreparationFacts RouteFacts.

Lemma bind_inv {A B} (m : M A) (f : A → M B) st tr st' b :
  (m ≫= f) st = (tr, st', Normal b) →
  ∃ tr1 st1 a tr2,
    m st = (tr1, st1, Normal a) ∧ f a st1 = (tr2, st', Normal b) ∧
    tr = tr1 ++ tr2.
Proof.
  unfold mbind, M_bind.
  destruct (m st) as [[tr1 st1] [a|e|n|]]; try done.
  destruct (f a st1) as [[tr2 st2] r2] eqn:H2. intros [= <- <- ->].
  by exists tr1, st1, a, tr2.
Qed.

Section Run.
Variable w : World.

Lemma confined_file_exists path : preparation_only (file_exists w path).
Proof. unfold preparation_only, file_exists. repeat confined_step. Qed.

Lemma confined_read_file path : preparation_only (read_file w path).
Proof. unfold preparation_only, read_file. repeat confined_step. Qed.

Lemma confined_getServerlessFile dir :
  preparation_only (getServerlessFile w dir).
Proof.
  unfold getServerlessFile.
  apply confined_bind; [apply confined_file_exists|]. intros [].
  { apply confined_read_file. }
  apply confined_bind; [apply confined_file_exists|]. intros [].
  { apply confined_read_file. }
  apply confined_ret.
Qed.

(** A document that passes [isComponentsTemplate] is returned as it is. *)
Lemma getConfiguration_template v st :
  isComponentsTemplate v = true → getConfiguration w v st = ([], st, Normal v).
Proof. by destruct v. Qed.

Lemma confined_resolve fuel cfg stage :
  preparation_only (resolve w fuel cfg stage).
Proof.
  unfold preparation_only, resolve.
  destruct (Resolver.resolveConfigurationVariables _ _ _ _ _);
    confined_step.
Qed.

Lemma confined_reject options : ∀ l,
  preparation_only (reject_unsupported l options).
Proof.
  unfold preparation_only.
  induction l as [|o l IH]; [apply confined_ret|]. simpl.
  destruct (truthy _); [apply confined_throw|apply IH].
Qed.

Lemma confined_route args tokens :
  get_prop args "_" = VArr tokens → preparation_only (route args).
Proof.
  intros Htok.
  destruct (truthy (get_prop args "help")
            || is_string (get_index (get_prop args "_") 0) "help") eqn:Hhelp.
  - unfold preparation_only, route, renderHelp. rewrite Hhelp.
    repeat confined_step.
  - intros st tr st' r. rewrite (route_tokens args tokens st Hhelp Htok).
    intros [= <- _ <-]. by split.
Qed.

Lemma confined_ext {A} (m m' : M A) :
  (∀ st, m st = m' st) → preparation_only m' → preparation_only m.
Proof. intros Heq Hm st tr st' r. rewrite Heq. apply Hm. Qed.

Lemma confined_load_configuration fuel :
  preparation_only (load_configuration w fuel).
Proof.
  unfold preparation_only, load_configuration.
  apply confined_bind; [apply confined_getServerlessFile|]. intros v.
  destruct (truthy v); simpl.
  2:{ apply confined_throw. }
  destruct (isComponentsTemplate v) eqn:Hv; simpl.
  2:{ apply confined_throw. }
  unfold set_context, set_configurationForTelemetry.
  apply confined_bind; [apply confined_get|]. intros st. cbv zeta.
  repeat confined_step.
  - unfold raise_if. destruct (context_init_throws w) as [e|] eqn:He;
      confined_step.
  - apply (confined_ext _ (mret v)); [|apply confined_ret].
    intros st'. by apply getConfiguration_template.
  - apply confined_resolve.
Qed.

Lemma confined_prepare fuel args tokens :
  get_prop args "_" = VArr tokens → preparation_only (prepare w fuel args).
Proof.
  intros Htok. unfold preparation_only, prepare.
  apply confined_bind; [by eapply confined_route|]. intros [|]; cbn [negb].
  2:{ apply confined_ret. }
  apply confined_bind; [apply confined_load_configuration|]. intros [c cfg].
  apply confined_bind; [apply confined_get|]. intros st.
  apply confined_bind; [|intros; apply confined_ret].
  apply confined_reject.
Qed.

End Run.
End LoadFacts.

Module RunFacts.
Import Js Orchestrator OrchestratorSpec OrchestratorFacts PreparationSpec
  PreparationFacts RouteFacts LoadFacts.

Section Run.
Variable w : World.

Lemma file_exists_found path v st :
  files w !! path = Some v →
  file_exists w path st = ([EvFileExists path true], st, Normal true).
Proof.
  intros H. unfold file_exists, mbind, M_bind, emit, mret, M_ret.
  rewrite H. by rewrite bool_decide_eq_true_2.
Qed.

Lemma file_exists_missing path st :
  files w !! path = None →
  file_exists w path st = ([EvFileExists path false], st, Normal false).
Proof.
  intros H. unfold file_exists, mbind, M_bind, emit, mret, M_ret.
  rewrite H. rewrite bool_decide_eq_false_2; [done|]. by intros [? ?].
Qed.

Lemma read_file_found path v st :
  files w !! path = Some v →
  read_file w path st = ([EvReadFile path], st, Normal v).
Proof.
  intros H. unfold read_file, mbind, M_bind, emit, mret, M_ret.
  by rewrite H.
Qed.

Lemma getServerlessFile_yml dir v st :
  files w !! path_join dir "serverless-compose.yml" = Some v →
  getServerlessFile w dir st
  = ([EvFileExists (path_join dir "serverless-compose.yml") true;
      EvReadFile (path_join dir "serverless-compose.yml")], st, Normal v).
Proof.
  intros H. unfold getServerlessFile.
  rewrite (bind_normal _ _ _ _ _ _ (file_exists_found _ _ _ H)).
  by rewrite (read_file_found _ _ _ H).
Qed.

Lemma getServerlessFile_state dir st tr st' r :
  getServerlessFile w dir st = (tr, st', r) → st' = st.
Proof.
  unfold getServerlessFile, file_exists, read_file, mbind, M_bind, emit, mret,
    M_ret.
  destruct (bool_decide _); [by intros [= _ <- _]|].
  destruct (bool_decide _); by intros [= _ <- _].
Qed.

(** What a successful [load_configuration] has done. *)
Lemma load_post fuel st tr st' c cfg :
  load_configuration w fuel st = (tr, st', Normal (c, cfg)) →
  ∃ v trf,
    getServerlessFile w (cwd w) st = (trf, st, Normal v) ∧
    isComponentsTemplate v = true ∧
    c = mkContext (VStr (cwd w)) (VStr (path_join (cwd w) ".serverless"))
          (get_prop (options st) "verbose")
          (if truthy (get_prop (options st) "stage")
           then get_prop (options st) "stage" else VStr "dev")
          (get_prop v "name") ∧
    Resolver.resolveConfigurationVariables fuel v (to_string (ctx_stage c))
      (env w) [] = Resolver.Resolved cfg ∧
    tr = trf ++ [EvNewContext c; EvContextInit] ∧
    st' = mkRunState (options st) (method st) cfg (componentName st) (Some c).
Proof.
  unfold load_configuration.
  intros (trf & st1 & v & tr2 & Hfile & Hrest & ->)%bind_inv.
  pose proof (getServerlessFile_state _ _ _ _ _ Hfile) as ->.
  destruct (truthy v); [|done]. cbn [negb] in Hrest.
  destruct (isComponentsTemplate v) eqn:Hv; [|done]. cbn [negb] in Hrest.
  exists v, trf. split; [done|]. split; [done|].
  apply bind_inv in Hrest as (t1 & s1 & st0 & t2 & H1 & Hrest & ->).
  injection H1 as <- <- <-. cbv zeta in Hrest.
  apply bind_inv in Hrest as (t1 & s1 & [] & t3 & H1 & Hrest & ->).
  injection H1 as <- <-.
  apply bind_inv in Hrest as (t1 & s1 & [] & t4 & H1 & Hrest & ->).
  injection H1 as <- <-.
  apply bind_inv in Hrest as (t1 & s1 & [] & t5 & H1 & Hrest & ->).
  injection H1 as <- <-.
  apply bind_inv in Hrest as (t1 & s1 & [] & t6 & H1 & Hrest & ->).
  destruct (context_init_throws w); [done|]. injection H1 as <- <-.
  apply bind_inv in Hrest as (t1 & s1 & cfg0 & t7 & H1 & Hrest & ->).
  rewrite getConfiguration_template in H1 by done. injection H1 as <- <- <-.
  apply bind_inv in Hrest as (t1 & s1 & cfg1 & t8 & H1 & Hrest & ->).
  unfold resolve in H1. cbn [ctx_stage] in H1.
  destruct (Resolver.resolveConfigurationVariables _ _ _ _ _) as [c'|e| |n]
    eqn:Hres; [|done..].
  injection H1 as <- <- <-.
  apply bind_inv in Hrest as (t1 & s1 & [] & t9 & H1 & Hrest & ->).
  injection H1 as <- <-. injection Hrest as <- <- <- <-.
  cbn [ctx_stage]. by split_and!.
Qed.

Lemma reject_passed options : ∀ l st tr st' r,
  reject_unsupported l options st = (tr, st', Normal r) →
  tr = [] ∧ st' = st ∧ ∀ o, o ∈ l → truthy (get_prop options o) = false.
Proof.
  induction l as [|o l IH]; intros st tr st' r; simpl.
  - intros [= <- <- _]. split_and!; [done..|]. by intros o ?%elem_of_nil.
  - destruct (truthy (get_prop options o)) eqn:Ho; [done|].
    intros (-> & -> & Hl)%IH. split_and!; [done..|].
    by intros o' [->|?]%elem_of_cons; [|apply Hl].
Qed.

Lemma route_help args st tr st' :
  route args st = (tr, st', Normal false) → tr = [EvRenderHelp].
Proof.
  unfold route, mbind, M_bind, set_method, set_options, set_componentName,
    get, put, mret, M_ret, renderHelp, emit, throw.
  repeat (case_match; simplify_eq/=); by intros [= <- _].
Qed.

(** The guarded part ends the process, with status 0 or 1, once the
    context is set. *)
Lemma execute_exits c cfg st c' :
  context st = Some c' →
  ∃ n, completion_of (execute w c cfg st) = Exit n ∧ (n = 0 ∨ n = 1)%Z.
Proof.
  intros Hctx.
  unfold execute, try_catch, mbind, M_bind, storeTelemetryLocally,
    sendTelemetry, emit, get, process_exit, raise_if, throw, mret, M_ret,
    handleError, context_logger, completion_of.
  destruct (service_new_throws w); simpl.
  { rewrite Hctx. simpl. eauto. }
  destruct (service_init_throws w); simpl.
  { rewrite Hctx. simpl. eauto. }
  destruct (truthy (componentName st)); simpl;
    (destruct (invoke_throws w); simpl; [rewrite Hctx; simpl; eauto|]);
    destruct (bool_decide _); simpl; eauto.
Qed.

(** What the part before the guarded part has done when it lets the run
    go on. *)
Lemma prepare_post fuel args st tr st' c cfg :
  prepare w fuel args st = (tr, st', Normal (Some (c, cfg))) →
  ∃ tr1 st1 tr2,
    route args st = (tr1, st1, Normal true) ∧
    load_configuration w fuel st1 = (tr2, st', Normal (c, cfg)) ∧
    tr = tr1 ++ tr2 ∧
    ∀ o, o ∈ ["debug"; "config"; "param"] →
         truthy (get_prop (options st') o) = false.
Proof.
  unfold prepare.
  intros (tr1 & st1 & go & tr2 & Hroute & Hrest & ->)%bind_inv.
  destruct go; [|done]. cbn [negb] in Hrest.
  apply bind_inv in Hrest as (tr3 & st2 & [c' cfg'] & tr4 & Hload & Hrest & ->).
  apply bind_inv in Hrest as (tr5 & st3 & st4 & tr6 & Hget & Hrest & ->).
  injection Hget as <- <- <-.
  apply bind_inv in Hrest as (tr7 & st5 & [] & tr8 & Hrej & Hret & ->).
  injection Hret as <- <- <- <-.
  apply reject_passed in Hrej as (-> & -> & Hrej).
  exists tr1, st1, tr3. split_and!; [done..| |done].
  by rewrite !app_nil_r.
Qed.

End Run.
End RunFacts.

Module RunTheorems.
Import Js Orchestrator OrchestratorSpec OrchestratorFacts PreparationSpec
  PreparationFacts RouteFacts LoadFacts RunFacts Examples.

(** X15.  [serverless-compose.yml] comes first: when it exists it is read
    and [serverless-compose.yaml] is not even looked for.  The [.yaml]
    file is read only when there is no [.yml] file, and without either the
    answer is [false], after both were looked for. *)
Theorem configuration_file_lookup :
  ∀ w dir st,
    let yml := path_join dir "serverless-compose.yml" in
    let yaml := path_join dir "serverless-compose.yaml" in
    (∀ v, files w !! yml = Some v →
          getServerlessFile w dir st
          = ([EvFileExists yml true; EvReadFile yml], st, Normal v)) ∧
    (∀ v, files w !! yml = None → files w !! yaml = Some v →
          getServerlessFile w dir st
          = ([EvFileExists yml false; EvFileExists yaml true;
              EvReadFile yaml], st, Normal v)) ∧
    (files w !! yml = None → files w !! yaml = None →
     getServerlessFile w dir st
     = ([EvFileExists yml false; EvFileExists yaml false], st,
        Normal (VBool false))).
Proof.
  intros w dir st yml yaml. split_and!.
  - intros v H. by apply getServerlessFile_yml.
  - intros v Hyml Hyaml. unfold getServerlessFile.
    rewrite (bind_normal _ _ _ _ _ _ (file_exists_missing w _ _ Hyml)).
    cbv iota.
    rewrite (bind_normal _ _ _ _ _ _ (file_exists_found w _ _ _ Hyaml)).
    cbv iota. by rewrite (read_file_found w _ _ _ Hyaml).
  - intros Hyml Hyaml. unfold getServerlessFile.
    rewrite (bind_normal _ _ _ _ _ _ (file_exists_missing w _ _ Hyml)).
    cbv iota.
    by rewrite (bind_normal _ _ _ _ _ _ (file_exists_missing w _ _ Hyaml)).
Qed.

(** X16.  A [serverless-compose.yml] that exists but cannot be used ends
    the run before any context is made: an empty document (a falsy value)
    is reported as [CONFIGURATION_FILE_NOT_FOUND], although the file is
    there and whatever [serverless-compose.yaml] holds, and a document
    that is not a composition as [INVALID_CONFIGURATION].  The error is
    thrown to the caller; nothing else is done to the outside and the
    variables are as the router left them. *)
Theorem unusable_document_rejected :
  ∀ w fuel args st tr st1 v,
    route args st = (tr, st1, Normal true) →
    files w !! path_join (cwd w) "serverless-compose.yml" = Some v →
    truthy v = false ∨ isComponentsTemplate v = false →
    runComponents w fuel args st
    = (tr ++ [EvFileExists (path_join (cwd w) "serverless-compose.yml") true;
              EvReadFile (path_join (cwd w) "serverless-compose.yml")],
       st1,
       Throw (if truthy v then invalid_configuration
              else configuration_file_not_found)).
Proof.
  intros w fuel args st tr st1 v Hroute Hfile Hbad.
  unfold runComponents. apply bind_throw.
  unfold prepare. rewrite (bind_normal _ _ _ _ _ _ Hroute). cbn [negb].
  assert (load_configuration w fuel st1
          = ([EvFileExists (path_join (cwd w) "serverless-compose.yml") true;
              EvReadFile (path_join (cwd w) "serverless-compose.yml")],
             st1,
             Throw (if truthy v then invalid_configuration
                    else configuration_file_not_found))) as Hload.
  { unfold load_configuration.
    rewrite (bind_normal _ _ _ _ _ _ (getServerlessFile_yml w _ _ _ Hfile)).
    destruct (truthy v); cbn [negb]; [|by rewrite app_nil_r].
    destruct Hbad as [?|Hbad]; [done|]. rewrite Hbad. cbn [negb].
    by rewrite app_nil_r. }
  by rewrite (bind_throw _ _ _ _ _ _ Hload).
Qed.

Lemma unusable_document_rejected_witness :
  let w :=
    mkWorld "/app" "linux" ∅
      {["/app/serverless-compose.yml" := VNull;
        "/app/serverless-compose.yaml" := compose_file]}
      (λ _, false) None None None None [] false false in
  let args := minimist [VStr "deploy"] [] in
  runComponents w 3 args initial_state
  = ([EvFileExists "/app/serverless-compose.yml" true;
      EvReadFile "/app/serverless-compose.yml"],
     routed initial_state (VObj []) (VStr "deploy") VUndefined,
     Throw configuration_file_not_found).
Proof.
  intros w args.
  apply (unusable_document_rejected w 3 args initial_state []
           (routed initial_state (VObj []) (VStr "deploy") VUndefined) VNull).
  - reflexivity.
  - reflexivity.
  - left. reflexivity.
Defined.

(** X17.  What the guarded part can rely on.  When the run gets as far as
    the guarded part, the context is set in the module-level variables,
    with the working directory as root, [.serverless] under it as state
    root, the [verbose] option, and the [stage] option or [dev] when that
    is not set; none of [debug], [config] and [param] is set; and the
    configuration handed on, which is also the one kept for telemetry, is
    what the resolver returned for a document that passed
    [isComponentsTemplate], at that stage. *)
Theorem prepared_state :
  ∀ w fuel args st tr st' c cfg,
    prepare w fuel args st = (tr, st', Normal (Some (c, cfg))) →
    context st' = Some c ∧
    configurationForTelemetry st' = cfg ∧
    ctx_root c = VStr (cwd w) ∧
    ctx_stateRoot c = VStr (path_join (cwd w) ".serverless") ∧
    ctx_verbose c = get_prop args "verbose" ∧
    ctx_stage c = (if truthy (get_prop args "stage")
                   then get_prop args "stage" else VStr "dev") ∧
    (∀ o, o ∈ ["debug"; "config"; "param"] →
          truthy (get_prop args o) = false) ∧
    ∃ document,
      isComponentsTemplate document = true ∧
      ctx_appName c = get_prop document "name" ∧
      Resolver.resolveConfigurationVariables fuel document
        (to_string (ctx_stage c)) (env w) [] = Resolver.Resolved cfg.
Proof.
  intros w fuel args st tr st' c cfg
    (tr1 & st1 & tr2 & Hroute & Hload & -> & Hrej)%prepare_post.
  apply load_post in Hload as (v & trf & _ & Hv & Hc & Hres & _ & ->).
  pose proof (route_options _ _ _ _ Hroute) as Hopt.
  split_and!; try (by subst c).
  - subst c. simpl. by apply Hopt.
  - subst c. simpl. by rewrite !Hopt.
  - intros o Ho. rewrite <- (Hrej o Ho). simpl.
    rewrite !elem_of_cons, elem_of_nil in Ho.
    destruct Ho as [->|[->|[->|[]]]]; by rewrite Hopt.
  - exists v. split_and!; [done| |done]. by subst c.
Qed.

Lemma prepared_state_witness :
  let w := project "success" false false in
  let args := minimist [VStr "deploy"] [("verbose", VBool true)] in
  ∃ c cfg,
    completion_of (prepare w 3 args initial_state) = Normal (Some (c, cfg)) ∧
    context (state_after (prepare w 3 args initial_state)) = Some c ∧
    ctx_stage c = VStr "dev" ∧
    cfg = VObj [("services",
                 VObj [("api", VObj [("path", VStr "api-dev")])])].
Proof.
  intros w args.
  destruct (prepare w 3 args initial_state) as [[tr st'] r] eqn:H.
  assert (∃ c cfg, r = Normal (Some (c, cfg))) as (c & cfg & ->).
  { vm_compute in H. injection H as _ _ <-. by eexists _, _. }
  pose proof (prepared_state w 3 args initial_state tr st' c cfg H)
    as (Hctx & _ & _ & _ & _ & Hstage & _).
  exists c, cfg. split_and!; [done|done|done|].
  vm_compute in H. by injection H as _ _ _ <-.
Defined.

(** X18.  An error that [runComponents] throws to its caller, on a command
    line as the argument parser yields it, was raised before the guarded
    part: the preparation ended by throwing that very error, and the run
    did nothing after it.  Until then the run has rendered no error, stored
    and sent no telemetry and started no component: it has only looked
    for files, read one, and made and initialised the context. *)
Theorem thrown_error_raised_before_guarded_part :
  ∀ w fuel tokens named st e,
    let run := runComponents w fuel (minimist tokens named) st in
    completion_of run = Throw e →
    prepare w fuel (minimist tokens named) st
    = (trace_of run, state_after run, Throw e) ∧
    Forall (λ ev, preparation_event ev = true) (trace_of run).
Proof.
  intros w fuel tokens named st e. cbv zeta.
  generalize (eq_refl : get_prop (minimist tokens named) "_" = VArr tokens).
  generalize (minimist tokens named). intros args Htok.
  destruct (prepare w fuel args st) as [[tr st'] r] eqn:Hprep.
  pose proof (confined_prepare w fuel args tokens Htok _ _ _ _ Hprep)
    as (Hev & Hex).
  destruct r as [[[c cfg]|]|e'|n|].
  - unfold runComponents. rewrite (bind_normal _ _ _ _ _ _ Hprep).
    apply prepare_post in Hprep as (? & ? & ? & _ & Hload & _).
    apply load_post in Hload as (? & ? & _ & _ & _ & _ & _ & Hst).
    destruct (execute_exits w c cfg st' c) as (n & Hn & _); [by subst st'|].
    unfold completion_of in *. simpl. by rewrite Hn.
  - unfold runComponents. rewrite (bind_normal _ _ _ _ _ _ Hprep). done.
  - unfold runComponents. rewrite (bind_throw _ _ _ _ _ _ Hprep).
    by intros [= <-].
  - by destruct (Hex n).
  - unfold runComponents, mbind, M_bind. by rewrite Hprep.
Qed.

Lemma thrown_error_raised_before_guarded_part_witness :
  let run :=
    runComponents empty_directory 3 (minimist [VStr "deploy"] [])
      initial_state in
  completion_of run = Throw configuration_file_not_found ∧
  prepare empty_directory 3 (minimist [VStr "deploy"] []) initial_state
  = (trace_of run, state_after run, Throw configuration_file_not_found) ∧
  Forall (λ ev, preparation_event ev = true) (trace_of run).
Proof.
  intros run. split; [reflexivity|].
  apply (thrown_error_raised_before_guarded_part empty_directory 3
           [VStr "deploy"] [] initial_state configuration_file_not_found).
  reflexivity.
Defined.

(** X19.  On a command line as the argument parser yields it,
    [runComponents] returns to its caller only when it has rendered the
    help and done nothing else; every other run that comes to an end
    throws or ends the process, and then with status 0 or 1. *)
Theorem run_returns_only_after_help :
  ∀ w fuel tokens named st,
    match completion_of (runComponents w fuel (minimist tokens named) st) with
    | Normal _ =>
        trace_of (runComponents w fuel (minimist tokens named) st)
        = [EvRenderHelp]
    | Exit n => (n = 0 ∨ n = 1)%Z
    | _ => True
    end.
Proof.
  intros w fuel tokens named st.
  generalize (eq_refl : get_prop (minimist tokens named) "_" = VArr tokens).
  generalize (minimist tokens named). intros args Htok.
  destruct (prepare w fuel args st) as [[tr st'] r] eqn:Hprep.
  pose proof (confined_prepare w fuel args tokens Htok _ _ _ _ Hprep)
    as (Hev & Hex).
  destruct r as [[[c cfg]|]|e'|n|].
  - unfold runComponents. rewrite (bind_normal _ _ _ _ _ _ Hprep).
    apply prepare_post in Hprep as (? & ? & ? & _ & Hload & _).
    apply load_post in Hload as (? & ? & _ & _ & _ & _ & _ & Hst).
    destruct (execute_exits w c cfg st' c) as (n & Hn & Hn01); [by subst st'|].
    unfold completion_of in *. simpl. by rewrite Hn.
  - unfold runComponents. rewrite (bind_normal _ _ _ _ _ _ Hprep).
    unfold completion_of, trace_of. simpl. rewrite app_nil_r.
    unfold prepare in Hprep.
    apply bind_inv in Hprep as (tr1 & st1 & go & tr2 & Hroute & Hrest & ->).
    destruct go.
    + cbn [negb] in Hrest.
      apply bind_inv in Hrest as (? & ? & [? ?] & ? & _ & Hrest & _).
      apply bind_inv in Hrest as (? & ? & ? & ? & _ & Hrest & _).
      by apply bind_inv in Hrest as (? & ? & ? & ? & _ & Hrest & _).
    + injection Hrest as <- _. apply route_help in Hroute as ->. done.
  - unfold runComponents. by rewrite (bind_throw _ _ _ _ _ _ Hprep).
  - by destruct (Hex n).
  - unfold runComponents, mbind, M_bind. by rewrite Hprep.
Qed.

End RunTheorems.

(** ** Errors inside the guarded part *)

Module GuardedTheorems.
Import Js Orchestrator OrchestratorSpec OrchestratorFacts PreparationSpec
  PreparationFacts RouteFacts LoadFacts RunFacts Examples.

(** X22.  An error thrown inside the guarded part, by the constructor of
    the components service, by its initialisation or by the command, is
    caught: it is reported, a telemetry record that carries it is stored,
    the transmission is attempted and the process ends with status 1.
    The calls that follow the failing one in the guarded part are not
    made: the context is not shut down and the recorded outcomes are not
    looked at. *)
Theorem guarded_error_handled :
  ∀ w fuel args st0 tr st c cfg e,
    prepare w fuel args st0 = (tr, st, Normal (Some (c, cfg))) →
    service_new_throws w = Some e ∨
    (service_new_throws w = None ∧ service_init_throws w = Some e) ∨
    (service_new_throws w = None ∧ service_init_throws w = None ∧
     invoke_throws w = Some e) →
    let run := runComponents w fuel args st0 in
    completion_of run = Exit 1 ∧
    state_after run = st ∧
    ∃ started,
      started `prefix_of`
        [EvNewService cfg; EvServiceInit;
         if truthy (componentName st)
         then EvInvokeComponent (componentName st) (method st) (options st)
         else EvInvokeGlobal (method st) (options st)] ∧
      trace_of run
      = tr ++ started ++
        [EvHandleError e;
         EvStoreTelemetry (telemetry_input st c (Some e) None)
           (negb (telemetry_store_fails w));
         EvSendTelemetry c (negb (telemetry_send_fails w))].
Proof.
  intros w fuel args st0 tr st c cfg e Hprep Hthrow run. unfold run.
  unfold runComponents. rewrite (bind_normal _ _ _ _ _ _ Hprep).
  apply prepare_post in Hprep as (? & ? & ? & _ & Hload & _).
  apply load_post in Hload as (? & ? & _ & _ & _ & _ & _ & Hst).
  assert (context st = Some c) as Hctx by (by subst st).
  clear Hst. unfold completion_of, state_after, trace_of.
  unfold execute, try_catch, mbind, M_bind, storeTelemetryLocally,
    sendTelemetry, emit, get, process_exit, raise_if, throw, mret, M_ret,
    handleError, context_logger.
  destruct Hthrow as [Hnew|[[Hnew Hinit]|(Hnew & Hinit & Hinv)]].
  - rewrite Hnew. simpl. rewrite Hctx. simpl. split_and!; [done..|].
    exists [EvNewService cfg]. split; [|done].
    by apply prefix_cons, prefix_nil.
  - rewrite Hnew, Hinit. simpl. rewrite Hctx. simpl. split_and!; [done..|].
    exists [EvNewService cfg; EvServiceInit]. split; [|done].
    by do 2 apply prefix_cons; apply prefix_nil.
  - rewrite Hnew, Hinit, Hinv. simpl.
    destruct (truthy (componentName st)); simpl; rewrite Hctx; simpl.
    + split_and!; [done..|].
      by exists [EvNewService cfg; EvServiceInit;
                 EvInvokeComponent (componentName st) (method st)
                   (options st)].
    + split_and!; [done..|].
      by exists [EvNewService cfg; EvServiceInit;
                 EvInvokeGlobal (method st) (options st)].
Qed.

Lemma guarded_error_handled_witness :
  let w :=
    mkWorld "/app" "linux" ∅ {["/app/serverless-compose.yml" := compose_file]}
      (λ _, false) None None None (Some (EExternal "DeployError"))
      [("api", "success")] false false in
  completion_of (runComponents w 3 (minimist [VStr "deploy"] []) initial_state)
  = Exit 1.
Proof.
  intros w.
  destruct (prepare w 3 (minimist [VStr "deploy"] []) initial_state)
    as [[tr st] r] eqn:H.
  assert (∃ c cfg, r = Normal (Some (c, cfg))) as (c & cfg & ->).
  { vm_compute in H. injection H as _ _ <-. by eexists _, _. }
  refine (proj1 (guarded_error_handled w 3 (minimist [VStr "deploy"] [])
                   initial_state tr st c cfg (EExternal "DeployError") H _)).
  right. right. by split_and!.
Defined.

End GuardedTheorems.
